(** * JSON Schema Helper: the schema resolver and the tree matcher

    A shallow embedding of the validation engine of [src/extension.ts]
    ([resolvePointer], [mergeSchemas], [resolveSchemaNode],
    [getPropertySchemaInfo], [resolveArrayItemSchema], [isNodeTypeCompatible],
    [visitNodeForDiagnostics], [collectDiagnostics] and the three diagnostic
    constructors) and of the functions that find and load the schema of a
    document ([findSchemaMapping], [normalizePattern], [matchesPattern],
    [toPosixPath], [findTopLevelSchemaId], [resolveSchemaUri],
    [resolveSchemaUriForDocument], [loadSchema]), followed by the properties
    of the specification and by further properties of the code.

    Modelling conventions.
    - A schema is the value [JSON.parse] returned: a [json] tree.  The
      TypeScript type [SchemaNode] is erased at run time, so every function
      is defined on all of [json] with JavaScript's rules for truthiness,
      [typeof], member access and [Array.isArray].
    - An object is the list of its own properties.  Where the source reads a
      member under a name that the schema or the document chooses
      ([part in record] and [record[part]] in [resolvePointer],
      [schema.properties[key]] in [getPropertySchemaInfo]) it finds the
      members inherited from the built-in prototypes as well: [get] looks a
      name up along the prototype chain and returns a built-in value, [JHost],
      for an inherited one.  The names of [Object.prototype] are listed; the
      names of the methods of the other prototypes are a field of the class
      [JsRuntime].
    - The identity of an object of the root schema is its location: the list
      of keys that leads to it.  [JSON.parse] builds a tree, so two locations
      never share an object.
    - A string is a sequence of code units.
    - A thrown [TypeError] is the result [Throw].
    - The call stack is bounded.  [resolveSchemaNode] calls itself once for
      each step it follows, so it takes the number of nested calls that the
      stack has room for, [fuel]; a call that finds no room ends with
      [OutOfFuel], the [RangeError] of the engine, which no function of the
      file catches.  The matcher hands the room it is given to each call of
      the resolver; its own calls, one for each level of the document, are
      not counted, and a statement about the stack of a whole run asks for
      room for them as well.
    - The two number conversions of the language ([Number::toString] and
      [StringToNumber]), the names of the methods of the built-in prototypes
      and the text of a built-in value are the fields of the class
      [JsRuntime]. *)

From Stdlib Require Import List String Ascii Bool Arith ZArith Lia.
From Stdlib Require Import QArith Qpower.
From Stdlib Require Import DecimalString SpecFloat.
From Stdlib Require Import Permutation.
Import ListNotations.

Local Close Scope Q_scope.
Local Open Scope string_scope.
Local Open Scope list_scope.

(** ** Numbers *)

(** A JavaScript number is an IEEE 754 binary64 value. *)
Definition number : Type := spec_float.

Definition number_of_nat (n : nat) : number :=
  binary_normalize 53 1024 (Z.of_nat n) 0 false.

(** [!!n]: every number but [+0], [-0] and [NaN]. *)
Definition number_truthy (n : number) : bool :=
  match n with
  | S754_zero _ | S754_nan => false
  | _ => true
  end.

(** [n > 0]. *)
Definition number_gt0 (n : number) : bool :=
  match n with
  | S754_finite false _ _ | S754_infinity false => true
  | _ => false
  end.

(** [Number.isInteger(n)]: [n] is finite and has no fractional part. *)
Definition Number_isInteger (n : number) : bool :=
  match n with
  | S754_zero _ => true
  | S754_finite _ m e =>
      if (0 <=? e)%Z then true else (Z.pos m mod 2 ^ (- e) =? 0)%Z
  | S754_infinity _ | S754_nan => false
  end.

(** The real number a finite binary64 value stands for. *)
Definition number_value (n : number) : option Q :=
  match n with
  | S754_zero _ => Some 0%Q
  | S754_finite s m e =>
      Some (inject_Z (if s then Z.neg m else Z.pos m) * (2 # 1) ^ e)%Q
  | S754_infinity _ | S754_nan => None
  end.

(** ** Built-in values

    A value of the file inherits members from the prototype of its kind:
    an object from [Object.prototype], an array from [Array.prototype] and
    through it from [Object.prototype], a string, a number and a boolean
    from the prototype of their wrapper.  What such a member holds is not a
    value of the file: it is a built-in function or, under the name
    [__proto__], the prototype object itself. *)
Inductive Kind : Type := KObject | KArray | KString | KNumber | KBoolean.

Inductive host : Type :=
| HostFunction
| HostPrototype (k : Kind).

(** What the language and its library define and the repository does not:
    the conversions between numbers and strings ([Number::toString],
    [StringToNumber]), the names of the methods of [Array.prototype] and of
    the prototypes of the wrappers, which differ from one version of the
    engine to the next, and the text a built-in value prints as. *)
Class JsRuntime : Type := {
  Number_toString : number -> string;
  String_toNumber : string -> number;
  Prototype_method : Kind -> string -> bool;
  Host_toString : host -> string
}.

(** ** Values *)

(** The values the engine handles: the values [JSON.parse] returns and the
    built-in values that a member inherited from a prototype holds. *)
Unset Elimination Schemes.
Inductive json : Type :=
| JNull
| JBool (b : bool)
| JNum (n : number)
| JStr (s : string)
| JArr (elements : list json)
| JObj (members : list (string * json))
| JHost (h : host).
Set Elimination Schemes.

(** A value that may be [undefined] is an [option json].  [truthy v] is
    [!!v]. *)
Definition truthy (v : option json) : bool :=
  match v with
  | None | Some JNull => false
  | Some (JBool b) => b
  | Some (JNum n) => number_truthy n
  | Some (JStr s) => negb (s =? "")
  | Some (JArr _) | Some (JObj _) | Some (JHost _) => true
  end.

(** [typeof v === 'string'] and [Array.isArray(v)]; [Array.prototype] is an
    array. *)
Definition isString (v : option json) : bool :=
  match v with Some (JStr _) => true | _ => false end.

Definition isArray (v : option json) : bool :=
  match v with
  | Some (JArr _) | Some (JHost (HostPrototype KArray)) => true
  | _ => false
  end.

(** *** Member access *)

Fixpoint lookup (k : string) (ms : list (string * json)) : option json :=
  match ms with
  | [] => None
  | (k', v) :: r => if k' =? k then Some v else lookup k r
  end.

(** [o[k] = v] on the list of own properties: an existing key keeps its
    place. *)
Fixpoint assign (k : string) (v : json) (ms : list (string * json))
  : list (string * json) :=
  match ms with
  | [] => [(k, v)]
  | (k', v') :: r => if k' =? k then (k, v) :: r else (k', v') :: assign k v r
  end.

Definition string_of_nat (n : nat) : string :=
  NilEmpty.string_of_uint (Nat.to_uint n).

(** The array index a property key denotes: the key must be the canonical
    decimal numeral of the index. *)
Definition index_of_key (k : string) : option nat :=
  match NilEmpty.uint_of_string k with
  | Some d => let n := Nat.of_uint d in
              if string_of_nat n =? k then Some n else None
  | None => None
  end.

Definition charAt (i : nat) (s : string) : option json :=
  match String.get i s with
  | Some c => Some (JStr (String c EmptyString))
  | None => None
  end.

(** The own member [k] of a value [v] that is neither [undefined] nor
    [null].  This is what [v.k] returns for the keys that the engine names
    itself ([$ref], [allOf], [oneOf], [anyOf], [type], [properties],
    [required], [items], [additionalProperties]): no prototype has a member
    of one of these names, and a built-in value has no own member of them
    either. *)
Definition member (v : json) (k : string) : option json :=
  match v with
  | JObj ms => lookup k ms
  | JArr l =>
      if k =? "length" then Some (JNum (number_of_nat (List.length l)))
      else match index_of_key k with
           | Some i => nth_error l i
           | None => None
           end
  | JStr s =>
      if k =? "length" then Some (JNum (number_of_nat (String.length s)))
      else match index_of_key k with
           | Some i => charAt i s
           | None => None
           end
  | JNull | JBool _ | JNum _ | JHost _ => None
  end.

(** [v[k]] and [v.k] where [v] may be [undefined].  The source reads a
    member only behind a test that [v] is truthy, so the value given here
    for [undefined] and [null] never decides a result. *)
Definition field (v : option json) (k : string) : option json :=
  match v with
  | Some x => member x k
  | None => None
  end.

(** [v[i]] for a loop index [i]. *)
Definition at_index (v : json) (i : nat) : option json :=
  match v with
  | JArr l => nth_error l i
  | JStr s => charAt i s
  | JObj ms => lookup (string_of_nat i) ms
  | JNull | JBool _ | JNum _ | JHost _ => None
  end.

(** *** Inherited members *)

(** The members of [Object.prototype], which every kind inherits:
    functions, and the accessor [__proto__]. *)
Definition objectPrototypeNames : list string :=
  ["constructor"; "__defineGetter__"; "__defineSetter__"; "hasOwnProperty";
   "__lookupGetter__"; "__lookupSetter__"; "isPrototypeOf";
   "propertyIsEnumerable"; "toString"; "valueOf"; "__proto__";
   "toLocaleString"].

Definition kindOf (v : json) : option Kind :=
  match v with
  | JObj _ => Some KObject
  | JArr _ => Some KArray
  | JStr _ => Some KString
  | JNum _ => Some KNumber
  | JBool _ => Some KBoolean
  | JNull | JHost _ => None
  end.

Section Inheritance.
Context {rt : JsRuntime}.

(** [name] is a member of the prototype chain of the values of kind [k]:
    a member of [Object.prototype] or, for the other kinds, a method of the
    prototype of the kind. *)
Definition inherits (k : Kind) (name : string) : bool :=
  existsb (String.eqb name) objectPrototypeNames ||
  match k with
  | KObject => false
  | _ => Prototype_method k name
  end.

(** The member [name] that a value of kind [k] inherits. *)
Definition inheritedMember (k : Kind) (name : string) : option json :=
  if name =? "__proto__" then Some (JHost (HostPrototype k))
  else if inherits k name then Some (JHost HostFunction)
  else None.

(** The member [name] of the prototype object of kind [k]: its own members
    and those it inherits from [Object.prototype]; the prototype of
    [Object.prototype] is [null], and [Array.prototype] and
    [String.prototype] have the length 0. *)
Definition prototypeMember (k : Kind) (name : string) : option json :=
  if name =? "__proto__" then
    Some (match k with
          | KObject => JNull
          | _ => JHost (HostPrototype KObject)
          end)
  else if (name =? "length") &&
          match k with KArray | KString => true | _ => false end
  then Some (JNum (S754_zero false))
  else if inherits k name then Some (JHost HostFunction)
  else None.

(** [v[name]] for a name that the document or a pointer supplies: the own
    member, or else the inherited one; [None] when [name in v] is false.
    The engine reads no member of a built-in function by such a name:
    [resolvePointer] stops at a value that is not an object. *)
Definition get (v : json) (name : string) : option json :=
  match member v name with
  | Some x => Some x
  | None =>
      match v with
      | JHost (HostPrototype k) => prototypeMember k name
      | JHost HostFunction => None
      | _ =>
          match kindOf v with
          | Some k => inheritedMember k name
          | None => None
          end
      end
  end.

(** [v[name]] where [v] may be [undefined]. *)
Definition getOf (v : option json) (name : string) : option json :=
  match v with
  | Some x => get x name
  | None => None
  end.

End Inheritance.

(** *** Structural comparison *)

Definition number_eqb (a b : number) : bool :=
  match a, b with
  | S754_zero _, S754_zero _ => true
  | S754_nan, S754_nan => true
  | S754_infinity s, S754_infinity s' => Bool.eqb s s'
  | S754_finite s m e, S754_finite s' m' e' =>
      Bool.eqb s s' && Pos.eqb m m' && Z.eqb e e'
  | _, _ => false
  end.

Fixpoint json_eqb (a b : json) : bool :=
  match a, b with
  | JNull, JNull => true
  | JBool x, JBool y => Bool.eqb x y
  | JNum x, JNum y => number_eqb x y
  | JStr x, JStr y => x =? y
  | JArr l, JArr l' =>
      (fix elems (l l' : list json) : bool :=
         match l, l' with
         | [], [] => true
         | x :: r, y :: r' => json_eqb x y && elems r r'
         | _, _ => false
         end) l l'
  | JObj ms, JObj ms' =>
      (fix membs (ms ms' : list (string * json)) : bool :=
         match ms, ms' with
         | [], [] => true
         | (k, x) :: r, (k', y) :: r' => (k =? k') && json_eqb x y && membs r r'
         | _, _ => false
         end) ms ms'
  | JHost h, JHost h' =>
      match h, h' with
      | HostFunction, HostFunction => true
      | HostPrototype KObject, HostPrototype KObject
      | HostPrototype KArray, HostPrototype KArray
      | HostPrototype KString, HostPrototype KString
      | HostPrototype KNumber, HostPrototype KNumber
      | HostPrototype KBoolean, HostPrototype KBoolean => true
      | _, _ => false
      end
  | _, _ => false
  end.

(** The comparison of [Set]: SameValueZero on primitive values.  Two objects
    are the same member when they are one object; the model compares them
    structurally, which the engine cannot tell apart, since it reads the
    members of such a set through [String] only. *)
Definition sameValueZero (a b : json) : bool := json_eqb a b.

(** [Array.from(new Set(l))]: first occurrences, in order. *)
Fixpoint Set_add_all (l acc : list json) : list json :=
  match l with
  | [] => acc
  | x :: r =>
      if existsb (sameValueZero x) acc then Set_add_all r acc
      else Set_add_all r (acc ++ [x])
  end.

Definition Set_from (l : list json) : list json := Set_add_all l [].

(** ** Strings *)

(** [s.startsWith(p)]. *)
Fixpoint startsWith (s p : string) {struct p} : bool :=
  match p with
  | EmptyString => true
  | String b p' =>
      match s with
      | String a s' => Ascii.eqb a b && startsWith s' p'
      | EmptyString => false
      end
  end.
Arguments startsWith : simpl never.

(** [s.slice(n)] for [n >= 0]. *)
Fixpoint slice (n : nat) (s : string) : string :=
  match n, s with
  | O, _ => s
  | S n', String _ r => slice n' r
  | S _, EmptyString => EmptyString
  end.

(** [s.split(sep)] for a separator of one character. *)
Fixpoint split (sep : ascii) (s : string) : list string :=
  match s with
  | EmptyString => [EmptyString]
  | String c r =>
      if Ascii.eqb c sep then EmptyString :: split sep r
      else match split sep r with
           | h :: t => String c h :: t
           | [] => [String c EmptyString]
           end
  end.

(** [s.replace(/ab/g, c)]: every occurrence of the two characters [a b],
    found from left to right, becomes [c]. *)
Fixpoint replace2 (a b c : ascii) (s : string) : string :=
  match s with
  | EmptyString => EmptyString
  | String x t =>
      if Ascii.eqb x a then
        match t with
        | String y r =>
            if Ascii.eqb y b then String c (replace2 a b c r)
            else String x (replace2 a b c t)
        | EmptyString => String x EmptyString
        end
      else String x (replace2 a b c t)
  end.

(** [[...s]]: the characters of a string, each as a string. *)
Fixpoint characters (s : string) : list json :=
  match s with
  | EmptyString => []
  | String c r => JStr (String c EmptyString) :: characters r
  end.

(** [a.join(sep)] on strings. *)
Definition join (sep : string) (l : list string) : string := String.concat sep l.

(** ** Results

    A call returns a value, throws a [TypeError], or finds the call stack
    exhausted: the [RangeError] of the engine. *)

Inductive result (A : Type) : Type :=
| Ok (a : A)
| Throw
| OutOfFuel.
Arguments Ok {A} a.
Arguments Throw {A}.
Arguments OutOfFuel {A}.

Definition bind {A B : Type} (r : result A) (k : A -> result B) : result B :=
  match r with
  | Ok a => k a
  | Throw => Throw
  | OutOfFuel => OutOfFuel
  end.

Notation "x <- r ;; k" := (bind r (fun x => k))
  (at level 61, r at next level, right associativity).

(** [l.map(f)] when [f] may fail: the elements are visited in order. *)
Fixpoint mapM {A B : Type} (f : A -> result B) (l : list A) : result (list B) :=
  match l with
  | [] => Ok []
  | x :: r => y <- f x ;; ys <- mapM f r ;; Ok (y :: ys)
  end.

(** ** The schema resolver *)

Section Resolver.
Context {rt : JsRuntime}.

(** [String(v)].  Inside [Array.prototype.join] an element that is [null]
    prints as the empty string. *)
Fixpoint ToString (v : json) : string :=
  match v with
  | JNull => "null"
  | JBool true => "true"
  | JBool false => "false"
  | JNum n => Number_toString n
  | JStr s => s
  | JArr l =>
      join "," (map (fun x => match x with JNull => "" | _ => ToString x end) l)
  | JObj _ => "[object Object]"
  | JHost h => Host_toString h
  end.

(** The number a value is compared as. *)
Definition ToNumber (v : option json) : number :=
  match v with
  | None => S754_nan
  | Some JNull | Some (JBool false) => S754_zero false
  | Some (JBool true) => S754_finite false 1 0
  | Some (JNum n) => n
  | Some (JStr s) => String_toNumber s
  | Some (JArr l) => String_toNumber (ToString (JArr l))
  | Some (JObj ms) => String_toNumber (ToString (JObj ms))
  | Some (JHost h) => String_toNumber (ToString (JHost h))
  end.

(** [v.length > 0] for a truthy [v]: the length of an array or a string,
    otherwise the own member [length] compared as a number. *)
Definition length_gt0 (v : option json) : bool :=
  match v with
  | Some (JArr l) => Nat.ltb 0 (List.length l)
  | Some (JStr s) => Nat.ltb 0 (String.length s)
  | _ => number_gt0 (ToNumber (field v "length"))
  end.

(** [v && v.length > 0]. *)
Definition nonEmpty (v : option json) : bool := truthy v && length_gt0 v.

(** *** resolvePointer *)

(** [part.replace(/~1/g, '/').replace(/~0/g, '~')]. *)
Definition unescape (part : string) : string :=
  replace2 "~" "0" "~" (replace2 "~" "1" "/" part).

(** [ref.slice(2).split('/').map(...)]. *)
Definition pointerParts (ref : string) : list string :=
  map unescape (split "/" (slice 2 ref)).

(** [typeof v === 'object'], which [null] and a prototype object satisfy
    and a function does not. *)
Definition typeofObject (v : option json) : bool :=
  match v with
  | Some JNull | Some (JArr _) | Some (JObj _)
  | Some (JHost (HostPrototype _)) => true
  | _ => false
  end.

(** The loop of [resolvePointer]: [part in record] and [record[part]] find
    the members that [record] inherits as well as its own. *)
Fixpoint walk (current : option json) (parts : list string) : option json :=
  match parts with
  | [] => current
  | part :: rest =>
      if negb (truthy current) || negb (typeofObject current) then None
      else match getOf current part with
           | None => None
           | Some next => walk (Some next) rest
           end
  end.

Definition resolvePointer (rootSchema : json) (ref : string) : option json :=
  if negb (startsWith ref "#/") then None
  else walk (Some rootSchema) (pointerParts ref).

(** *** mergeSchemas *)

(** The own enumerable properties that [{...v}] copies. *)
Definition ownEntries (v : option json) : list (string * json) :=
  match v with
  | Some (JObj ms) => ms
  | Some (JArr l) =>
      map (fun ix => (string_of_nat (fst ix), snd ix))
          (combine (seq 0 (List.length l)) l)
  | Some (JStr s) =>
      map (fun ix => (string_of_nat (fst ix), snd ix))
          (combine (seq 0 (String.length s)) (characters s))
  | _ => []
  end.

(** [{ ...a, ...b }]. *)
Definition spread (a b : option json) : list (string * json) :=
  fold_left (fun acc kv => assign (fst kv) (snd kv) acc)
            (ownEntries a ++ ownEntries b) [].

(** [[...v]] for a truthy [v]; [None] when [v] is not iterable.
    [Array.prototype] and [String.prototype] are empty sequences. *)
Definition iterate (v : option json) : option (list json) :=
  match v with
  | Some (JArr l) => Some l
  | Some (JStr s) => Some (characters s)
  | Some (JHost (HostPrototype KArray))
  | Some (JHost (HostPrototype KString)) => Some []
  | _ => None
  end.

(** The five statements of the loop of [mergeSchemas]; [merged] holds the
    own properties of the object under construction. *)
Definition mergeType (merged : list (string * json)) (schema : json)
  : list (string * json) :=
  match member schema "type" with
  | Some type => if truthy (Some type) then assign "type" type merged else merged
  | None => merged
  end.

Definition mergeProperties (merged : list (string * json)) (schema : json)
  : list (string * json) :=
  if truthy (member schema "properties")
  then assign "properties"
         (JObj (spread (lookup "properties" merged) (member schema "properties")))
         merged
  else merged.

Definition mergeRequired (merged : list (string * json)) (schema : json)
  : result (list (string * json)) :=
  if truthy (member schema "required")
  then
    let previous :=
      match lookup "required" merged with
      | Some r => Some r
      | None => Some (JArr [])
      end in
    match iterate previous, iterate (member schema "required") with
    | Some old, Some new =>
        Ok (assign "required" (JArr (Set_from (old ++ new))) merged)
    | _, _ => Throw
    end
  else Ok merged.

Definition mergeItems (merged : list (string * json)) (schema : json)
  : list (string * json) :=
  match member schema "items" with
  | Some items => if truthy (Some items) then assign "items" items merged else merged
  | None => merged
  end.

Definition mergeAdditionalProperties (merged : list (string * json))
    (schema : json) : list (string * json) :=
  match member schema "additionalProperties" with
  | Some additionalProperties =>
      assign "additionalProperties" additionalProperties merged
  | None => merged
  end.

(** The body of the loop. *)
Definition mergeStep (merged : list (string * json)) (schema : json)
  : result (list (string * json)) :=
  if negb (truthy (Some schema)) then Ok merged
  else
    let merged := mergeType merged schema in
    let merged := mergeProperties merged schema in
    merged <- mergeRequired merged schema ;;
    let merged := mergeItems merged schema in
    Ok (mergeAdditionalProperties merged schema).

Fixpoint mergeLoop (merged : list (string * json)) (schemas : list json)
  : result (list (string * json)) :=
  match schemas with
  | [] => Ok merged
  | schema :: rest => merged' <- mergeStep merged schema ;; mergeLoop merged' rest
  end.

Definition mergeSchemas (schemas : list json) : result (option json) :=
  match schemas with
  | [] => Ok None
  | _ => merged <- mergeLoop [] schemas ;; Ok (Some (JObj merged))
  end.

(** *** resolveSchemaNode *)

(** The identity of the node a pointer resolves to: its location in the
    root schema, the list of the keys that lead to it.  ([Set] compares a
    primitive value by value and a built-in value by its own identity; a
    truthy value of these kinds resolves to itself whether the set holds it
    or not, so the difference cannot be observed.) *)
Definition location : Type := list string.

Definition location_eqb (a b : location) : bool :=
  if list_eq_dec string_dec a b then true else false.

(** [seen.has(resolved)]. *)
Definition Set_has (seen : list location) (l : location) : bool :=
  existsb (location_eqb l) seen.

(** [l.filter(Boolean)]. *)
Fixpoint filterBoolean (l : list (option json)) : list json :=
  match l with
  | [] => []
  | Some v :: r => if truthy (Some v) then v :: filterBoolean r else filterBoolean r
  | None :: r => filterBoolean r
  end.

(** [schema.$ref && typeof schema.$ref === 'string']. *)
Definition hasRef (schema : option json) : bool :=
  truthy (field schema "$ref") && isString (field schema "$ref").

(** [fuel] is the number of nested calls that the call stack has room for:
    each recursive call of the source is a call with one less. *)
Fixpoint resolveSchemaNode (fuel : nat) (schema : option json)
    (rootSchema : json) (seen : list location) : result (option json) :=
  match fuel with
  | O => OutOfFuel
  | S fuel =>
      if negb (truthy schema) then Ok None
      else if hasRef schema then
        match field schema "$ref" with
        | Some (JStr ref) =>
            if negb (startsWith ref "#") then Ok None
            else
              let resolved := resolvePointer rootSchema ref in
              if negb (truthy resolved) || Set_has seen (pointerParts ref)
              then Ok resolved
              else resolveSchemaNode fuel resolved rootSchema
                     (pointerParts ref :: seen)
        | _ => Ok None
        end
      else if nonEmpty (field schema "allOf") then
        match field schema "allOf" with
        | Some (JArr entries) =>
            branches <- mapM (fun entry =>
                          resolveSchemaNode fuel (Some entry) rootSchema [])
                        entries ;;
            mergeSchemas (filterBoolean branches)
        | _ => Throw
        end
      else if nonEmpty (field schema "oneOf") then
        match field schema "oneOf" with
        | Some oneOf => resolveSchemaNode fuel (at_index oneOf 0) rootSchema seen
        | None => Ok None
        end
      else if nonEmpty (field schema "anyOf") then
        match field schema "anyOf" with
        | Some anyOf => resolveSchemaNode fuel (at_index anyOf 0) rootSchema seen
        | None => Ok None
        end
      else Ok schema
  end.

End Resolver.

(** ** Documents and diagnostics *)

(** The node kinds of [jsonc-parser]. *)
Inductive NodeType : Type :=
| TObject | TArray | TProperty | TString | TNumber | TBoolean | TNull.

(** A node of the parse tree: [type], [value], [offset], [length] and
    [children]; [value] and [children] may be [undefined]. *)
Unset Elimination Schemes.
Inductive Node : Type :=
| mkNode (type : NodeType) (value : option json) (offset length : Z)
         (children : option (list Node)).
Set Elimination Schemes.

Definition node_type (n : Node) : NodeType :=
  match n with mkNode t _ _ _ _ => t end.
Definition node_value (n : Node) : option json :=
  match n with mkNode _ v _ _ _ => v end.
Definition node_offset (n : Node) : Z :=
  match n with mkNode _ _ o _ _ => o end.
Definition node_length (n : Node) : Z :=
  match n with mkNode _ _ _ l _ => l end.
Definition node_children (n : Node) : option (list Node) :=
  match n with mkNode _ _ _ _ c => c end.

(** The editor's side: positions, ranges and the document, of which the
    engine only calls [positionAt]. *)
Record Position : Type := { line : Z; character : Z }.

Record Range : Type := { range_start : Position; range_end : Position }.

Record TextDocument : Type := { positionAt : Z -> Position }.

Inductive DiagnosticSeverity : Type :=
| SeverityError | SeverityWarning | SeverityInformation | SeverityHint.

(** The double quote of the message templates. *)
Definition dquote : string := String (ascii_of_nat 34) EmptyString.

Record Diagnostic : Type := {
  range : Range;
  message : string;
  severity : DiagnosticSeverity
}.

Record SchemaMapping : Type := { pattern : string; schemaPath : string }.

Record ExtensionConfig : Type := {
  schemaMappings : list SchemaMapping;
  showUnknownProperties : bool;
  enableDiagnostics : bool
}.

Definition toRange (document : TextDocument) (start end_ : Z) : Range :=
  {| range_start := positionAt document start;
     range_end := positionAt document end_ |}.

Definition createUnknownPropertyDiagnostic (keyNode : Node) (key : string)
    (document : TextDocument) : Diagnostic :=
  {| range := toRange document (node_offset keyNode)
                (node_offset keyNode + node_length keyNode);
     message := "Unknown property " ++ dquote ++ key ++ dquote ++ " (not in schema).";
     severity := SeverityWarning |}.

Definition createMissingRequiredDiagnostic (objectNode : Node) (key : string)
    (document : TextDocument) : Diagnostic :=
  let start := node_offset objectNode in
  {| range := toRange document start (start + 1);
     message := "Missing required property " ++ dquote ++ key ++ dquote ++ ".";
     severity := SeverityWarning |}.

(** ** The tree matcher *)

Section Matcher.
Context {rt : JsRuntime}.

Record PropertySchemaInfo : Type := {
  info_schema : option json;
  isKnown : bool
}.

(** [schema.properties[key]] finds the members that [properties] inherits
    as well as its own. *)
Definition getPropertySchemaInfo (schema : json) (key : string)
  : PropertySchemaInfo :=
  let properties := member schema "properties" in
  if truthy properties && truthy (getOf properties key) then
    {| info_schema := getOf properties key; isKnown := true |}
  else
    let additionalProperties := member schema "additionalProperties" in
    match additionalProperties with
    | Some (JBool true) | None => {| info_schema := None; isKnown := false |}
    | _ =>
        if truthy additionalProperties && typeofObject additionalProperties
        then {| info_schema := additionalProperties; isKnown := true |}
        else {| info_schema := None; isKnown := false |}
    end.

Definition resolveArrayItemSchema (items : option json) (index : nat)
  : option json :=
  if negb (truthy items) then None
  else match items with
       | Some (JArr l) =>
           match nth_error l index with
           | Some JNull | None =>
               match List.length l with
               | O => None
               | S last => nth_error l last
               end
           | Some entry => Some entry
           end
       | Some (JHost (HostPrototype KArray)) => None
       | _ => items
       end.

Definition toTypeArray (type : option json) : list json :=
  if negb (truthy type) then []
  else match type with
       | Some (JArr l) => l
       | Some (JHost (HostPrototype KArray)) => []
       | Some t => [t]
       | None => []
       end.

(** [types.includes(name)] for a string [name]. *)
Definition includes (types : list json) (name : string) : bool :=
  existsb (fun t => match t with JStr s => s =? name | _ => false end) types.

Definition isObjectSchema (schema : json) : bool :=
  let types := toTypeArray (member schema "type") in
  includes types "object" || truthy (member schema "properties").

Definition isArraySchema (schema : json) : bool :=
  let types := toTypeArray (member schema "type") in
  includes types "array" || truthy (member schema "items").

Definition getSchemaTypeCandidates (schema : json) : list json :=
  let types := toTypeArray (member schema "type") in
  match types with
  | [] =>
      if truthy (member schema "properties") || truthy (member schema "required")
      then [JStr "object"]
      else if truthy (member schema "items") then [JStr "array"]
      else types
  | _ => types
  end.

Definition isNodeTypeCompatible (node : Node) (schema : json) : bool :=
  let expected := getSchemaTypeCandidates schema in
  match expected with
  | [] => true
  | _ =>
      match node_type node with
      | TString => includes expected "string"
      | TNumber =>
          if includes expected "number" then true
          else if includes expected "integer" then
            match node_value node with
            | Some (JNum n) => Number_isInteger n
            | _ => false
            end
          else false
      | TBoolean => includes expected "boolean"
      | TNull => includes expected "null"
      | TObject => includes expected "object"
      | TArray => includes expected "array"
      | TProperty => true
      end
  end.

(** [a.join(sep)] on values. *)
Definition Array_join (sep : string) (a : list json) : string :=
  join sep (map (fun x => match x with JNull => "" | _ => ToString x end) a).

Definition createTypeMismatchDiagnostic (node : Node) (schema : json)
    (document : TextDocument) : Diagnostic :=
  let expected := getSchemaTypeCandidates schema in
  let expectedLabel :=
    match expected with
    | [] => "unknown"
    | _ => Array_join " | " expected
    end in
  {| range := toRange document (node_offset node)
                (node_offset node + node_length node);
     message := "Type mismatch: expected " ++ expectedLabel ++ ".";
     severity := SeverityWarning |}.

(** [new Set(names)] for strings: the names in the order of their first
    occurrence. *)
Fixpoint Set_add_names (names acc : list string) : list string :=
  match names with
  | [] => acc
  | x :: r =>
      if existsb (String.eqb x) acc then Set_add_names r acc
      else Set_add_names r (acc ++ [x])
  end.

(** [new Set((schema.required ?? []).map(item => String(item)))]. *)
Definition requiredSetOf (schema : json) : result (list string) :=
  match member schema "required" with
  | None | Some JNull => Ok []
  | Some (JArr l) => Ok (Set_add_names (map ToString l) [])
  | Some (JHost (HostPrototype KArray)) => Ok []
  | Some _ => Throw
  end.

Definition Set_has_key (keys : list string) (k : string) : bool :=
  existsb (String.eqb k) keys.

(** The state of the loop over the properties of an object: the sink and
    [presentKeys]. *)
Definition PropertyState : Type := (list Diagnostic * list string)%type.

Section Loops.
Variable visit : Node -> option json -> list Diagnostic -> result (list Diagnostic).
Variable resolvedSchema : json.
Variable document : TextDocument.
Variable config : ExtensionConfig.

(** The body of the loop over [node.children] of an object. *)
Definition visitProperty (propertyNode : Node) (st : PropertyState)
  : result PropertyState :=
  match propertyNode with
  | mkNode TProperty _ _ _ (Some (keyNode :: valueNode :: _)) =>
      match node_value keyNode with
      | Some (JStr key) =>
          if key =? "" then Ok st
          else if key =? "$schema" then Ok st
          else
            let presentKeys := key :: snd st in
            let info := getPropertySchemaInfo resolvedSchema key in
            if truthy (info_schema info) then
              diagnostics <- visit valueNode (info_schema info) (fst st) ;;
              Ok (diagnostics, presentKeys)
            else if showUnknownProperties config && negb (isKnown info) then
              Ok (fst st ++ [createUnknownPropertyDiagnostic keyNode key document],
                  presentKeys)
            else Ok (fst st, presentKeys)
      | _ => Ok st
      end
  | _ => Ok st
  end.

Fixpoint visitProperties (children : list Node) (st : PropertyState)
  : result PropertyState :=
  match children with
  | [] => Ok st
  | propertyNode :: rest =>
      st' <- visitProperty propertyNode st ;; visitProperties rest st'
  end.

(** The loop over the required names. *)
Fixpoint reportMissing (node : Node) (requiredSet presentKeys : list string)
    (diagnostics : list Diagnostic) : list Diagnostic :=
  match requiredSet with
  | [] => diagnostics
  | requiredKey :: rest =>
      if requiredKey =? "$schema" then
        reportMissing node rest presentKeys diagnostics
      else if negb (Set_has_key presentKeys requiredKey) then
        reportMissing node rest presentKeys
          (diagnostics ++ [createMissingRequiredDiagnostic node requiredKey document])
      else reportMissing node rest presentKeys diagnostics
  end.

(** The loop over the elements of an array, from [index] on. *)
Fixpoint visitElements (items : option json) (children : list Node)
    (index : nat) (diagnostics : list Diagnostic) : result (list Diagnostic) :=
  match children with
  | [] => Ok diagnostics
  | element :: rest =>
      let itemSchema := resolveArrayItemSchema items index in
      diagnostics' <-
        (if truthy itemSchema then visit element itemSchema diagnostics
         else Ok diagnostics) ;;
      visitElements items rest (S index) diagnostics'
  end.

End Loops.

Fixpoint visitNodeForDiagnostics (fuel : nat) (node : Node)
    (schema : option json) (rootSchema : json) (document : TextDocument)
    (diagnostics : list Diagnostic) (config : ExtensionConfig) {struct node}
  : result (list Diagnostic) :=
  if negb (truthy schema) then Ok diagnostics
  else
    resolved <- resolveSchemaNode fuel schema rootSchema [] ;;
    match resolved with
    | Some resolvedSchema =>
        if negb (truthy resolved) then Ok diagnostics
        else if negb (isNodeTypeCompatible node resolvedSchema) then
          Ok (diagnostics ++
              [createTypeMismatchDiagnostic node resolvedSchema document])
        else
          let visit := fun n s d =>
            visitNodeForDiagnostics fuel n s rootSchema document d config in
          match node with
          | mkNode TObject _ _ _ children =>
              if negb (isObjectSchema resolvedSchema) then Ok diagnostics
              else
                requiredSet <- requiredSetOf resolvedSchema ;;
                st <- match children with
                      | Some cs =>
                          visitProperties visit resolvedSchema document config
                            cs (diagnostics, [])
                      | None => Ok (diagnostics, [])
                      end ;;
                Ok (reportMissing document node requiredSet (snd st) (fst st))
          | mkNode TArray _ _ _ children =>
              if negb (isArraySchema resolvedSchema) then Ok diagnostics
              else match children with
                   | Some cs =>
                       visitElements visit (member resolvedSchema "items")
                         cs 0 diagnostics
                   | None => Ok diagnostics
                   end
          | _ => Ok diagnostics
          end
    | None => Ok diagnostics
    end.

Definition collectDiagnostics (fuel : nat) (root : Node) (schema : json)
    (document : TextDocument) (config : ExtensionConfig)
  : result (list Diagnostic) :=
  let diagnostics := [] in
  resolvedRoot <- resolveSchemaNode fuel (Some schema) schema [] ;;
  if negb (truthy resolvedRoot) then Ok diagnostics
  else visitNodeForDiagnostics fuel root resolvedRoot schema document
         diagnostics config.

End Matcher.

(** ** Locating and loading the schema

    What the editor and Node provide is a parameter of the functions that
    use it: the regular-expression engine ([RegExp_test]), the URIs of the
    editor and the [path] module.  The file system is read by the caller:
    [loadSchema] receives what [stat] and [readFile] with [JSON.parse]
    returned.  A mapping is what its type says, a pattern and a schema
    path that are strings. *)

(** *** Paths and mapping patterns *)

(** [s.includes(c)] for a character [c]. *)
Fixpoint contains (c : ascii) (s : string) : bool :=
  match s with
  | EmptyString => false
  | String x r => Ascii.eqb x c || contains c r
  end.

(** [s.replace(/a/g, b)] for characters [a] and [b]. *)
Fixpoint replaceChar (a b : ascii) (s : string) : string :=
  match s with
  | EmptyString => EmptyString
  | String x r => String (if Ascii.eqb x a then b else x) (replaceChar a b r)
  end.

Definition toPosixPath (inputPath : string) : string :=
  replaceChar "\" "/" inputPath.

Definition normalizePattern (pattern : string) : string :=
  if contains "/" pattern then pattern else "**/" ++ pattern.

(** The characters of the class [[.+^${}()|[\]\\]]. *)
Definition isRegexSpecial (c : ascii) : bool :=
  existsb (Ascii.eqb c)
    ["."; "+"; "^"; "$"; "{"; "}"; "("; ")"; "|"; "["; "]"; "\"]%char.

(** [pattern.replace(/[.+^${}()|[\]\\]/g, '\\$&')]: a backslash before every
    character of the class. *)
Fixpoint escapeRegex (pattern : string) : string :=
  match pattern with
  | EmptyString => EmptyString
  | String c r =>
      if isRegexSpecial c then String "\" (String c (escapeRegex r))
      else String c (escapeRegex r)
  end.

(** [s.replace(/pat/g, by)] for a literal, non-empty [pat]: the occurrences
    are found from left to right and do not overlap; [skip] counts the
    characters of an occurrence that are still to be passed. *)
Fixpoint replaceAllFrom (pat by_ : string) (skip : nat) (s : string) : string :=
  match s with
  | EmptyString => EmptyString
  | String c r =>
      match skip with
      | S skip' => replaceAllFrom pat by_ skip' r
      | O =>
          if startsWith s pat
          then by_ ++ replaceAllFrom pat by_ (String.length pat - 1) r
          else String c (replaceAllFrom pat by_ 0 r)
      end
  end.

Definition replaceAll (pat by_ s : string) : string := replaceAllFrom pat by_ 0 s.

(** The three wildcard replacements of [matchesPattern], on the escaped
    pattern. *)
Definition wildcardsToRegex (escaped : string) : string :=
  replaceAll "\?" "." (replaceAll "\*" "[^/]*" (replaceAll "\*\*" ".*" escaped)).

(** The source of the regular expression [matchesPattern] compiles. *)
Definition patternRegexSource (pattern : string) : string :=
  "^" ++ wildcardsToRegex (escapeRegex pattern) ++ "$".

Section Mapping.
(** [new RegExp(source).test(target)]; the constructor throws on a source
    that is not a regular expression. *)
Variable RegExp_test : string -> string -> result bool.

Definition matchesPattern (target pattern : string) : result bool :=
  RegExp_test (patternRegexSource pattern) target.

(** The loop of [findSchemaMapping]. *)
Fixpoint findSchemaMappingIn (relativePath : string)
    (mappings : list SchemaMapping) : result (option string) :=
  match mappings with
  | [] => Ok None
  | mapping :: rest =>
      if (pattern mapping =? "") || (schemaPath mapping =? "")
      then findSchemaMappingIn relativePath rest
      else
        matched <- matchesPattern relativePath (normalizePattern (pattern mapping)) ;;
        if matched then Ok (Some (schemaPath mapping))
        else findSchemaMappingIn relativePath rest
  end.

(** [findSchemaMapping]; [asRelativePath] is what
    [vscode.workspace.asRelativePath(document.uri, false)] returned. *)
Definition findSchemaMapping (asRelativePath : string)
    (mappings : list SchemaMapping) : result (option string) :=
  match mappings with
  | [] => Ok None
  | _ => findSchemaMappingIn (toPosixPath asRelativePath) mappings
  end.

End Mapping.

(** *** The [$schema] of the document *)

(** The loop of [findTopLevelSchemaId]. *)
Fixpoint findSchemaIdIn (children : list Node) : option string :=
  match children with
  | [] => None
  | propertyNode :: rest =>
      match propertyNode with
      | mkNode TProperty _ _ _ (Some (keyNode :: valueNode :: _)) =>
          match node_value keyNode, node_type valueNode, node_value valueNode with
          | Some (JStr key), TString, Some (JStr id) =>
              if key =? "$schema" then Some id else findSchemaIdIn rest
          | _, _, _ => findSchemaIdIn rest
          end
      | _ => findSchemaIdIn rest
      end
  end.

Definition findTopLevelSchemaId (root : Node) : option string :=
  match node_type root, node_children root with
  | TObject, Some children => findSchemaIdIn children
  | _, _ => None
  end.

(** *** The location of the schema *)

Definition isAsciiLetter (c : ascii) : bool :=
  let n := nat_of_ascii c in
  (Nat.leb 65 n && Nat.leb n 90) || (Nat.leb 97 n && Nat.leb n 122).

(** The class [[a-z0-9+.-]] under the flag [i]. *)
Definition isSchemeChar (c : ascii) : bool :=
  let n := nat_of_ascii c in
  isAsciiLetter c || (Nat.leb 48 n && Nat.leb n 57) ||
  Ascii.eqb c "+" || Ascii.eqb c "." || Ascii.eqb c "-".

(** [[a-z0-9+.-]*:\/\/] at the start of [s]. *)
Fixpoint restOfScheme (s : string) : bool :=
  match s with
  | EmptyString => false
  | String c r => if isSchemeChar c then restOfScheme r else startsWith s "://"
  end.

(** [/^[a-z][a-z0-9+.-]*:\/\//i.test(schemaId)]. *)
Definition hasUrlScheme (schemaId : string) : bool :=
  match schemaId with
  | String c r => isAsciiLetter c && restOfScheme r
  | EmptyString => false
  end.

Inductive Base : Type := BaseWorkspace | BaseDocument.

Section Location.
(** The editor's URIs and Node's [path] module. *)
Variable Uri : Type.
Variable Uri_parse : string -> Uri.
Variable Uri_file : string -> Uri.
Variable Uri_joinPath : Uri -> string -> Uri.
Variable path_isAbsolute : string -> bool.
Variable path_dirname : string -> string.
Variable path_join : string -> string -> string.

(** What [resolveSchemaUri] reads of the document: [document.uri.fsPath]
    and the folder [vscode.workspace.getWorkspaceFolder(document.uri)]
    returned. *)
Record DocumentLocation : Type := {
  fsPath : string;
  workspaceFolder : option Uri
}.

Definition resolveSchemaUri (document : DocumentLocation) (schemaId : string)
    (base : Base) : option Uri :=
  if startsWith schemaId "file://" then Some (Uri_parse schemaId)
  else if hasUrlScheme schemaId then None
  else if path_isAbsolute schemaId then Some (Uri_file schemaId)
  else match base with
       | BaseDocument =>
           let documentDir := path_dirname (fsPath document) in
           Some (Uri_file (path_join documentDir schemaId))
       | BaseWorkspace =>
           match workspaceFolder document with
           | None => None
           | Some folder => Some (Uri_joinPath folder schemaId)
           end
       end.

End Location.

(** *** The schema cache *)

(** [===] on numbers. *)
Definition number_strict_eq (a b : number) : bool :=
  match a, b with
  | S754_nan, _ | _, S754_nan => false
  | _, _ => number_eqb a b
  end.

Record CachedSchema : Type := { mtime : number; cached_schema : json }.

(** The [Map] from the text of a URI to its entry. *)
Definition SchemaCache : Type := list (string * CachedSchema).

Fixpoint Map_get (key : string) (cache : SchemaCache) : option CachedSchema :=
  match cache with
  | [] => None
  | (k, v) :: r => if k =? key then Some v else Map_get key r
  end.

Fixpoint Map_set (key : string) (value : CachedSchema) (cache : SchemaCache)
  : SchemaCache :=
  match cache with
  | [] => [(key, value)]
  | (k, v) :: r =>
      if k =? key then (key, value) :: r else (k, v) :: Map_set key value r
  end.

(** [loadSchema] on the cache it is given.  [cacheKey] is [uri.toString()];
    [stat] is the modification time [vscode.workspace.fs.stat] reported and
    [content] the value [JSON.parse] made of the file, each [None] when the
    call threw.  The result is the returned schema and the cache after the
    call. *)
Definition loadSchema (schemaCache : SchemaCache) (cacheKey : string)
    (stat : option number) (content : option json)
  : option json * SchemaCache :=
  match stat with
  | None => (None, schemaCache)
  | Some stat_mtime =>
      match Map_get cacheKey schemaCache with
      | Some cached =>
          if number_strict_eq (mtime cached) stat_mtime
          then (Some (cached_schema cached), schemaCache)
          else match content with
               | None => (None, schemaCache)
               | Some schema =>
                   (Some schema,
                    Map_set cacheKey
                      {| mtime := stat_mtime; cached_schema := schema |}
                      schemaCache)
               end
      | None =>
          match content with
          | None => (None, schemaCache)
          | Some schema =>
              (Some schema,
               Map_set cacheKey
                 {| mtime := stat_mtime; cached_schema := schema |}
                 schemaCache)
          end
      end
  end.

(** *** The schema of a document *)

Section Locating.
Variable RegExp_test : string -> string -> result bool.
Variable Uri : Type.
Variable Uri_parse : string -> Uri.
Variable Uri_file : string -> Uri.
Variable Uri_joinPath : Uri -> string -> Uri.
Variable path_isAbsolute : string -> bool.
Variable path_dirname : string -> string.
Variable path_join : string -> string -> string.

(** [resolveSchemaUriForDocument]; [config] is what [getConfig] returned and
    [asRelativePath] what [vscode.workspace.asRelativePath] returned. *)
Definition resolveSchemaUriForDocument (document : DocumentLocation Uri)
    (asRelativePath : string) (config : ExtensionConfig) (root : Node)
  : result (option Uri) :=
  mappingPath <- findSchemaMapping RegExp_test asRelativePath
                   (schemaMappings config) ;;
  let schemaId :=
    match mappingPath with
    | Some p => Some p
    | None => findTopLevelSchemaId root
    end in
  match schemaId with
  | None => Ok None
  | Some schemaId =>
      if schemaId =? "" then Ok None
      else if match mappingPath with
              | Some p => negb (p =? "")
              | None => false
              end
      then Ok (resolveSchemaUri Uri Uri_parse Uri_file Uri_joinPath
                 path_isAbsolute path_dirname path_join
                 document schemaId BaseWorkspace)
      else Ok (resolveSchemaUri Uri Uri_parse Uri_file Uri_joinPath
                 path_isAbsolute path_dirname path_join
                 document schemaId BaseDocument)
  end.

End Locating.

(** ** Notions used by the statements and the proofs *)

(** A statement that holds whatever the two number conversions are. *)
Definition every_runtime (P : JsRuntime -> Prop) : Prop := forall rt, P rt.

(** The decoded value of a document node is a mathematical integer: it is a
    finite number whose real value is in Z. *)
Definition isMathematicalInteger (value : option json) : Prop :=
  exists n q z,
    value = Some (JNum n) /\ number_value n = Some q /\ (q == inject_Z z)%Q.

(** The names a missing-required diagnostic is reported for. *)
Definition missingKeys (requiredSet presentKeys : list string) : list string :=
  filter (fun k => negb (k =? "$schema") && negb (Set_has_key presentKeys k))
         requiredSet.

(** A document of one line: the position of an offset is that column. *)
Definition oneLineDocument : TextDocument :=
  {| positionAt := fun offset => {| line := 0; character := offset |} |}.

Definition defaultConfig : ExtensionConfig :=
  {| schemaMappings := []; showUnknownProperties := true;
     enableDiagnostics := true |}.

(** A property pair whose key is the reserved name [$schema]. *)
Definition isSchemaProperty (propertyNode : Node) : bool :=
  match propertyNode with
  | mkNode TProperty _ _ _ (Some (keyNode :: _ :: _)) =>
      match node_value keyNode with
      | Some (JStr key) => key =? "$schema"
      | _ => false
      end
  | _ => false
  end.

(** An object node without its [$schema] properties. *)
Definition withoutSchemaProperty (node : Node) : Node :=
  match node with
  | mkNode TObject value offset length (Some children) =>
      mkNode TObject value offset length
        (Some (filter (fun p => negb (isSchemaProperty p)) children))
  | _ => node
  end.

(** [additionalProperties] is absent, [true] or [false]. *)
Definition isPermissive (additionalProperties : option json) : bool :=
  match additionalProperties with
  | None | Some (JBool _) => true
  | _ => false
  end.

(** Two objects with the same members, [additionalProperties] apart. *)
Definition sameConstraints (ms1 ms2 : list (string * json)) : Prop :=
  forall k, k <> "additionalProperties" -> lookup k ms1 = lookup k ms2.

(** The names of [required], when it is an array. *)
Definition requiredOf (schema : json) : list json :=
  match member schema "required" with
  | Some (JArr l) => l
  | _ => []
  end.

Definition allStrings (l : list json) : Prop :=
  Forall (fun x => isString (Some x) = true) l.

(** [required] is absent or an array of strings, as the type [SchemaNode]
    has it. *)
Definition wellTypedRequired (schema : json) : Prop :=
  match member schema "required" with
  | None => True
  | Some (JArr l) => allStrings l
  | Some _ => False
  end.

(** The branch sets the field [k]: to a truthy value ([type], [items]), or
    to any value ([additionalProperties]). *)
Definition specifiesTruthy (k : string) (branch : json) : bool :=
  truthy (member branch k).

Definition specifiesDefined (k : string) (branch : json) : bool :=
  match member branch k with
  | Some _ => true
  | None => false
  end.

(** The value of [k] in the last branch that specifies it. *)
Definition lastSpecified (specifies : json -> bool) (k : string)
    (branches : list json) : option json :=
  fold_left (fun found branch => if specifies branch then member branch k else found)
            branches None.

(** The number of values in a value. *)
Fixpoint size (v : json) : nat :=
  match v with
  | JArr l =>
      S ((fix sum (l : list json) : nat :=
            match l with [] => 0 | x :: r => size x + sum r end) l)
  | JObj ms =>
      S ((fix sum (ms : list (string * json)) : nat :=
            match ms with [] => 0 | (_, x) :: r => size x + sum r end) ms)
  | _ => 1
  end.

(** No object of the value has a member [allOf]. *)
Fixpoint allOfFree (v : json) : bool :=
  match v with
  | JArr l =>
      (fix all (l : list json) : bool :=
         match l with [] => true | x :: r => allOfFree x && all r end) l
  | JObj ms =>
      (fix all (ms : list (string * json)) : bool :=
         match ms with
         | [] => true
         | (k, x) :: r => negb (k =? "allOf") && allOfFree x && all r
         end) ms
  | _ => true
  end.

(** The strings that are members of the objects of a value; the [$ref]
    strings are among them. *)
Fixpoint refs (v : json) : list string :=
  match v with
  | JArr l =>
      (fix all (l : list json) : list string :=
         match l with [] => [] | x :: r => refs x ++ all r end) l
  | JObj ms =>
      (fix all (ms : list (string * json)) : list string :=
         match ms with
         | [] => []
         | (k, x) :: r =>
             match x with JStr s => [s] | _ => [] end ++ refs x ++ all r
         end) ms
  | _ => []
  end.

(** [x] is a part of [v], or a primitive read off it. *)
Definition below (x v : json) : Prop :=
  size x <= size v /\ incl (refs x) (refs v) /\
  (allOfFree v = true -> allOfFree x = true).

(** The references that the visited set does not hold yet. *)
Definition unseen (R : list string) (seen : list location) : nat :=
  List.length (filter (fun ref => negb (Set_has seen (pointerParts ref))) R).

Definition optsize (c : option json) : nat :=
  match c with Some v => size v | None => 0 end.

(** A node that has no [allOf] and whose strings are among [R]. *)
Definition withinRefs (R : list string) (c : option json) : Prop :=
  forall v, c = Some v -> allOfFree v = true /\ incl (refs v) R.

(** A chain of [n + 1] references without a cycle: the root schema has the
    members [x], [xx], ..., each a [$ref] to the next, and the last one a
    concrete schema; the start node refers to the first. *)
Fixpoint chainKey (i : nat) : string :=
  match i with
  | O => "x"
  | S j => String "x" (chainKey j)
  end.

Definition chainLeaf : json := JObj [("type", JStr "string")].

Definition chainLink (i : nat) : json :=
  JObj [("$ref", JStr ("#/" ++ chainKey i))].

Fixpoint chainMembers (links i : nat) : list (string * json) :=
  match links with
  | O => [(chainKey i, chainLeaf)]
  | S links' => (chainKey i, chainLink (S i)) :: chainMembers links' (S i)
  end.

Definition chainRoot (n : nat) : json := JObj (chainMembers n 0).

(** The visited set when the resolver reaches link [j]. *)
Fixpoint chainSeen (j : nat) : list location :=
  match j with
  | O => []
  | S j' => [chainKey j'] :: chainSeen j'
  end.

(** A schema whose [allOf] refers to itself. *)
Definition loopRoot : json :=
  JObj [("definitions",
         JObj [("x", JObj [("allOf", JArr [JObj [("$ref", JStr "#/definitions/x")]])])])].

(** *** Notions for the mappings, the location and the cache *)

(** A mapping that [findSchemaMapping] does not skip. *)
Definition usable (mapping : SchemaMapping) : bool :=
  negb (pattern mapping =? "") && negb (schemaPath mapping =? "").

Fixpoint allChars (p : ascii -> bool) (s : string) : bool :=
  match s with
  | EmptyString => true
  | String c r => p c && allChars p r
  end.

(** The name of a URL scheme: a letter, then letters, digits, [+], [.]
    and [-]. *)
Definition isScheme (scheme : string) : bool :=
  match scheme with
  | String c r => isAsciiLetter c && allChars isSchemeChar r
  | EmptyString => false
  end.

(** *** Notions for the matcher *)

(** The number of nodes of a parse tree. *)
Fixpoint node_size (n : Node) : nat :=
  match n with
  | mkNode _ _ _ _ None => 1
  | mkNode _ _ _ _ (Some children) =>
      S ((fix sum (l : list Node) : nat :=
            match l with [] => 0 | c :: r => node_size c + sum r end) children)
  end.

Fixpoint nodes_size (l : list Node) : nat :=
  match l with
  | [] => 0
  | c :: r => node_size c + nodes_size r
  end.

(** The depth of a parse tree: the number of nodes on its longest branch,
    which bounds the nested calls of the matcher. *)
Fixpoint node_depth (n : Node) : nat :=
  match n with
  | mkNode _ _ _ _ None => 1
  | mkNode _ _ _ _ (Some children) =>
      S ((fix deepest (l : list Node) : nat :=
            match l with
            | [] => 0
            | c :: r => Nat.max (node_depth c) (deepest r)
            end) children)
  end.

(** The diagnostic is an unknown-property diagnostic. *)
Definition isUnknownProperty (d : Diagnostic) : bool :=
  startsWith (message d) "Unknown property ".

Definition notUnknownProperty (d : Diagnostic) : bool := negb (isUnknownProperty d).

(** The configuration with [showUnknownProperties] switched off. *)
Definition hideUnknownProperties (config : ExtensionConfig) : ExtensionConfig :=
  {| schemaMappings := schemaMappings config;
     showUnknownProperties := false;
     enableDiagnostics := enableDiagnostics config |}.

(** A run that started with the sink [d], told from the run that started
    with the empty sink. *)
Definition appended (d : list Diagnostic) (r : result (list Diagnostic))
  : result (list Diagnostic) :=
  added <- r ;; Ok (d ++ added).

Definition appendedState (d : list Diagnostic) (r : result PropertyState)
  : result PropertyState :=
  st <- r ;; Ok (d ++ fst st, snd st).

(** A run without its unknown-property diagnostics. *)
Definition kept (r : result (list Diagnostic)) : result (list Diagnostic) :=
  found <- r ;; Ok (filter notUnknownProperty found).

Definition keptState (r : result PropertyState) : result PropertyState :=
  st <- r ;; Ok (filter notUnknownProperty (fst st), snd st).

(** The key that a member of an object node adds to [presentKeys]. *)
Definition propertyKey (propertyNode : Node) : option string :=
  match propertyNode with
  | mkNode TProperty _ _ _ (Some (keyNode :: _ :: _)) =>
      match node_value keyNode with
      | Some (JStr key) =>
          if (key =? "") || (key =? "$schema") then None else Some key
      | _ => None
      end
  | _ => None
  end.

(** The keys of the members of an object node, in the order of the document. *)
Definition documentKeys (children : option (list Node)) : list string :=
  flat_map (fun p => match propertyKey p with Some k => [k] | None => [] end)
           (match children with Some cs => cs | None => [] end).

(** The names of [required], as the matcher reads them. *)
Definition requiredNames {rt : JsRuntime} (schema : json) : list string :=
  match member schema "required" with
  | Some (JArr l) => map ToString l
  | _ => []
  end.

(** The document [{"a": 1}] and a schema that requires [a] and [b]. *)
Definition documentA : Node :=
  mkNode TObject None 0 8
    (Some [mkNode TProperty None 1 6
             (Some [mkNode TString (Some (JStr "a")) 1 3 None;
                    mkNode TNumber (Some (JNum (S754_finite false 1 0))) 6 1 None])]).

Definition requiresAB : json :=
  JObj [("type", JStr "object"); ("required", JArr [JStr "a"; JStr "b"])].

(** The diagnostics of the parts of a node, one part after the other. *)
Fixpoint concatM {A : Type} (f : A -> result (list Diagnostic)) (l : list A)
  : result (list Diagnostic) :=
  match l with
  | [] => Ok []
  | x :: r => a <- f x ;; b <- concatM f r ;; Ok (a ++ b)
  end.

(** The diagnostics of one member of an object: what the body of the loop
    adds to an empty sink. *)
Definition memberDiagnostics {rt : JsRuntime}
    (visit : Node -> option json -> list Diagnostic -> result (list Diagnostic))
    (resolvedSchema : json) (document : TextDocument) (config : ExtensionConfig)
    (propertyNode : Node) : result (list Diagnostic) :=
  st <- visitProperty visit resolvedSchema document config propertyNode ([], []) ;;
  Ok (fst st).

(** The diagnostics of the element at [index] of an array. *)
Definition elementDiagnostics
    (visit : Node -> option json -> list Diagnostic -> result (list Diagnostic))
    (items : option json) (indexed : nat * Node) : result (list Diagnostic) :=
  let itemSchema := resolveArrayItemSchema items (fst indexed) in
  if truthy itemSchema then visit (snd indexed) itemSchema [] else Ok [].

(** The elements of [[1, 2, "x"]] and a schema of arrays of integers. *)
Definition elements12x : list Node :=
  [mkNode TNumber (Some (JNum (S754_finite false 1 0))) 1 1 None;
   mkNode TNumber (Some (JNum (S754_finite false 1 1))) 4 1 None;
   mkNode TString (Some (JStr "x")) 7 3 None].

Definition integerItems : json :=
  JObj [("type", JStr "array"); ("items", JObj [("type", JStr "integer")])].

(** The nodes of a parse tree: the node and the nodes below it. *)
Fixpoint nodesOf (n : Node) : list Node :=
  n :: match n with
       | mkNode _ _ _ _ (Some children) =>
           (fix all (l : list Node) : list Node :=
              match l with [] => [] | c :: r => nodesOf c ++ all r end) children
       | mkNode _ _ _ _ None => []
       end.

(** The diagnostic is one of the three kinds, on a node of the tree: a type
    mismatch on a node, a missing required property on an object, or, when
    the configuration shows them, an unknown property on the node of a
    key. *)
Definition reportedOn {rt : JsRuntime} (document : TextDocument)
    (config : ExtensionConfig) (root : Node) (d : Diagnostic) : Prop :=
  exists n, In n (nodesOf root) /\
    ((exists schema, d = createTypeMismatchDiagnostic n schema document) \/
     (exists key, node_type n = TObject /\
                  d = createMissingRequiredDiagnostic n key document) \/
     (exists key, showUnknownProperties config = true /\
                  node_value n = Some (JStr key) /\
                  d = createUnknownPropertyDiagnostic n key document)).

(** *** Notions for the resolver *)

(** The escaping of a key in a JSON pointer (RFC 6901): [~] is written [~0]
    and [/] is written [~1]. *)
Fixpoint escapePart (part : string) : string :=
  match part with
  | EmptyString => EmptyString
  | String c r =>
      if Ascii.eqb c "~" then String "~" (String "0" (escapePart r))
      else if Ascii.eqb c "/" then String "~" (String "1" (escapePart r))
      else String c (escapePart r)
  end.

(** The pointer that names the keys [parts], from the root down. *)
Definition pointerTo (parts : list string) : string :=
  ("#/" ++ join "/" (map escapePart parts))%string.

(** [~] written as [~0], nothing else changed. *)
Fixpoint tildes (part : string) : string :=
  match part with
  | EmptyString => EmptyString
  | String c r =>
      if Ascii.eqb c "~" then String "~" (String "0" (tildes r))
      else String c (tildes r)
  end.

(** The members a merged schema can have. *)
Definition mergedKeys : list string :=
  ["type"; "properties"; "required"; "items"; "additionalProperties"].

(** The schema of the property [k] in a branch of an [allOf]. *)
Definition propertyIn (k : string) (branch : json) : option json :=
  if truthy (member branch "properties")
  then lookup k (ownEntries (member branch "properties"))
  else None.

(** The schema of the property [k] in the last branch that has it. *)
Definition lastPropertyIn (k : string) (branches : list json) (found : option json)
  : option json :=
  fold_left (fun found branch =>
               match propertyIn k branch with Some v => Some v | None => found end)
            branches found.

(** The keys of [properties] in a branch are distinct, as in every value
    that [JSON.parse] returns. *)
Definition distinctProperties (branch : json) : Prop :=
  NoDup (map fst (ownEntries (member branch "properties"))).

(** What the loop of [mergeSchemas] keeps true of [merged.properties]. *)
Definition propertiesAre (merged : list (string * json))
    (found : string -> option json) : Prop :=
  (lookup "properties" merged = None \/
   exists ms, lookup "properties" merged = Some (JObj ms)) /\
  NoDup (map fst (ownEntries (lookup "properties" merged))) /\
  forall k, lookup k (ownEntries (lookup "properties" merged)) = found k.

(** Two branches that both declare the property [a]. *)
Definition branchesA : list json :=
  [JObj [("properties", JObj [("a", JObj [("type", JStr "string")])])];
   JObj [("properties", JObj [("a", JObj [("type", JStr "number")]);
                              ("b", JObj [])])]].

(** The room on the call stack, in nested calls of [resolveSchemaNode],
    that the resolver does not exhaust on a root schema without [allOf]. *)
Definition budget (rootSchema : json) : nat :=
  S (size rootSchema + List.length (refs rootSchema) * S (size rootSchema)).

(** The schema is a part of the root schema. *)
Definition inRoot (rootSchema : json) (schema : option json) : Prop :=
  forall v, schema = Some v -> below v rootSchema.

(** *** Parts, ranks and chains *)

(** The values that occur in a value: the value and the parts of its
    elements and members. *)
Fixpoint partsOf (v : json) : list json :=
  v :: match v with
       | JArr l =>
           (fix all (l : list json) : list json :=
              match l with [] => [] | x :: r => partsOf x ++ all r end) l
       | JObj ms =>
           (fix all (ms : list (string * json)) : list json :=
              match ms with [] => [] | (_, x) :: r => partsOf x ++ all r end) ms
       | _ => []
       end.

(** A value that is neither an object nor an array of the file: the
    resolver returns it as it is. *)
Definition primitive (v : json) : bool :=
  match v with JObj _ | JArr _ => false | _ => true end.

(** No [allOf] leads back to the node that holds it: the rank of a node is
    lowered by a step to an entry of its [allOf] and is not raised by a step
    to the target of its [$ref] or to the first entry of its [oneOf] or
    [anyOf]. *)
Definition ranked {rt : JsRuntime} (rank : json -> nat) (rootSchema v : json)
  : Prop :=
  (forall entries entry,
     member v "allOf" = Some (JArr entries) -> In entry entries ->
     rank entry < rank v) /\
  (forall ref target,
     member v "$ref" = Some (JStr ref) ->
     resolvePointer rootSchema ref = Some target ->
     rank target <= rank v) /\
  (forall composition first,
     member v "oneOf" = Some composition \/ member v "anyOf" = Some composition ->
     at_index composition 0 = Some first ->
     rank first <= rank v).

Definition allOfAcyclic {rt : JsRuntime} (rank : json -> nat)
    (rootSchema schema : json) : Prop :=
  forall v, In v (partsOf rootSchema ++ partsOf schema) ->
            ranked rank rootSchema v.

(** The number of nested calls that resolution makes at most: between two
    steps into an [allOf], and in all. *)
Definition chainStep (rootSchema schema : json) : nat :=
  S (size rootSchema + size schema +
     List.length (refs rootSchema ++ refs schema) * S (size rootSchema)).

Definition depthBound (rank : json -> nat) (rootSchema schema : json) : nat :=
  S (S (rank schema) * chainStep rootSchema schema).

(** A schema that resolves to itself: it is truthy and has no [$ref] and no
    composition keyword to follow. *)
Definition concrete {rt : JsRuntime} (v : json) : bool :=
  truthy (Some v) && negb (hasRef (Some v)) &&
  negb (nonEmpty (member v "allOf")) && negb (nonEmpty (member v "oneOf")) &&
  negb (nonEmpty (member v "anyOf")).

(** A chain of references from the node [schema]: each link is the [$ref]
    of a node and the node it points to in the root schema. *)
Fixpoint isChain {rt : JsRuntime} (rootSchema schema : json)
    (links : list (string * json)) : Prop :=
  match links with
  | [] => True
  | (ref, target) :: rest =>
      member schema "$ref" = Some (JStr ref) /\
      resolvePointer rootSchema ref = Some target /\
      truthy (Some target) = true /\
      isChain rootSchema target rest
  end.

Definition chainEnd (schema : json) (links : list (string * json)) : json :=
  List.last (map snd links) schema.

(** The chain has no cycle: no two links point to the same location, and
    none to a location that was visited before. *)
Definition nonCyclic (seen : list location) (links : list (string * json))
  : Prop :=
  NoDup (map (fun link => pointerParts (fst link)) links) /\
  Forall (fun link => Set_has seen (pointerParts (fst link)) = false) links.

(** A schema whose [allOf] refers to a definition. *)
Definition refInAllOf : json :=
  JObj [("definitions", JObj [("a", JObj [("type", JStr "string")])]);
        ("allOf", JArr [JObj [("$ref", JStr "#/definitions/a")]])].

(** The rank of a node: 1 with a member [allOf], 0 without. *)
Definition allOfRank (v : json) : nat :=
  match member v "allOf" with Some _ => 1 | None => 0 end.

(** A chain of two references. *)
Definition twoLinks : json :=
  JObj [("a", JObj [("$ref", JStr "#/b")]);
        ("b", JObj [("type", JStr "number")])].

(** [[{"type": "string"}, {"type": "number"}]] as [items], and the elements
    of [["a", "b"]]. *)
Definition stringThenNumber : json :=
  JObj [("type", JStr "array");
        ("items", JArr [JObj [("type", JStr "string")];
                        JObj [("type", JStr "number")]])].

Definition elementsAB : list Node :=
  [mkNode TString (Some (JStr "a")) 1 3 None;
   mkNode TString (Some (JStr "b")) 6 3 None].

(** A document of two properties: the empty key with the value 1 and
    [$schema] with the value [s]. *)
Definition skippedKeys : Node :=
  mkNode TObject None 0 24
    (Some [mkNode TProperty None 1 5
             (Some [mkNode TString (Some (JStr "")) 1 2 None;
                    mkNode TNumber (Some (JNum (S754_finite false 1 0))) 5 1 None]);
           mkNode TProperty None 8 14
             (Some [mkNode TString (Some (JStr "$schema")) 8 9 None;
                    mkNode TString (Some (JStr "s")) 19 3 None])]).

(** [required] can be spread: it is falsy, an array or a string. *)
Definition requiredIterable (branch : json) : bool :=
  negb (truthy (member branch "required")) ||
  match iterate (member branch "required") with
  | Some _ => true
  | None => false
  end.

(** An [allOf] of one branch, beside [properties]. *)
Definition allOfBesideProperties : json :=
  JObj [("allOf", JArr [JObj [("type", JStr "object"); ("enum", JArr [JNull])]]);
        ("properties", JObj [("a", JObj [])])].

(** * Properties *)

(** ** Numbers *)

Lemma two_power_Q (k : Z) : (0 <= k)%Z -> ((2 # 1) ^ k == inject_Z (2 ^ k))%Q.
Proof.
  intros Hk. rewrite Zpower_Qpower by assumption. reflexivity.
Qed.

Lemma scaled_integer (a e z : Z) :
  (e < 0)%Z ->
  (inject_Z a * (2 # 1) ^ e == inject_Z z)%Q <-> (a = z * 2 ^ (- e))%Z.
Proof.
  intros He.
  assert (Hp : (0 < 2 ^ (- e))%Z) by (apply Z.pow_pos_nonneg; lia).
  assert (Hnz : ~ (inject_Z (2 ^ (- e)) == 0)%Q).
  { unfold Qeq; simpl. lia. }
  assert (Hpow : ((2 # 1) ^ e == / inject_Z (2 ^ (- e)))%Q).
  { rewrite <- two_power_Q by lia. rewrite <- Qpower_opp.
    rewrite Z.opp_involutive. reflexivity. }
  rewrite Hpow. split; intros H.
  - assert (H' : (inject_Z a == inject_Z z * inject_Z (2 ^ (- e)))%Q).
    { rewrite <- H. field. exact Hnz. }
    rewrite <- inject_Z_mult in H'. exact (proj1 (inject_Z_injective _ _) H').
  - subst a. rewrite inject_Z_mult. field. exact Hnz.
Qed.

(** [Number.isInteger] holds exactly of the numbers whose value is in Z. *)
Lemma Number_isInteger_spec (n : number) :
  Number_isInteger n = true <->
  exists q z, number_value n = Some q /\ (q == inject_Z z)%Q.
Proof.
  destruct n as [s | s | | s m e]; simpl.
  - split; [intros _ | reflexivity]. exists 0%Q, 0%Z. split; reflexivity.
  - split; [discriminate | intros (q & z & H & _); discriminate].
  - split; [discriminate | intros (q & z & H & _); discriminate].
  - set (a := if s then Z.neg m else Z.pos m).
    destruct (Z.leb_spec 0 e) as [He | He].
    + split; [intros _ | reflexivity].
      exists (inject_Z a * (2 # 1) ^ e)%Q, (a * 2 ^ e)%Z. split; [reflexivity |].
      rewrite two_power_Q by assumption. rewrite inject_Z_mult. reflexivity.
    + rewrite Z.eqb_eq. split.
      * intros Hmod. apply Z.mod_divide in Hmod; [| lia].
        destruct Hmod as [c Hc].
        exists (inject_Z a * (2 # 1) ^ e)%Q, (if s then - c else c)%Z.
        split; [reflexivity |]. apply scaled_integer; [lia |].
        subst a. destruct s; lia.
      * intros (q & z & Hq & Hz). injection Hq as <-.
        apply scaled_integer in Hz; [| lia].
        apply Z.mod_divide; [lia |].
        exists (if s then - z else z)%Z. subst a. destruct s; lia.
Qed.

(** ** Type compatibility of numbers *)

(** C6. A number node matched against a schema whose expected types hold
    [integer] but not [number] is compatible exactly when its decoded value
    is a mathematical integer; the kind [number] alone never suffices. *)
Theorem integer_compatibility (node : Node) (schema : json) :
  node_type node = TNumber ->
  includes (getSchemaTypeCandidates schema) "integer" = true ->
  includes (getSchemaTypeCandidates schema) "number" = false ->
  isNodeTypeCompatible node schema = true <->
  isMathematicalInteger (node_value node).
Proof.
  intros Hkind Hint Hnum. unfold isNodeTypeCompatible.
  destruct (getSchemaTypeCandidates schema) as [| t ts] eqn:Hexp;
    [discriminate Hint |].
  rewrite Hkind, Hnum, Hint. unfold isMathematicalInteger.
  destruct (node_value node) as [[| b | n | s | l | ms | h] |];
    try (split; [discriminate | intros (n' & q & z & H & _); discriminate]).
  rewrite Number_isInteger_spec. split.
  - intros (q & z & Hq & Hz). exists n, q, z. auto.
  - intros (n' & q & z & Hn & Hq & Hz). injection Hn as <-. exists q, z. auto.
Qed.

(** The number 6 is compatible with [integer] and 1.5 is not. *)
Lemma integer_compatibility_witness :
  (isNodeTypeCompatible
     (mkNode TNumber (Some (JNum (S754_finite false 3 1))) 0 1 None)
     (JObj [("type", JStr "integer")]) = true <->
   isMathematicalInteger (Some (JNum (S754_finite false 3 1)))) /\
  (isNodeTypeCompatible
     (mkNode TNumber (Some (JNum (S754_finite false 3 (-1)))) 0 3 None)
     (JObj [("type", JStr "integer")]) = true <->
   isMathematicalInteger (Some (JNum (S754_finite false 3 (-1))))).
Proof.
  split.
  - apply (integer_compatibility
             (mkNode TNumber (Some (JNum (S754_finite false 3 1))) 0 1 None)
             (JObj [("type", JStr "integer")])); reflexivity.
  - apply (integer_compatibility
             (mkNode TNumber (Some (JNum (S754_finite false 3 (-1)))) 0 3 None)
             (JObj [("type", JStr "integer")])); reflexivity.
Defined.

(** ** Ranges of the diagnostics *)

Lemma reportMissing_spec (document : TextDocument) (node : Node)
    (requiredSet presentKeys : list string) (diagnostics : list Diagnostic) :
  reportMissing document node requiredSet presentKeys diagnostics =
  diagnostics ++
  map (fun k => createMissingRequiredDiagnostic node k document)
      (missingKeys requiredSet presentKeys).
Proof.
  revert diagnostics.
  induction requiredSet as [| k rest IH]; intros diagnostics; simpl.
  - now rewrite app_nil_r.
  - destruct (k =? "$schema"); simpl; [apply IH |].
    destruct (Set_has_key presentKeys k); simpl; [apply IH |].
    rewrite IH, <- app_assoc. reflexivity.
Qed.

(** C10. A missing-required diagnostic covers one character: from the start
    offset of the object node to that offset plus one, whatever the length of
    the node; and the matcher reports missing names of an object with that
    diagnostic only. *)
Theorem missing_required_range_one_character :
  (forall type value offset length children key document,
     range (createMissingRequiredDiagnostic
              (mkNode type value offset length children) key document) =
     {| range_start := positionAt document offset;
        range_end := positionAt document (offset + 1) |}) /\
  (forall document node requiredSet presentKeys diagnostics,
     reportMissing document node requiredSet presentKeys diagnostics =
     diagnostics ++
     map (fun k => createMissingRequiredDiagnostic node k document)
         (missingKeys requiredSet presentKeys)).
Proof.
  split.
  - reflexivity.
  - apply reportMissing_spec.
Qed.

(** An object of 20 characters at offset 5: the diagnostic covers the
    offsets 5 to 6. *)
Lemma missing_required_range_one_character_witness :
  range (createMissingRequiredDiagnostic (mkNode TObject None 5 20 None)
           "name" oneLineDocument) =
  {| range_start := {| line := 0; character := 5 |};
     range_end := {| line := 0; character := 6 |} |}.
Proof.
  exact (proj1 missing_required_range_one_character TObject None 5%Z 20%Z None
           "name" oneLineDocument).
Defined.

(** ** Unfolding the matcher *)

Section MatcherFacts.
Context {rt : JsRuntime}.

Lemma resolveSchemaNode_falsy (fuel : nat) (schema : option json)
    (rootSchema : json) (seen : list location) :
  truthy schema = false ->
  resolveSchemaNode (S fuel) schema rootSchema seen = Ok None.
Proof.
  intros H. simpl. now rewrite H.
Qed.

Lemma resolveSchemaNode_truthy (fuel : nat) (schema : option json)
    (rootSchema : json) (seen : list location) (resolved : json) :
  resolveSchemaNode fuel schema rootSchema seen = Ok (Some resolved) ->
  truthy schema = true.
Proof.
  destruct fuel as [| fuel]; [discriminate |].
  destruct (truthy schema) eqn:H; [reflexivity |].
  rewrite resolveSchemaNode_falsy by assumption. discriminate.
Qed.

(** The matcher, one step. *)
Lemma visitNodeForDiagnostics_eq (fuel : nat) (node : Node)
    (schema : option json) (rootSchema : json) (document : TextDocument)
    (diagnostics : list Diagnostic) (config : ExtensionConfig) :
  visitNodeForDiagnostics fuel node schema rootSchema document diagnostics config =
  if negb (truthy schema) then Ok diagnostics
  else
    resolved <- resolveSchemaNode fuel schema rootSchema [] ;;
    match resolved with
    | Some resolvedSchema =>
        if negb (truthy resolved) then Ok diagnostics
        else if negb (isNodeTypeCompatible node resolvedSchema) then
          Ok (diagnostics ++
              [createTypeMismatchDiagnostic node resolvedSchema document])
        else
          let visit := fun n s d =>
            visitNodeForDiagnostics fuel n s rootSchema document d config in
          match node_type node with
          | TObject =>
              if negb (isObjectSchema resolvedSchema) then Ok diagnostics
              else
                requiredSet <- requiredSetOf resolvedSchema ;;
                st <- match node_children node with
                      | Some cs =>
                          visitProperties visit resolvedSchema document config
                            cs (diagnostics, [])
                      | None => Ok (diagnostics, [])
                      end ;;
                Ok (reportMissing document node requiredSet (snd st) (fst st))
          | TArray =>
              if negb (isArraySchema resolvedSchema) then Ok diagnostics
              else match node_children node with
                   | Some cs =>
                       visitElements visit (member resolvedSchema "items")
                         cs 0 diagnostics
                   | None => Ok diagnostics
                   end
          | _ => Ok diagnostics
          end
    | None => Ok diagnostics
    end.
Proof.
  destruct node as [[] value offset length children]; reflexivity.
Qed.

(** A schema that resolves to nothing leaves the sink as it is. *)
Lemma visit_absent (fuel : nat) (node : Node) (schema : option json)
    (rootSchema : json) (document : TextDocument)
    (diagnostics : list Diagnostic) (config : ExtensionConfig)
    (resolved : option json) :
  resolveSchemaNode fuel schema rootSchema [] = Ok resolved ->
  truthy resolved = false ->
  visitNodeForDiagnostics fuel node schema rootSchema document diagnostics config =
  Ok diagnostics.
Proof.
  intros Hres Hfalsy. rewrite visitNodeForDiagnostics_eq, Hres. simpl.
  destruct (truthy schema); simpl; [| reflexivity].
  destruct resolved as [r |]; [| reflexivity]. now rewrite Hfalsy.
Qed.

(** An incompatible node adds one type-mismatch diagnostic and nothing
    else. *)
Lemma visit_mismatch (fuel : nat) (node : Node) (schema : option json)
    (rootSchema : json) (document : TextDocument)
    (diagnostics : list Diagnostic) (config : ExtensionConfig)
    (resolvedSchema : json) :
  resolveSchemaNode fuel schema rootSchema [] = Ok (Some resolvedSchema) ->
  truthy (Some resolvedSchema) = true ->
  isNodeTypeCompatible node resolvedSchema = false ->
  visitNodeForDiagnostics fuel node schema rootSchema document diagnostics config =
  Ok (diagnostics ++ [createTypeMismatchDiagnostic node resolvedSchema document]).
Proof.
  intros Hres Htruthy Hcompat. rewrite visitNodeForDiagnostics_eq.
  rewrite (resolveSchemaNode_truthy _ _ _ _ _ Hres), Hres.
  unfold bind. cbv iota beta. rewrite Htruthy, Hcompat. reflexivity.
Qed.

Lemma Array_join_strings (sep : string) (names : list string) :
  Array_join sep (map JStr names) = join sep names.
Proof.
  unfold Array_join. rewrite map_map. simpl. now rewrite map_id.
Qed.

End MatcherFacts.

(** ** The text of the type-mismatch diagnostic *)




(** ** The item schema of an array element *)

Lemma nth_error_last (l : list json) (last : nat) :
  List.length l = S last -> nth_error l last = Some (List.last l JNull).
Proof.
  revert last. induction l as [| x r IH]; intros last Hlen; [discriminate |].
  destruct r as [| y r'].
  - injection Hlen as <-. reflexivity.
  - destruct last as [| last']; [discriminate |].
    change (nth_error r' _) with (nth_error r' last').
    change (List.last (x :: y :: r') JNull) with (List.last (y :: r') JNull).
    apply IH. simpl in *. lia.
Qed.

(** ** The reserved key [$schema] *)

Section ReservedKey.
Context {rt : JsRuntime}.

Lemma visitProperty_schema_property visit resolvedSchema document config
    (propertyNode : Node) (st : PropertyState) :
  isSchemaProperty propertyNode = true ->
  visitProperty visit resolvedSchema document config propertyNode st = Ok st.
Proof.
  destruct propertyNode as [[] value offset length [[| keyNode [| valueNode rest]] |]];
    try discriminate.
  simpl. destruct (node_value keyNode) as [[| b | n | key | l | ms | h] |];
    try discriminate.
  intros Hkey. rewrite Hkey. now destruct (key =? "").
Qed.

Lemma visitProperties_without_schema visit resolvedSchema document config
    (children : list Node) (st : PropertyState) :
  visitProperties visit resolvedSchema document config
    (filter (fun p => negb (isSchemaProperty p)) children) st =
  visitProperties visit resolvedSchema document config children st.
Proof.
  revert st. induction children as [| p rest IH]; intros st; [reflexivity |].
  simpl. destruct (isSchemaProperty p) eqn:Hp; simpl.
  - rewrite visitProperty_schema_property by assumption. simpl. apply IH.
  - destruct (visitProperty visit resolvedSchema document config p st);
      simpl; auto.
Qed.

Lemma missingKeys_not_schema (requiredSet presentKeys : list string) :
  ~ In "$schema" (missingKeys requiredSet presentKeys).
Proof.
  unfold missingKeys. intros Hin. apply filter_In in Hin.
  destruct Hin as [_ Hin]. discriminate Hin.
Qed.

End ReservedKey.

(** C8. A property named [$schema] produces no diagnostic: the loop over the
    properties leaves the sink and the set of present keys as they are, so
    the property is neither flagged unknown, nor validated, nor counted as
    present; the diagnostics of an object are those of the object without its
    [$schema] properties; and no missing-required diagnostic is reported for
    the name [$schema], also when [required] holds it. *)
Theorem schema_property_is_ignored {rt : JsRuntime} :
  (forall visit resolvedSchema document config value offset length
          keyType keyOffset keyLength keyChildren valueNode rest st,
     visitProperty visit resolvedSchema document config
       (mkNode TProperty value offset length
          (Some (mkNode keyType (Some (JStr "$schema")) keyOffset keyLength
                   keyChildren :: valueNode :: rest))) st = Ok st) /\
  (forall fuel node schema rootSchema document diagnostics config,
     visitNodeForDiagnostics fuel (withoutSchemaProperty node) schema
       rootSchema document diagnostics config =
     visitNodeForDiagnostics fuel node schema rootSchema document diagnostics
       config) /\
  (forall document node requiredSet presentKeys diagnostics,
     reportMissing document node requiredSet presentKeys diagnostics =
     diagnostics ++
     map (fun k => createMissingRequiredDiagnostic node k document)
         (missingKeys requiredSet presentKeys)) /\
  (forall requiredSet presentKeys,
     ~ In "$schema" (missingKeys requiredSet presentKeys)).
Proof.
  split; [| split; [| split]].
  - reflexivity.
  - intros fuel node schema rootSchema document diagnostics config.
    destruct node as [[] value offset length [children |]]; try reflexivity.
    rewrite !visitNodeForDiagnostics_eq.
    destruct (negb (truthy schema)); [reflexivity |].
    destruct (resolveSchemaNode fuel schema rootSchema []) as [[rs |] | |];
      try reflexivity.
    unfold bind. cbv beta iota zeta.
    destruct (negb (truthy (Some rs))); [reflexivity |].
    change (isNodeTypeCompatible
              (withoutSchemaProperty
                 (mkNode TObject value offset length (Some children))) rs)
      with (isNodeTypeCompatible
              (mkNode TObject value offset length (Some children)) rs).
    destruct (negb (isNodeTypeCompatible _ rs)); [reflexivity |].
    simpl node_type. cbv iota.
    destruct (negb (isObjectSchema rs)); [reflexivity |].
    destruct (requiredSetOf rs) as [requiredSet | |]; try reflexivity.
    simpl node_children. cbv iota.
    rewrite visitProperties_without_schema.
    destruct (visitProperties _ rs document config children (diagnostics, []))
      as [st | |]; try reflexivity.
    unfold bind. now rewrite !reportMissing_spec.
  - apply reportMissing_spec.
  - apply missingKeys_not_schema.
Qed.

(** The object [{"$schema": "s.json", "a": 1}] against a closed schema that
    requires [$schema] and [b]: the diagnostics are those of [{"a": 1}], and
    of the two required names only [b] is reported missing. *)
Lemma schema_property_is_ignored_witness :
  every_runtime (fun rt =>
    let reserved := mkNode TProperty None 1 19
                      (Some [mkNode TString (Some (JStr "$schema")) 1 9 None;
                             mkNode TString (Some (JStr "s.json")) 12 8 None]) in
    let a := mkNode TProperty None 22 6
               (Some [mkNode TString (Some (JStr "a")) 22 3 None;
                      mkNode TNumber (Some (JNum (S754_finite false 1 0))) 27 1 None]) in
    let schema := JObj [("type", JStr "object"); ("properties", JObj []);
                        ("required", JArr [JStr "$schema"; JStr "b"]);
                        ("additionalProperties", JBool false)] in
    visitNodeForDiagnostics 1
      (withoutSchemaProperty (mkNode TObject None 0 29 (Some [reserved; a])))
      (Some schema) schema oneLineDocument [] defaultConfig =
    visitNodeForDiagnostics 1 (mkNode TObject None 0 29 (Some [reserved; a]))
      (Some schema) schema oneLineDocument [] defaultConfig /\
    missingKeys ["$schema"; "b"] ["a"] = ["b"] /\
    ~ In "$schema" (missingKeys ["$schema"; "b"] ["a"])).
Proof.
  intros rt. cbv zeta.
  destruct (@schema_property_is_ignored rt) as (_ & Hsame & _ & Hnever).
  split; [apply Hsame |]. split; [reflexivity | apply Hnever].
Defined.

(** ** Facts about the resolver *)

Section ResolverFacts.
Context {rt : JsRuntime}.

Lemma lookup_assign_same (k : string) (v : json) (ms : list (string * json)) :
  lookup k (assign k v ms) = Some v.
Proof.
  induction ms as [| [k' v'] r IH]; simpl.
  - now rewrite String.eqb_refl.
  - destruct (k' =? k) eqn:Hk; simpl.
    + now rewrite String.eqb_refl.
    + now rewrite Hk.
Qed.

Lemma lookup_assign_other (k k' : string) (v : json) (ms : list (string * json)) :
  (k' =? k) = false -> lookup k (assign k' v ms) = lookup k ms.
Proof.
  intros Hne. induction ms as [| [k'' v''] r IH]; simpl.
  - now rewrite Hne.
  - destruct (k'' =? k') eqn:Hk; simpl.
    + apply String.eqb_eq in Hk. subst k''. now rewrite Hne.
    + now rewrite IH.
Qed.

(** Only an object has a member under a name that is neither [length] nor
    an index. *)
Lemma field_Some_object (schema : option json) (k : string) (v : json) :
  (k =? "length") = false -> index_of_key k = None ->
  field schema k = Some v -> exists ms, schema = Some (JObj ms).
Proof.
  intros Hlen Hidx Hfield.
  destruct schema as [[| b | n | s | l | ms | h] |]; simpl in Hfield;
    try discriminate; try (rewrite Hlen, Hidx in Hfield; discriminate).
  now exists ms.
Qed.

(** The resolver, one step. *)
Lemma resolveSchemaNode_eq (fuel : nat) (schema : option json)
    (rootSchema : json) (seen : list location) :
  resolveSchemaNode (S fuel) schema rootSchema seen =
  if negb (truthy schema) then Ok None
  else if hasRef schema then
    match field schema "$ref" with
    | Some (JStr ref) =>
        if negb (startsWith ref "#") then Ok None
        else
          let resolved := resolvePointer rootSchema ref in
          if negb (truthy resolved) || Set_has seen (pointerParts ref)
          then Ok resolved
          else resolveSchemaNode fuel resolved rootSchema
                 (pointerParts ref :: seen)
    | _ => Ok None
    end
  else if nonEmpty (field schema "allOf") then
    match field schema "allOf" with
    | Some (JArr entries) =>
        branches <- mapM (fun entry =>
                      resolveSchemaNode fuel (Some entry) rootSchema [])
                    entries ;;
        mergeSchemas (filterBoolean branches)
    | _ => Throw
    end
  else if nonEmpty (field schema "oneOf") then
    match field schema "oneOf" with
    | Some oneOf => resolveSchemaNode fuel (at_index oneOf 0) rootSchema seen
    | None => Ok None
    end
  else if nonEmpty (field schema "anyOf") then
    match field schema "anyOf" with
    | Some anyOf => resolveSchemaNode fuel (at_index anyOf 0) rootSchema seen
    | None => Ok None
    end
  else Ok schema.
Proof. reflexivity. Qed.

Lemma mapM_all_absent {A : Type} (f : A -> result (option json)) (l : list A) :
  (forall x, In x l -> exists r, f x = Ok r /\ truthy r = false) ->
  exists rs, mapM f l = Ok rs /\ filterBoolean rs = [].
Proof.
  induction l as [| x r IH]; intros Hall.
  - now exists [].
  - destruct (Hall x (or_introl eq_refl)) as (y & Hy & Hfalsy).
    destruct IH as (ys & Hys & Hnil).
    { intros z Hz. apply Hall. now right. }
    exists (y :: ys). split.
    + simpl. now rewrite Hy, Hys.
    + destruct y as [v |]; cbn [filterBoolean]; [| exact Hnil].
      now rewrite Hfalsy.
Qed.

(** A name that an object of the schema does not hold, as own member or
    from [Object.prototype]. *)
Lemma get_object_None (ms : list (string * json)) (key : string) :
  getOf (Some (JObj ms)) key = None <->
  lookup key ms = None /\ ~ In key objectPrototypeNames.
Proof.
  cbn [getOf]. unfold get. cbn [member kindOf].
  destruct (lookup key ms) as [x |]; [split; [discriminate | intros [H _]; discriminate] |].
  unfold inheritedMember, inherits. rewrite orb_false_r.
  destruct (existsb (String.eqb key) objectPrototypeNames) eqn:Hin.
  - apply existsb_exists in Hin. destruct Hin as (name & Hname & Heq).
    apply String.eqb_eq in Heq. subst name.
    destruct (key =? "__proto__"); split; try discriminate; intros [_ H];
      contradiction.
  - assert (Hnot : ~ In key objectPrototypeNames).
    { intros H. assert (Hex : existsb (String.eqb key) objectPrototypeNames = true).
      { apply existsb_exists. exists key. split; [exact H | apply String.eqb_refl]. }
      congruence. }
    destruct (String.eqb_spec key "__proto__") as [-> | _].
    + exfalso. apply Hnot. unfold objectPrototypeNames. cbn [In]. tauto.
    + split; auto.
Qed.

(** A pointer whose first key names no member of the root schema leads
    nowhere. *)
Lemma resolvePointer_no_member (ms : list (string * json)) (ref key : string)
    (rest : list string) :
  pointerParts ref = key :: rest ->
  lookup key ms = None -> ~ In key objectPrototypeNames ->
  resolvePointer (JObj ms) ref = None.
Proof.
  intros Hparts Hown Hinherited. unfold resolvePointer.
  destruct (negb (startsWith ref "#/")); [reflexivity |].
  rewrite Hparts. cbn [walk truthy typeofObject negb orb].
  now rewrite (proj2 (get_object_None ms key)).
Qed.

(** A [$ref] that does not start with [#] resolves to nothing. *)
Lemma resolve_remote_ref (fuel : nat) (schema : option json)
    (rootSchema : json) (seen : list location) (ref : string) :
  field schema "$ref" = Some (JStr ref) -> ref <> "" ->
  startsWith ref "#" = false ->
  resolveSchemaNode (S fuel) schema rootSchema seen = Ok None.
Proof.
  intros Href Hne Hremote. rewrite resolveSchemaNode_eq.
  destruct (field_Some_object schema "$ref" _ eq_refl eq_refl Href) as [ms ->].
  unfold hasRef. rewrite Href. simpl.
  destruct (ref =? "") eqn:He; [apply String.eqb_eq in He; contradiction |].
  simpl. now rewrite Hremote.
Qed.

(** A pointer that leads nowhere resolves to nothing. *)
Lemma resolve_dangling_ref (fuel : nat) (schema : option json)
    (rootSchema : json) (seen : list location) (ref : string) :
  field schema "$ref" = Some (JStr ref) ->
  startsWith ref "#" = true ->
  resolvePointer rootSchema ref = None ->
  resolveSchemaNode (S fuel) schema rootSchema seen = Ok None.
Proof.
  intros Href Hlocal Hdangling. rewrite resolveSchemaNode_eq.
  destruct (field_Some_object schema "$ref" _ eq_refl eq_refl Href) as [ms ->].
  unfold hasRef. rewrite Href. simpl.
  destruct (ref =? "") eqn:He.
  { apply String.eqb_eq in He. subst ref. discriminate. }
  simpl. rewrite Hlocal, Hdangling. reflexivity.
Qed.

(** An [allOf] whose branches all resolve to nothing resolves to nothing. *)
Lemma resolve_allOf_all_absent (fuel : nat) (schema : option json)
    (rootSchema : json) (seen : list location) (entries : list json) :
  hasRef schema = false ->
  field schema "allOf" = Some (JArr entries) -> entries <> [] ->
  (forall entry, In entry entries ->
     exists r, resolveSchemaNode fuel (Some entry) rootSchema [] = Ok r /\
               truthy r = false) ->
  resolveSchemaNode (S fuel) schema rootSchema seen = Ok None.
Proof.
  intros Href HallOf Hne Hall. rewrite resolveSchemaNode_eq.
  destruct (field_Some_object schema "allOf" _ eq_refl eq_refl HallOf) as [ms ->].
  rewrite Href, HallOf. simpl negb. cbv iota.
  destruct entries as [| e es]; [contradiction |].
  change (nonEmpty (Some (JArr (e :: es)))) with true. cbv iota.
  destruct (mapM_all_absent _ _ Hall) as (rs & Hrs & Hnil).
  rewrite Hrs. unfold bind. now rewrite Hnil.
Qed.

End ResolverFacts.

(** ** Unresolvable schemas *)

(** C9, as the code has it.  Resolution fails by returning nothing, never
    by throwing: when the [$ref] of the node is a string other than the empty
    one that is not fragment-local, when its pointer leads nowhere in the
    root schema (so when its first key names no member of the root schema),
    and when every branch of its [allOf] fails to resolve.  A node whose
    schema resolves to nothing (or to a falsy value) adds no diagnostic,
    whatever the node and its children are.  An empty [$ref] is no
    reference: a node that has one and no composition keyword resolves to
    itself. *)
Theorem unresolvable_schema_is_silent {rt : JsRuntime} :
  (forall fuel schema rootSchema seen ref,
     field schema "$ref" = Some (JStr ref) -> ref <> "" ->
     startsWith ref "#" = false ->
     resolveSchemaNode (S fuel) schema rootSchema seen = Ok None) /\
  (forall fuel schema rootSchema seen ref,
     field schema "$ref" = Some (JStr ref) ->
     startsWith ref "#" = true ->
     resolvePointer rootSchema ref = None ->
     resolveSchemaNode (S fuel) schema rootSchema seen = Ok None) /\
  (forall fuel schema ms seen ref key rest,
     field schema "$ref" = Some (JStr ref) ->
     startsWith ref "#" = true ->
     pointerParts ref = key :: rest ->
     lookup key ms = None -> ~ In key objectPrototypeNames ->
     resolveSchemaNode (S fuel) schema (JObj ms) seen = Ok None) /\
  (forall fuel schema rootSchema seen entries,
     hasRef schema = false ->
     field schema "allOf" = Some (JArr entries) -> entries <> [] ->
     (forall entry, In entry entries ->
        exists r, resolveSchemaNode fuel (Some entry) rootSchema [] = Ok r /\
                  truthy r = false) ->
     resolveSchemaNode (S fuel) schema rootSchema seen = Ok None) /\
  (forall fuel node schema rootSchema document diagnostics config resolved,
     resolveSchemaNode fuel schema rootSchema [] = Ok resolved ->
     truthy resolved = false ->
     visitNodeForDiagnostics fuel node schema rootSchema document diagnostics
       config = Ok diagnostics) /\
  (forall fuel ms rootSchema seen,
     lookup "$ref" ms = Some (JStr "") ->
     nonEmpty (lookup "allOf" ms) = false ->
     nonEmpty (lookup "oneOf" ms) = false ->
     nonEmpty (lookup "anyOf" ms) = false ->
     resolveSchemaNode (S fuel) (Some (JObj ms)) rootSchema seen =
     Ok (Some (JObj ms))).
Proof.
  split; [| split; [| split; [| split; [| split]]]].
  - intros. now apply resolve_remote_ref with (ref := ref).
  - intros. now apply resolve_dangling_ref with (ref := ref).
  - intros fuel schema ms seen ref key rest Href Hlocal Hparts Hown Hinherited.
    apply resolve_dangling_ref with (ref := ref); [assumption | assumption |].
    now apply resolvePointer_no_member with (key := key) (rest := rest).
  - intros. now apply resolve_allOf_all_absent with (entries := entries).
  - intros. now apply visit_absent with (resolved := resolved).
  - intros fuel ms rootSchema seen Href HallOf HoneOf HanyOf.
    rewrite resolveSchemaNode_eq. unfold hasRef. cbn [field member].
    rewrite Href, HallOf, HoneOf, HanyOf. reflexivity.
Qed.

(** A remote reference, two dangling pointers, an [allOf] of two such
    branches, an object matched against a dangling pointer, and an empty
    [$ref]. *)
Lemma unresolvable_schema_is_silent_witness :
  every_runtime (fun rt =>
    resolveSchemaNode 1 (Some (JObj [("$ref", JStr "other.json#/a")]))
      (JObj []) [] = Ok None /\
    resolveSchemaNode 1 (Some (JObj [("$ref", JStr "#/definitions/missing")]))
      (JObj [("definitions", JObj [])]) [] = Ok None /\
    resolveSchemaNode 1 (Some (JObj [("$ref", JStr "#/missing/a")]))
      (JObj [("definitions", JObj [])]) [] = Ok None /\
    resolveSchemaNode 2
      (Some (JObj [("allOf", JArr [JObj [("$ref", JStr "other.json")];
                                   JObj [("$ref", JStr "#/nowhere")]])]))
      (JObj []) [] = Ok None /\
    visitNodeForDiagnostics 1
      (mkNode TObject None 0 9
         (Some [mkNode TProperty None 1 7
                  (Some [mkNode TString (Some (JStr "a")) 1 3 None;
                         mkNode TNumber (Some (JNum (S754_finite false 1 0))) 6 1 None])]))
      (Some (JObj [("$ref", JStr "#/definitions/missing")]))
      (JObj [("definitions", JObj [])]) oneLineDocument [] defaultConfig =
    Ok [] /\
    resolveSchemaNode 1 (Some (JObj [("$ref", JStr ""); ("type", JStr "string")]))
      JNull [] =
    Ok (Some (JObj [("$ref", JStr ""); ("type", JStr "string")]))).
Proof.
  intros rt.
  destruct (@unresolvable_schema_is_silent rt)
    as (Hremote & Hdangling & Hmember & HallOf & Hvisit & Hempty).
  split; [| split; [| split; [| split; [| split]]]];
    [| | | | | apply Hempty; reflexivity].
  - apply (Hremote 0 _ _ _ "other.json#/a"); [reflexivity | discriminate | reflexivity].
  - apply (Hdangling 0 _ _ _ "#/definitions/missing"); reflexivity.
  - apply (Hmember 0 _ _ _ "#/missing/a" "missing" ["a"]);
      [reflexivity | reflexivity | reflexivity | reflexivity |].
    unfold objectPrototypeNames. cbn [In]. intuition discriminate.
  - apply (HallOf 1 _ _ _ [JObj [("$ref", JStr "other.json")];
                           JObj [("$ref", JStr "#/nowhere")]]);
      [reflexivity | reflexivity | discriminate |].
    intros entry [<- | [<- | []]]; exists None; split; reflexivity.
  - apply (Hvisit 1 _ _ _ _ _ _ None); reflexivity.
Defined.

(** C9, as the specification words it, fails: a [$ref] that is not
    fragment-local does not always resolve to nothing.  The empty string is
    no reference for the resolver: the node resolves to itself, and the
    matcher reports a number against its [type]. *)
Lemma empty_ref_is_no_reference :
  every_runtime (fun rt =>
    let schema := JObj [("$ref", JStr ""); ("type", JStr "string")] in
    let node := mkNode TNumber (Some (JNum (S754_finite false 1 0))) 0 1 None in
    startsWith "" "#" = false /\
    resolveSchemaNode 1 (Some schema) schema [] = Ok (Some schema) /\
    visitNodeForDiagnostics 1 node (Some schema) schema oneLineDocument []
      defaultConfig =
    Ok [createTypeMismatchDiagnostic node schema oneLineDocument]).
Proof. intros rt. cbv zeta. repeat split. Qed.

(** ** [oneOf] and [anyOf] *)

Section FirstBranch.
Context {rt : JsRuntime}.

Lemma resolve_oneOf_first (fuel : nat) (schema : option json)
    (rootSchema : json) (seen : list location) (first : json)
    (rest : list json) :
  hasRef schema = false ->
  nonEmpty (field schema "allOf") = false ->
  field schema "oneOf" = Some (JArr (first :: rest)) ->
  resolveSchemaNode (S fuel) schema rootSchema seen =
  resolveSchemaNode fuel (Some first) rootSchema seen.
Proof.
  intros Href HallOf HoneOf. rewrite resolveSchemaNode_eq.
  destruct (field_Some_object schema "oneOf" _ eq_refl eq_refl HoneOf) as [ms ->].
  rewrite Href, HallOf, HoneOf. reflexivity.
Qed.

Lemma resolve_anyOf_first (fuel : nat) (schema : option json)
    (rootSchema : json) (seen : list location) (first : json)
    (rest : list json) :
  hasRef schema = false ->
  nonEmpty (field schema "allOf") = false ->
  nonEmpty (field schema "oneOf") = false ->
  field schema "anyOf" = Some (JArr (first :: rest)) ->
  resolveSchemaNode (S fuel) schema rootSchema seen =
  resolveSchemaNode fuel (Some first) rootSchema seen.
Proof.
  intros Href HallOf HoneOf HanyOf. rewrite resolveSchemaNode_eq.
  destruct (field_Some_object schema "anyOf" _ eq_refl eq_refl HanyOf) as [ms ->].
  rewrite Href, HallOf, HoneOf, HanyOf. reflexivity.
Qed.

(** The entries after the first never matter, whatever else the node
    carries. *)
Lemma resolve_ignores_later_entries (k : string) (fuel : nat)
    (ms : list (string * json)) (rootSchema : json) (seen : list location)
    (first : json) (rest rest' : list json) :
  k = "oneOf" \/ k = "anyOf" ->
  resolveSchemaNode fuel (Some (JObj (assign k (JArr (first :: rest)) ms)))
    rootSchema seen =
  resolveSchemaNode fuel (Some (JObj (assign k (JArr (first :: rest')) ms)))
    rootSchema seen.
Proof.
  intros Hk. destruct fuel as [| fuel]; [reflexivity |].
  rewrite !resolveSchemaNode_eq. unfold hasRef, field, member.
  destruct Hk as [-> | ->].
  - rewrite !(lookup_assign_other "$ref" "oneOf") by reflexivity.
    rewrite !(lookup_assign_other "allOf" "oneOf") by reflexivity.
    rewrite !lookup_assign_same.
    change (nonEmpty (Some (JArr (first :: rest)))) with true.
    change (nonEmpty (Some (JArr (first :: rest')))) with true.
    reflexivity.
  - rewrite !(lookup_assign_other "$ref" "anyOf") by reflexivity.
    rewrite !(lookup_assign_other "allOf" "anyOf") by reflexivity.
    rewrite !(lookup_assign_other "oneOf" "anyOf") by reflexivity.
    rewrite !lookup_assign_same.
    change (nonEmpty (Some (JArr (first :: rest)))) with true.
    change (nonEmpty (Some (JArr (first :: rest')))) with true.
    reflexivity.
Qed.

End FirstBranch.

(** C3. A node with a non-empty [oneOf] resolves as its first entry does,
    and so does a node with a non-empty [anyOf] (when no [$ref], [allOf] or,
    for [anyOf], [oneOf] takes precedence); when the first entry resolves to
    nothing, so does the node; the entries after the first never change the
    result.  A number matched against [oneOf: [{type: string}, {type:
    number}]] gets one type-mismatch diagnostic that names [string], though
    the second entry alone accepts it. *)
Theorem oneOf_anyOf_first_entry_only {rt : JsRuntime} :
  (forall fuel schema rootSchema seen first rest,
     hasRef schema = false ->
     nonEmpty (field schema "allOf") = false ->
     field schema "oneOf" = Some (JArr (first :: rest)) ->
     resolveSchemaNode (S fuel) schema rootSchema seen =
     resolveSchemaNode fuel (Some first) rootSchema seen) /\
  (forall fuel schema rootSchema seen first rest,
     hasRef schema = false ->
     nonEmpty (field schema "allOf") = false ->
     nonEmpty (field schema "oneOf") = false ->
     field schema "anyOf" = Some (JArr (first :: rest)) ->
     resolveSchemaNode (S fuel) schema rootSchema seen =
     resolveSchemaNode fuel (Some first) rootSchema seen) /\
  (forall k fuel ms rootSchema seen first rest rest',
     k = "oneOf" \/ k = "anyOf" ->
     resolveSchemaNode fuel (Some (JObj (assign k (JArr (first :: rest)) ms)))
       rootSchema seen =
     resolveSchemaNode fuel (Some (JObj (assign k (JArr (first :: rest')) ms)))
       rootSchema seen) /\
  (exists d,
     collectDiagnostics 2
       (mkNode TNumber (Some (JNum (S754_finite false 1 0))) 0 1 None)
       (JObj [("oneOf", JArr [JObj [("type", JStr "string")];
                              JObj [("type", JStr "number")]])])
       oneLineDocument defaultConfig = Ok [d] /\
     message d = "Type mismatch: expected string." /\
     collectDiagnostics 2
       (mkNode TNumber (Some (JNum (S754_finite false 1 0))) 0 1 None)
       (JObj [("type", JStr "number")]) oneLineDocument defaultConfig = Ok []).
Proof.
  split; [| split; [| split]].
  - intros. now apply resolve_oneOf_first with (rest := rest).
  - intros. now apply resolve_anyOf_first with (rest := rest).
  - intros. now apply resolve_ignores_later_entries.
  - eexists. split; [reflexivity |]. split; reflexivity.
Qed.

(** A first entry that fails to resolve: the second entry, which would
    resolve, is not tried. *)
Lemma oneOf_anyOf_first_entry_only_witness :
  every_runtime (fun rt =>
    resolveSchemaNode 2
      (Some (JObj [("oneOf", JArr [JObj [("$ref", JStr "remote.json")];
                                   JObj [("type", JStr "number")]])]))
      (JObj []) [] =
    resolveSchemaNode 1 (Some (JObj [("$ref", JStr "remote.json")])) (JObj []) [] /\
    resolveSchemaNode 1 (Some (JObj [("$ref", JStr "remote.json")])) (JObj []) [] =
    Ok None /\
    resolveSchemaNode 2
      (Some (JObj [("anyOf", JArr [JObj [("$ref", JStr "remote.json")];
                                   JObj [("type", JStr "number")]])]))
      (JObj []) [] =
    resolveSchemaNode 1 (Some (JObj [("$ref", JStr "remote.json")])) (JObj []) []).
Proof.
  intros rt.
  destruct (@oneOf_anyOf_first_entry_only rt) as (HoneOf & HanyOf & _).
  split; [| split].
  - apply (HoneOf 1 _ _ _ _ [JObj [("type", JStr "number")]]); reflexivity.
  - reflexivity.
  - apply (HanyOf 1 _ _ _ _ [JObj [("type", JStr "number")]]); reflexivity.
Defined.

(** ** [additionalProperties: false] *)

Section AdditionalProperties.
Context {rt : JsRuntime}.

Lemma getPropertySchemaInfo_permissive (ms1 ms2 : list (string * json))
    (key : string) :
  sameConstraints ms1 ms2 ->
  isPermissive (lookup "additionalProperties" ms1) = true ->
  isPermissive (lookup "additionalProperties" ms2) = true ->
  getPropertySchemaInfo (JObj ms1) key = getPropertySchemaInfo (JObj ms2) key.
Proof.
  intros Hsame H1 H2. unfold getPropertySchemaInfo, member.
  rewrite (Hsame "properties") by discriminate.
  destruct (truthy (lookup "properties" ms2) &&
            truthy (getOf (lookup "properties" ms2) key)); [reflexivity |].
  destruct (lookup "additionalProperties" ms1) as [[| [] | | | | |] |];
    try discriminate;
    destruct (lookup "additionalProperties" ms2) as [[| [] | | | | |] |];
    try discriminate; reflexivity.
Qed.

Lemma visitProperties_permissive visit document config
    (ms1 ms2 : list (string * json)) (children : list Node)
    (st : PropertyState) :
  sameConstraints ms1 ms2 ->
  isPermissive (lookup "additionalProperties" ms1) = true ->
  isPermissive (lookup "additionalProperties" ms2) = true ->
  visitProperties visit (JObj ms1) document config children st =
  visitProperties visit (JObj ms2) document config children st.
Proof.
  intros Hsame H1 H2. revert st.
  induction children as [| p rest IH]; intros st; [reflexivity |].
  simpl.
  assert (Hp : visitProperty visit (JObj ms1) document config p st =
               visitProperty visit (JObj ms2) document config p st).
  { unfold visitProperty.
    destruct p as [[] value offset length [[| keyNode [| valueNode tl]] |]];
      try reflexivity.
    destruct (node_value keyNode) as [[| b | n | key | l | ms | h] |];
      try reflexivity.
    now rewrite (getPropertySchemaInfo_permissive ms1 ms2 key). }
  rewrite Hp.
  destruct (visitProperty visit (JObj ms2) document config p st); simpl; auto.
Qed.

Lemma getSchemaTypeCandidates_same (ms1 ms2 : list (string * json)) :
  sameConstraints ms1 ms2 ->
  getSchemaTypeCandidates (JObj ms1) = getSchemaTypeCandidates (JObj ms2).
Proof.
  intros Hsame. unfold getSchemaTypeCandidates, member.
  rewrite (Hsame "type"), (Hsame "properties"), (Hsame "required"),
    (Hsame "items") by discriminate.
  reflexivity.
Qed.

(** Two objects that agree on the composition keywords resolve alike, or
    each resolves to itself. *)
Lemma resolveSchemaNode_same (fuel : nat) (ms1 ms2 : list (string * json))
    (rootSchema : json) (seen : list location) :
  sameConstraints ms1 ms2 ->
  (resolveSchemaNode fuel (Some (JObj ms1)) rootSchema seen = Ok (Some (JObj ms1)) /\
   resolveSchemaNode fuel (Some (JObj ms2)) rootSchema seen = Ok (Some (JObj ms2))) \/
  (resolveSchemaNode fuel (Some (JObj ms1)) rootSchema seen =
   resolveSchemaNode fuel (Some (JObj ms2)) rootSchema seen).
Proof.
  intros Hsame. destruct fuel as [| fuel]; [now right |].
  rewrite !resolveSchemaNode_eq. unfold hasRef, field, member.
  rewrite (Hsame "$ref"), (Hsame "allOf"), (Hsame "oneOf"), (Hsame "anyOf")
    by discriminate.
  simpl negb. cbv iota.
  destruct (truthy (lookup "$ref" ms2) && isString (lookup "$ref" ms2));
    [now right |].
  destruct (nonEmpty (lookup "allOf" ms2)); [now right |].
  destruct (nonEmpty (lookup "oneOf" ms2)); [now right |].
  destruct (nonEmpty (lookup "anyOf" ms2)); [now right |].
  now left.
Qed.

Lemma visit_permissive (fuel : nat) (node : Node)
    (ms1 ms2 : list (string * json)) (rootSchema : json)
    (document : TextDocument) (diagnostics : list Diagnostic)
    (config : ExtensionConfig) :
  sameConstraints ms1 ms2 ->
  isPermissive (lookup "additionalProperties" ms1) = true ->
  isPermissive (lookup "additionalProperties" ms2) = true ->
  visitNodeForDiagnostics fuel node (Some (JObj ms1)) rootSchema document
    diagnostics config =
  visitNodeForDiagnostics fuel node (Some (JObj ms2)) rootSchema document
    diagnostics config.
Proof.
  intros Hsame H1 H2. rewrite !visitNodeForDiagnostics_eq.
  simpl negb. cbv iota.
  destruct (resolveSchemaNode_same fuel ms1 ms2 rootSchema [] Hsame)
    as [[-> ->] | ->]; [| reflexivity].
  unfold bind. cbv beta iota zeta. simpl negb. cbv iota.
  unfold isNodeTypeCompatible, createTypeMismatchDiagnostic.
  rewrite (getSchemaTypeCandidates_same ms1 ms2 Hsame).
  destruct (negb _); [reflexivity |].
  unfold isObjectSchema, isArraySchema, requiredSetOf, member.
  rewrite (Hsame "type"), (Hsame "properties"), (Hsame "required"),
    (Hsame "items") by discriminate.
  destruct (node_type node); try reflexivity.
  destruct (negb _); [reflexivity |].
  match goal with
  | |- match ?r with Ok _ => _ | Throw => _ | OutOfFuel => _ end = _ =>
      destruct r
  end; try reflexivity.
  destruct (node_children node) as [cs |]; [| reflexivity].
  now rewrite (visitProperties_permissive _ _ _ ms1 ms2 cs _ Hsame H1 H2).
Qed.

(** A key that the properties do not declare takes the unknown-property
    path when [additionalProperties] is absent, [true] or [false]. *)
Lemma visitProperty_undeclared visit (resolvedSchema : json)
    (document : TextDocument) (config : ExtensionConfig)
    value offset length (keyNode valueNode : Node) (rest : list Node)
    (key : string) (diagnostics : list Diagnostic) (presentKeys : list string) :
  isPermissive (member resolvedSchema "additionalProperties") = true ->
  getOf (member resolvedSchema "properties") key = None ->
  node_value keyNode = Some (JStr key) ->
  key <> "" -> key <> "$schema" ->
  visitProperty visit resolvedSchema document config
    (mkNode TProperty value offset length (Some (keyNode :: valueNode :: rest)))
    (diagnostics, presentKeys) =
  Ok (if showUnknownProperties config
      then diagnostics ++ [createUnknownPropertyDiagnostic keyNode key document]
      else diagnostics,
      key :: presentKeys).
Proof.
  intros Hperm Hundeclared Hkey Hne Hreserved. unfold visitProperty.
  rewrite Hkey.
  destruct (key =? "") eqn:He; [apply String.eqb_eq in He; contradiction |].
  destruct (key =? "$schema") eqn:Hs; [apply String.eqb_eq in Hs; contradiction |].
  unfold getPropertySchemaInfo. rewrite Hundeclared.
  rewrite andb_false_r.
  destruct (member resolvedSchema "additionalProperties") as [[| [] | | | | |] |];
    try discriminate; simpl; destruct (showUnknownProperties config); reflexivity.
Qed.

(** The empty key and [$schema] are passed over. *)
Lemma visitProperty_skipped visit (resolvedSchema : json)
    (document : TextDocument) (config : ExtensionConfig)
    value offset length (keyNode valueNode : Node) (rest : list Node)
    (key : string) (st : PropertyState) :
  node_value keyNode = Some (JStr key) ->
  key = "" \/ key = "$schema" ->
  visitProperty visit resolvedSchema document config
    (mkNode TProperty value offset length (Some (keyNode :: valueNode :: rest)))
    st = Ok st.
Proof.
  intros Hkey [-> | ->]; unfold visitProperty; rewrite Hkey; reflexivity.
Qed.

End AdditionalProperties.

(** C5, as the code has it.  Matching against an object schema whose
    [additionalProperties] is [false] gives the diagnostics of matching
    against the same schema with [additionalProperties] absent or [true], for
    every node, root schema, sink and configuration.  Under each of the
    three, a key other than the empty one and [$schema] that names no member
    of [properties] adds one unknown-property diagnostic when
    [showUnknownProperties] is on and none otherwise, and its value is not
    visited; when [properties] is an object, these are the keys that it does
    not hold and that are no name of [Object.prototype].  A property whose
    key is empty or [$schema] is passed over: it adds nothing and is not
    recorded as present. *)
Theorem additionalProperties_false_as_permitted {rt : JsRuntime} :
  (forall fuel node ms1 ms2 rootSchema document diagnostics config,
     sameConstraints ms1 ms2 ->
     isPermissive (lookup "additionalProperties" ms1) = true ->
     isPermissive (lookup "additionalProperties" ms2) = true ->
     visitNodeForDiagnostics fuel node (Some (JObj ms1)) rootSchema document
       diagnostics config =
     visitNodeForDiagnostics fuel node (Some (JObj ms2)) rootSchema document
       diagnostics config) /\
  (forall visit resolvedSchema document config value offset length
          keyNode valueNode rest key diagnostics presentKeys,
     isPermissive (member resolvedSchema "additionalProperties") = true ->
     getOf (member resolvedSchema "properties") key = None ->
     node_value keyNode = Some (JStr key) ->
     key <> "" -> key <> "$schema" ->
     visitProperty visit resolvedSchema document config
       (mkNode TProperty value offset length
          (Some (keyNode :: valueNode :: rest)))
       (diagnostics, presentKeys) =
     Ok (if showUnknownProperties config
         then diagnostics ++
              [createUnknownPropertyDiagnostic keyNode key document]
         else diagnostics,
         key :: presentKeys)) /\
  (forall ms key,
     getOf (Some (JObj ms)) key = None <->
     lookup key ms = None /\ ~ In key objectPrototypeNames) /\
  (forall visit resolvedSchema document config value offset length
          keyNode valueNode rest key st,
     node_value keyNode = Some (JStr key) ->
     key = "" \/ key = "$schema" ->
     visitProperty visit resolvedSchema document config
       (mkNode TProperty value offset length
          (Some (keyNode :: valueNode :: rest)))
       st = Ok st).
Proof.
  split; [| split; [| split]].
  - intros. now apply visit_permissive.
  - intros. now apply visitProperty_undeclared.
  - intros. apply get_object_None.
  - intros. now apply visitProperty_skipped with (key := key).
Qed.

(** The end-to-end example of the specification, with and without
    [additionalProperties: false]: one unknown-property diagnostic for
    [size]; a property [$schema] beside it. *)
Lemma additionalProperties_false_as_permitted_witness :
  every_runtime (fun rt =>
    let name := mkNode TProperty None 1 11
                  (Some [mkNode TString (Some (JStr "name")) 1 6 None;
                         mkNode TString (Some (JStr "Ada")) 9 5 None]) in
    let size := mkNode TProperty None 14 9
                  (Some [mkNode TString (Some (JStr "size")) 14 6 None;
                         mkNode TString (Some (JStr "M")) 22 3 None]) in
    let node := mkNode TObject None 0 28 (Some [name; size]) in
    let closed := [("type", JStr "object");
                   ("properties", JObj [("name", JObj [("type", JStr "string")])]);
                   ("required", JArr [JStr "name"]);
                   ("additionalProperties", JBool false)] in
    let open := [("type", JStr "object");
                 ("properties", JObj [("name", JObj [("type", JStr "string")])]);
                 ("required", JArr [JStr "name"])] in
    visitNodeForDiagnostics 1 node (Some (JObj closed)) (JObj closed)
      oneLineDocument [] defaultConfig =
    visitNodeForDiagnostics 1 node (Some (JObj open)) (JObj closed)
      oneLineDocument [] defaultConfig /\
    visitNodeForDiagnostics 1 node (Some (JObj closed)) (JObj closed)
      oneLineDocument [] defaultConfig =
    Ok [createUnknownPropertyDiagnostic
          (mkNode TString (Some (JStr "size")) 14 6 None) "size" oneLineDocument] /\
    visitProperty (fun _ _ d => Ok d) (JObj closed) oneLineDocument
      defaultConfig size ([], ["name"]) =
    Ok ([createUnknownPropertyDiagnostic
           (mkNode TString (Some (JStr "size")) 14 6 None) "size" oneLineDocument],
        ["size"; "name"]) /\
    visitProperty (fun _ _ d => Ok d) (JObj closed) oneLineDocument
      defaultConfig
      (mkNode TProperty None 8 14
         (Some [mkNode TString (Some (JStr "$schema")) 8 9 None;
                mkNode TString (Some (JStr "s")) 19 3 None]))
      ([], ["name"]) =
    Ok ([], ["name"])).
Proof.
  intros rt. cbv zeta.
  destruct (@additionalProperties_false_as_permitted rt)
    as (Hsame & Hkey & _ & Hskipped).
  split; [| split; [| split]].
  - apply Hsame; [| reflexivity | reflexivity].
    intros k Hk. cbn [lookup].
    destruct ("type" =? k); [reflexivity |].
    destruct ("properties" =? k); [reflexivity |].
    destruct ("required" =? k); [reflexivity |].
    destruct (String.eqb_spec "additionalProperties" k) as [E | _];
      [now elim Hk | reflexivity].
  - reflexivity.
  - refine (Hkey (fun _ _ d => Ok d) (JObj _) oneLineDocument defaultConfig
              None 14%Z 9%Z (mkNode TString (Some (JStr "size")) 14 6 None)
              (mkNode TString (Some (JStr "M")) 22 3 None) [] "size" []
              ["name"] _ _ _ _ _);
      [reflexivity | reflexivity | reflexivity | discriminate | discriminate].
  - refine (Hskipped (fun _ _ d => Ok d) (JObj _) oneLineDocument defaultConfig
              None 8%Z 14%Z (mkNode TString (Some (JStr "$schema")) 8 9 None)
              (mkNode TString (Some (JStr "s")) 19 3 None) [] "$schema"
              ([], ["name"]) _ _); [reflexivity | now right].
Defined.

(** C5, as the specification words it, fails: not every key that
    [properties] does not declare is reported.  With
    [showUnknownProperties] on, the document whose keys are the empty
    string and [$schema] gets no diagnostic from a schema without
    [properties], closed or open. *)
Lemma additionalProperties_false_every_key_fails :
  every_runtime (fun rt =>
    let closed := JObj [("type", JStr "object");
                        ("additionalProperties", JBool false)] in
    let open := JObj [("type", JStr "object")] in
    showUnknownProperties defaultConfig = true /\
    member closed "properties" = None /\
    visitNodeForDiagnostics 1 skippedKeys (Some closed) closed oneLineDocument []
      defaultConfig = Ok [] /\
    visitNodeForDiagnostics 1 skippedKeys (Some open) open oneLineDocument []
      defaultConfig = Ok []).
Proof. intros rt. cbv zeta. repeat split. Qed.

(** ** The [allOf] merge *)

Section MergeFacts.

(** A falsy value has none of the members the merge reads. *)
Lemma falsy_no_member (b : json) (k : string) :
  truthy (Some b) = false -> (k =? "length") = false -> member b k = None.
Proof.
  intros Hfalsy Hk. destruct b as [| x | n | s | l | ms | h]; try reflexivity;
    try discriminate.
  destruct s; [| discriminate]. simpl. rewrite Hk.
  destruct (index_of_key k) as [[| i] |]; reflexivity.
Qed.

Lemma mergeType_lookup merged schema k :
  lookup k (mergeType merged schema) =
  if (k =? "type") && specifiesTruthy "type" schema
  then member schema "type" else lookup k merged.
Proof.
  unfold mergeType, specifiesTruthy.
  destruct (member schema "type") as [t |]; [| now rewrite andb_false_r].
  destruct (truthy (Some t)); [| now rewrite andb_false_r].
  rewrite andb_true_r. destruct (String.eqb_spec k "type") as [-> | Hne].
  - apply lookup_assign_same.
  - apply lookup_assign_other. apply String.eqb_neq. congruence.
Qed.

Lemma mergeItems_lookup merged schema k :
  lookup k (mergeItems merged schema) =
  if (k =? "items") && specifiesTruthy "items" schema
  then member schema "items" else lookup k merged.
Proof.
  unfold mergeItems, specifiesTruthy.
  destruct (member schema "items") as [t |]; [| now rewrite andb_false_r].
  destruct (truthy (Some t)); [| now rewrite andb_false_r].
  rewrite andb_true_r. destruct (String.eqb_spec k "items") as [-> | Hne].
  - apply lookup_assign_same.
  - apply lookup_assign_other. apply String.eqb_neq. congruence.
Qed.

Lemma mergeAdditionalProperties_lookup merged schema k :
  lookup k (mergeAdditionalProperties merged schema) =
  if (k =? "additionalProperties") && specifiesDefined "additionalProperties" schema
  then member schema "additionalProperties" else lookup k merged.
Proof.
  unfold mergeAdditionalProperties, specifiesDefined.
  destruct (member schema "additionalProperties") as [t |];
    [| now rewrite andb_false_r].
  rewrite andb_true_r.
  destruct (String.eqb_spec k "additionalProperties") as [-> | Hne].
  - apply lookup_assign_same.
  - apply lookup_assign_other. apply String.eqb_neq. congruence.
Qed.

Lemma mergeProperties_lookup merged schema k :
  (k =? "properties") = false ->
  lookup k (mergeProperties merged schema) = lookup k merged.
Proof.
  intros Hk. unfold mergeProperties.
  destruct (truthy (member schema "properties")); [| reflexivity].
  apply lookup_assign_other. now rewrite String.eqb_sym.
Qed.

Lemma mergeRequired_lookup merged merged' schema k :
  (k =? "required") = false ->
  mergeRequired merged schema = Ok merged' ->
  lookup k merged' = lookup k merged.
Proof.
  intros Hk. unfold mergeRequired.
  destruct (truthy (member schema "required")); [| now intros [= <-]].
  cbv zeta. destruct (iterate _) as [old |]; [| discriminate].
  destruct (iterate _) as [new |]; [| discriminate].
  intros [= <-]. apply lookup_assign_other. now rewrite String.eqb_sym.
Qed.

(** What one branch does to [type], [items] and [additionalProperties]. *)
Lemma mergeStep_fields (merged merged' : list (string * json)) (schema : json) :
  mergeStep merged schema = Ok merged' ->
  lookup "type" merged' =
    (if specifiesTruthy "type" schema then member schema "type"
     else lookup "type" merged) /\
  lookup "items" merged' =
    (if specifiesTruthy "items" schema then member schema "items"
     else lookup "items" merged) /\
  lookup "additionalProperties" merged' =
    (if specifiesDefined "additionalProperties" schema
     then member schema "additionalProperties"
     else lookup "additionalProperties" merged).
Proof.
  unfold mergeStep.
  destruct (truthy (Some schema)) eqn:Hb; simpl negb; cbv iota.
  - cbv zeta.
    destruct (mergeRequired _ schema) as [m | |] eqn:Hreq; try discriminate.
    unfold bind. intros [= <-].
    rewrite !mergeAdditionalProperties_lookup, !mergeItems_lookup.
    rewrite (mergeRequired_lookup _ _ _ "type" eq_refl Hreq).
    rewrite (mergeRequired_lookup _ _ _ "items" eq_refl Hreq).
    rewrite (mergeRequired_lookup _ _ _ "additionalProperties" eq_refl Hreq).
    rewrite !mergeProperties_lookup by reflexivity.
    rewrite !mergeType_lookup. simpl. auto.
  - intros [= <-]. unfold specifiesTruthy, specifiesDefined.
    rewrite !(falsy_no_member schema) by (assumption || reflexivity). auto.
Qed.

Lemma mergeLoop_fields (schemas : list json) :
  forall merged merged',
    mergeLoop merged schemas = Ok merged' ->
    lookup "type" merged' =
      fold_left (fun found b => if specifiesTruthy "type" b
                                then member b "type" else found)
                schemas (lookup "type" merged) /\
    lookup "items" merged' =
      fold_left (fun found b => if specifiesTruthy "items" b
                                then member b "items" else found)
                schemas (lookup "items" merged) /\
    lookup "additionalProperties" merged' =
      fold_left (fun found b => if specifiesDefined "additionalProperties" b
                                then member b "additionalProperties" else found)
                schemas (lookup "additionalProperties" merged).
Proof.
  induction schemas as [| b rest IH]; intros merged merged'; simpl.
  - intros [= <-]. auto.
  - destruct (mergeStep merged b) as [m | |] eqn:Hstep; try discriminate.
    simpl. intros Hloop.
    destruct (mergeStep_fields _ _ _ Hstep) as (Ht & Hi & Ha).
    rewrite <- Ht, <- Hi, <- Ha. now apply IH.
Qed.

Lemma mergeSchemas_last_wins (schemas : list json) (merged : json) :
  mergeSchemas schemas = Ok (Some merged) ->
  member merged "type" = lastSpecified (specifiesTruthy "type") "type" schemas /\
  member merged "items" = lastSpecified (specifiesTruthy "items") "items" schemas /\
  member merged "additionalProperties" =
  lastSpecified (specifiesDefined "additionalProperties") "additionalProperties"
    schemas.
Proof.
  unfold mergeSchemas. destruct schemas as [| b rest]; [discriminate |].
  destruct (mergeLoop [] (b :: rest)) as [m | |] eqn:Hloop; try discriminate.
  simpl bind. intros [= <-]. exact (mergeLoop_fields _ _ _ Hloop).
Qed.


(** *** The required names *)

Lemma json_eqb_string (s : string) (y : json) :
  json_eqb (JStr s) y = true -> y = JStr s.
Proof.
  destruct y; try discriminate. simpl. intros H.
  apply String.eqb_eq in H. now subst.
Qed.

Lemma Set_add_all_strings (l : list json) :
  forall acc,
    allStrings l -> allStrings acc ->
    allStrings (Set_add_all l acc) /\
    forall x, In x (Set_add_all l acc) <-> In x acc \/ In x l.
Proof.
  induction l as [| y r IH]; intros acc Hl Hacc; simpl.
  - split; [assumption |]. intros x. tauto.
  - inversion Hl as [| ? ? Hy Hr]; subst.
    destruct (existsb (sameValueZero y) acc) eqn:Hex.
    + destruct (IH acc Hr Hacc) as [Hs Hin]. split; [assumption |].
      intros x. rewrite Hin. split; [tauto |].
      intros [H | [<- | H]]; auto.
      left. apply existsb_exists in Hex. destruct Hex as (z & Hz & Heq).
      destruct y; try discriminate.
      apply json_eqb_string in Heq. now subst.
    + destruct (IH (acc ++ [y]) Hr) as [Hs Hin].
      { apply Forall_app. split; [assumption |]. now constructor. }
      split; [assumption |].
      intros x. rewrite Hin, in_app_iff. simpl. tauto.
Qed.

Lemma Set_from_strings (l : list json) :
  allStrings l ->
  allStrings (Set_from l) /\ forall x, In x (Set_from l) <-> In x l.
Proof.
  intros Hl. destruct (Set_add_all_strings l [] Hl (Forall_nil _)) as [Hs Hin].
  split; [assumption |]. intros x. rewrite Hin. simpl. tauto.
Qed.

Lemma wellTypedRequired_allStrings (schema : json) :
  wellTypedRequired schema -> allStrings (requiredOf schema).
Proof.
  unfold wellTypedRequired, requiredOf.
  destruct (member schema "required") as [[| | | | l | |] |]; try contradiction;
    auto; intros; constructor.
Qed.

(** What one well-typed branch does to [required]. *)
Lemma mergeStep_required (merged : list (string * json)) (schema : json) :
  wellTypedRequired (JObj merged) -> wellTypedRequired schema ->
  exists merged',
    mergeStep merged schema = Ok merged' /\
    wellTypedRequired (JObj merged') /\
    forall x, In x (requiredOf (JObj merged')) <->
              In x (requiredOf (JObj merged)) \/ In x (requiredOf schema).
Proof.
  intros Hm Hs. unfold mergeStep.
  destruct (truthy (Some schema)) eqn:Hb; simpl negb; cbv iota.
  2:{ exists merged. split; [reflexivity |]. split; [assumption |].
      intros x. unfold requiredOf at 3.
      rewrite (falsy_no_member schema) by (assumption || reflexivity).
      simpl. tauto. }
  cbv zeta.
  set (m2 := mergeProperties (mergeType merged schema) schema).
  assert (Hm2 : lookup "required" m2 = lookup "required" merged).
  { unfold m2. rewrite mergeProperties_lookup by reflexivity.
    now rewrite mergeType_lookup. }
  assert (Hkeep : forall m3,
            lookup "required" (mergeAdditionalProperties (mergeItems m3 schema) schema) =
            lookup "required" m3).
  { intros m3. rewrite mergeAdditionalProperties_lookup, mergeItems_lookup.
    reflexivity. }
  unfold mergeRequired.
  pose proof (wellTypedRequired_allStrings _ Hs) as Hnew.
  pose proof (wellTypedRequired_allStrings _ Hm) as Hold.
  unfold wellTypedRequired, requiredOf in *. simpl member in *.
  rewrite Hm2.
  destruct (member schema "required") as [[| | | | new | |] |] eqn:Hreq;
    try contradiction.
  - simpl truthy. cbv iota.
    destruct (lookup "required" merged) as [[| | | | old | |] |] eqn:Hprev;
      try contradiction; simpl iterate; cbv iota; unfold bind;
      eexists; (split; [reflexivity |]); rewrite Hkeep, lookup_assign_same.
    + destruct (Set_from_strings (old ++ new)) as [Hstr Hin].
      { apply Forall_app. auto. }
      split; [assumption |]. intros x. now rewrite Hin, in_app_iff.
    + destruct (Set_from_strings ([] ++ new)) as [Hstr Hin]; [assumption |].
      split; [assumption |]. intros x. rewrite Hin. simpl. tauto.
  - simpl truthy. cbv iota. unfold bind.
    eexists. split; [reflexivity |]. rewrite Hkeep, Hm2.
    split; [assumption |]. intros x. simpl. tauto.
Qed.

Lemma mergeLoop_required (schemas : list json) :
  forall merged,
    wellTypedRequired (JObj merged) -> Forall wellTypedRequired schemas ->
    exists merged',
      mergeLoop merged schemas = Ok merged' /\
      wellTypedRequired (JObj merged') /\
      forall x, In x (requiredOf (JObj merged')) <->
                In x (requiredOf (JObj merged)) \/
                exists b, In b schemas /\ In x (requiredOf b).
Proof.
  induction schemas as [| b rest IH]; intros merged Hm Hall; simpl.
  - exists merged. split; [reflexivity |]. split; [assumption |].
    intros x. split; [tauto |]. intros [H | (b & [] & _)]. exact H.
  - inversion Hall as [| ? ? Hb Hrest]; subst.
    destruct (mergeStep_required merged b Hm Hb) as (m & -> & Hwt & Hin).
    simpl bind.
    destruct (IH m Hwt Hrest) as (m' & -> & Hwt' & Hin').
    exists m'. split; [reflexivity |]. split; [assumption |].
    intros x. rewrite Hin', Hin. split.
    + intros [[H | H] | (c & Hc & H)]; eauto.
    + intros [H | (c & [<- | Hc] & H)]; eauto.
Qed.

Lemma mergeSchemas_required_union (schemas : list json) :
  schemas <> [] -> Forall wellTypedRequired schemas ->
  exists merged,
    mergeSchemas schemas = Ok (Some merged) /\
    forall x, In x (requiredOf merged) <->
              exists b, In b schemas /\ In x (requiredOf b).
Proof.
  intros Hne Hall.
  destruct (mergeLoop_required schemas [] I Hall) as (m & Hloop & _ & Hin).
  exists (JObj m). split.
  - unfold mergeSchemas. destruct schemas; [contradiction |]. now rewrite Hloop.
  - intros x. rewrite Hin. simpl. tauto.
Qed.

End MergeFacts.

(** C4. The merge of [allOf] branches unites their [required] names, so the
    names do not depend on the order of the branches (branches typed as
    [SchemaNode]: [required] absent or an array of strings); [type], [items]
    and [additionalProperties] are those of the last branch that specifies
    them, so they do depend on it: [[{type: string}, {type: number}]] merges
    to type [number], the reversed list to type [string]. *)
Theorem allOf_merge_order :
  (forall schemas,
     schemas <> [] -> Forall wellTypedRequired schemas ->
     exists merged,
       mergeSchemas schemas = Ok (Some merged) /\
       forall x, In x (requiredOf merged) <->
                 exists b, In b schemas /\ In x (requiredOf b)) /\
  (forall schemas schemas',
     Permutation schemas schemas' ->
     schemas <> [] -> Forall wellTypedRequired schemas ->
     exists merged merged',
       mergeSchemas schemas = Ok (Some merged) /\
       mergeSchemas schemas' = Ok (Some merged') /\
       forall x, In x (requiredOf merged) <-> In x (requiredOf merged')) /\
  (forall schemas merged,
     mergeSchemas schemas = Ok (Some merged) ->
     member merged "type" =
       lastSpecified (specifiesTruthy "type") "type" schemas /\
     member merged "items" =
       lastSpecified (specifiesTruthy "items") "items" schemas /\
     member merged "additionalProperties" =
       lastSpecified (specifiesDefined "additionalProperties")
         "additionalProperties" schemas) /\
  (mergeSchemas [JObj [("type", JStr "string")]; JObj [("type", JStr "number")]] =
     Ok (Some (JObj [("type", JStr "number")])) /\
   mergeSchemas [JObj [("type", JStr "number")]; JObj [("type", JStr "string")]] =
     Ok (Some (JObj [("type", JStr "string")]))).
Proof.
  split; [| split; [| split]].
  - apply mergeSchemas_required_union.
  - intros schemas schemas' Hperm Hne Hall.
    destruct (mergeSchemas_required_union schemas Hne Hall) as (m & Hm & Hin).
    destruct (mergeSchemas_required_union schemas') as (m' & Hm' & Hin').
    { intros ->. apply Permutation_sym, Permutation_nil in Hperm. contradiction. }
    { rewrite Forall_forall in *. intros b Hb. apply Hall.
      now apply (Permutation_in _ (Permutation_sym Hperm)). }
    exists m, m'. split; [assumption |]. split; [assumption |].
    intros x. rewrite Hin, Hin'. split; intros (b & Hb & Hx); exists b;
      (split; [| assumption]).
    + now apply (Permutation_in _ Hperm).
    + now apply (Permutation_in _ (Permutation_sym Hperm)).
  - apply mergeSchemas_last_wins.
  - split; reflexivity.
Qed.

(** Two branches that require [a, b] and [b, c], in both orders. *)
Lemma allOf_merge_order_witness :
  exists merged merged',
    mergeSchemas [JObj [("required", JArr [JStr "a"; JStr "b"])];
                  JObj [("required", JArr [JStr "b"; JStr "c"])]] =
      Ok (Some merged) /\
    mergeSchemas [JObj [("required", JArr [JStr "b"; JStr "c"])];
                  JObj [("required", JArr [JStr "a"; JStr "b"])]] =
      Ok (Some merged') /\
    forall x, In x (requiredOf merged) <-> In x (requiredOf merged').
Proof.
  apply (proj1 (proj2 allOf_merge_order)).
  - apply perm_swap.
  - discriminate.
  - repeat constructor.
Defined.

(** ** Termination of the resolver *)

Section Fuel.
Context {rt : JsRuntime}.

Lemma mapM_more_fuel {A B : Type} (f g : A -> result B) (l : list A) :
  (forall x y, f x = y -> y <> OutOfFuel -> g x = y) ->
  forall y, mapM f l = y -> y <> OutOfFuel -> mapM g l = y.
Proof.
  intros Hfg. induction l as [| x r IH]; intros y Hy Hne; [exact Hy |].
  simpl in *. destruct (f x) as [b | |] eqn:Hfx.
  - rewrite (Hfg x (Ok b) Hfx) by discriminate. simpl in *.
    destruct (mapM f r) as [bs | |] eqn:Hr.
    + now rewrite (IH (Ok bs) eq_refl) by discriminate.
    + now rewrite (IH Throw eq_refl) by discriminate.
    + simpl in Hy. congruence.
  - rewrite (Hfg x Throw Hfx) by discriminate. exact Hy.
  - simpl in Hy. congruence.
Qed.

(** A result other than [OutOfFuel] is the result with more room on the
    stack as well. *)
Lemma resolveSchemaNode_more_fuel (fuel : nat) :
  forall schema rootSchema seen y,
    resolveSchemaNode fuel schema rootSchema seen = y -> y <> OutOfFuel ->
    resolveSchemaNode (S fuel) schema rootSchema seen = y.
Proof.
  induction fuel as [| fuel IH]; intros schema rootSchema seen y Hy Hne.
  - simpl in Hy. congruence.
  - rewrite resolveSchemaNode_eq in Hy. rewrite resolveSchemaNode_eq.
    destruct (negb (truthy schema)); [exact Hy |].
    destruct (hasRef schema).
    { destruct (field schema "$ref") as [[| | | ref | | |] |]; try exact Hy.
      destruct (negb (startsWith ref "#")); [exact Hy |]. cbv zeta in *.
      destruct (negb (truthy (resolvePointer rootSchema ref)) ||
                Set_has seen (pointerParts ref)); [exact Hy |].
      now apply IH. }
    destruct (nonEmpty (field schema "allOf")).
    { destruct (field schema "allOf") as [[| | | | entries | |] |]; try exact Hy.
      destruct (mapM (fun entry => resolveSchemaNode fuel (Some entry) rootSchema [])
                     entries) as [bs | |] eqn:Hm.
      - rewrite (mapM_more_fuel _
                   (fun entry => resolveSchemaNode (S fuel) (Some entry) rootSchema [])
                   entries (fun x y' => IH (Some x) rootSchema [] y') (Ok bs) Hm)
          by discriminate.
        exact Hy.
      - rewrite (mapM_more_fuel _
                   (fun entry => resolveSchemaNode (S fuel) (Some entry) rootSchema [])
                   entries (fun x y' => IH (Some x) rootSchema [] y') Throw Hm)
          by discriminate.
        exact Hy.
      - simpl in Hy. congruence. }
    destruct (nonEmpty (field schema "oneOf")).
    { destruct (field schema "oneOf"); [now apply IH | exact Hy]. }
    destruct (nonEmpty (field schema "anyOf")).
    { destruct (field schema "anyOf"); [now apply IH | exact Hy]. }
    exact Hy.
Qed.

Lemma resolveSchemaNode_fuel_mono (fuel fuel' : nat) schema rootSchema seen r :
  fuel <= fuel' ->
  resolveSchemaNode fuel schema rootSchema seen = Ok r ->
  resolveSchemaNode fuel' schema rootSchema seen = Ok r.
Proof.
  intros Hle H. induction Hle as [| m Hle IH]; [exact H |].
  apply resolveSchemaNode_more_fuel; [exact IH | discriminate].
Qed.

Lemma resolveSchemaNode_stable (fuel fuel' : nat) schema rootSchema
    seen y :
  fuel <= fuel' ->
  resolveSchemaNode fuel schema rootSchema seen = y -> y <> OutOfFuel ->
  resolveSchemaNode fuel' schema rootSchema seen = y.
Proof.
  intros Hle H Hy. induction Hle as [| m Hle IH]; [exact H |].
  now apply resolveSchemaNode_more_fuel.
Qed.

Lemma allOf_cycle_runs_out (fuel : nat) :
  resolveSchemaNode fuel (Some (JObj [("$ref", JStr "#/definitions/x")])) loopRoot [] =
  OutOfFuel /\
  forall seen,
    resolveSchemaNode fuel
      (Some (JObj [("allOf", JArr [JObj [("$ref", JStr "#/definitions/x")]])]))
      loopRoot seen = OutOfFuel.
Proof.
  induction fuel as [| fuel [IHref IHall]]; [split; reflexivity |]. split.
  - rewrite resolveSchemaNode_eq. apply IHall.
  - intros seen. rewrite resolveSchemaNode_eq.
    cbn [truthy negb hasRef field member lookup String.eqb Ascii.eqb Bool.eqb
         isString andb nonEmpty length_gt0 List.length Nat.ltb Nat.leb mapM].
    now rewrite IHref.
Qed.

End Fuel.

Lemma below_refl v : below v v.
Proof. repeat split; auto using incl_refl. Qed.

Lemma below_trans x y z : below x y -> below y z -> below x z.
Proof.
  intros (H1 & H2 & H3) (H4 & H5 & H6). repeat split; try lia; auto.
  eapply incl_tran; eauto.
Qed.

Lemma below_primitive x v :
  size x = 1 -> refs x = [] -> allOfFree x = true -> below x v.
Proof.
  intros Hs Hr Ha. repeat split; auto.
  - rewrite Hs. destruct v; simpl; lia.
  - rewrite Hr. intros y [].
Qed.

Lemma lookup_below k ms x :
  lookup k ms = Some x -> below x (JObj ms) /\ size x < size (JObj ms).
Proof.
  induction ms as [| [k' y] r IH]; [discriminate |]. simpl lookup.
  destruct (k' =? k).
  - intros [= ->]. repeat split; simpl; try lia.
    + intros s Hs. apply in_or_app. right. apply in_or_app. now left.
    + intros H. apply andb_prop in H. destruct H as [H _].
      apply andb_prop in H. tauto.
  - intros H. destruct (IH H) as ((H1 & H2 & H3) & H4).
    repeat split; simpl in *; try lia.
    + intros s Hs. apply in_or_app. right. apply in_or_app. right. now apply H2.
    + intros H'. apply andb_prop in H'. destruct H' as [_ H']. auto.
Qed.

Lemma nth_error_below l i x :
  nth_error l i = Some x -> below x (JArr l) /\ size x < size (JArr l).
Proof.
  revert i. induction l as [| y r IH]; intros [| i]; try discriminate; simpl nth_error.
  - intros [= ->]. repeat split; simpl; try lia.
    + intros s Hs. apply in_or_app. now left.
    + intros H. apply andb_prop in H. tauto.
  - intros H. destruct (IH _ H) as ((H1 & H2 & H3) & H4).
    repeat split; simpl in *; try lia.
    + intros s Hs. apply in_or_app. right. now apply H2.
    + intros H'. apply andb_prop in H'. destruct H' as [_ H']. auto.
Qed.

Lemma charAt_below i s x v : charAt i s = Some x -> below x v.
Proof.
  unfold charAt. destruct (String.get i s); [| discriminate].
  intros [= <-]. now apply below_primitive.
Qed.

Lemma member_below v k x : member v k = Some x -> below x v.
Proof.
  destruct v as [| b | n | s | l | ms | h]; unfold member; try discriminate.
  - destruct (k =? "length").
    + intros H. assert (Hx : JNum (number_of_nat (String.length s)) = x) by congruence.
      rewrite <- Hx. now apply below_primitive.
    + destruct (index_of_key k); [| discriminate]. apply charAt_below.
  - destruct (k =? "length").
    + intros H. assert (Hx : JNum (number_of_nat (List.length l)) = x) by congruence.
      rewrite <- Hx. now apply below_primitive.
    + destruct (index_of_key k); [| discriminate].
      intros H. now apply nth_error_below in H.
  - intros H. now apply lookup_below in H.
Qed.

Lemma at_index_below v i x : at_index v i = Some x -> below x v.
Proof.
  destruct v as [| b | n | s | l | ms | h]; unfold at_index; try discriminate.
  - apply charAt_below.
  - intros H. now apply nth_error_below in H.
  - intros H. now apply lookup_below in H.
Qed.

(** An inherited member is a built-in value, [null] or a number. *)
Lemma inheritedMember_below {rt : JsRuntime} k name x v :
  inheritedMember k name = Some x -> below x v.
Proof.
  unfold inheritedMember. destruct (name =? "__proto__").
  - intros [= <-]. now apply below_primitive.
  - destruct (inherits k name); [| discriminate].
    intros [= <-]. now apply below_primitive.
Qed.

Lemma prototypeMember_below {rt : JsRuntime} k name x v :
  prototypeMember k name = Some x -> below x v.
Proof.
  unfold prototypeMember. destruct (name =? "__proto__").
  - intros [= <-]. destruct k; now apply below_primitive.
  - destruct ((name =? "length") && _).
    + intros [= <-]. now apply below_primitive.
    + destruct (inherits k name); [| discriminate].
      intros [= <-]. now apply below_primitive.
Qed.

Lemma get_below {rt : JsRuntime} v name x : get v name = Some x -> below x v.
Proof.
  unfold get. destruct (member v name) as [y |] eqn:Hown.
  - intros [= <-]. now apply member_below in Hown.
  - destruct v as [| b | n | s | l | ms | [| k]]; cbn [kindOf]; try discriminate;
      try apply inheritedMember_below.
    apply prototypeMember_below.
Qed.

Lemma walk_below {rt : JsRuntime} parts : forall v x,
  walk (Some v) parts = Some x -> below x v.
Proof.
  induction parts as [| part rest IH]; intros v x; cbn [walk getOf].
  - intros [= ->]. apply below_refl.
  - destruct (negb (truthy (Some v)) || negb (typeofObject (Some v)));
      [discriminate |].
    destruct (get v part) as [next |] eqn:Hnext; [| discriminate].
    intros H. apply (below_trans _ next _ (IH _ _ H)).
    now apply get_below in Hnext.
Qed.

Lemma resolvePointer_below {rt : JsRuntime} root ref x :
  resolvePointer root ref = Some x -> below x root.
Proof.
  unfold resolvePointer. destruct (negb (startsWith ref "#/")); [discriminate |].
  apply walk_below.
Qed.

Lemma filter_length_lt {A : Type} (p q : A -> bool) (l : list A) (a : A) :
  (forall x, q x = true -> p x = true) ->
  In a l -> p a = true -> q a = false ->
  List.length (filter q l) < List.length (filter p l).
Proof.
  intros Hqp Hin Hpa Hqa.
  assert (Hle : forall l', List.length (filter q l') <= List.length (filter p l')).
  { induction l' as [| x r IH]; simpl; [lia |].
    destruct (q x) eqn:Hq.
    - rewrite (Hqp _ Hq). simpl. lia.
    - destruct (p x); simpl; lia. }
  induction l as [| x r IH]; [contradiction |]. simpl.
  destruct Hin as [-> | Hin].
  - rewrite Hpa, Hqa. simpl. specialize (Hle r). lia.
  - specialize (IH Hin). destruct (q x) eqn:Hq.
    + rewrite (Hqp _ Hq). simpl. lia.
    + destruct (p x); simpl; lia.
Qed.

Lemma location_eqb_refl l : location_eqb l l = true.
Proof. unfold location_eqb. destruct (list_eq_dec string_dec l l); congruence. Qed.

Lemma unseen_add R seen ref :
  In ref R -> Set_has seen (pointerParts ref) = false ->
  unseen R (pointerParts ref :: seen) < unseen R seen.
Proof.
  intros Hin Hnew. unfold unseen.
  apply filter_length_lt with (a := ref); auto.
  - intros x. simpl. destruct (location_eqb (pointerParts x) (pointerParts ref));
      simpl; [discriminate | auto].
  - now rewrite Hnew.
  - simpl. now rewrite location_eqb_refl.
Qed.

Lemma ref_in_refs ms ref :
  lookup "$ref" ms = Some (JStr ref) -> In ref (refs (JObj ms)).
Proof.
  induction ms as [| [k y] r IH]; [discriminate |]. simpl lookup.
  destruct (k =? "$ref").
  - intros [= ->]. simpl. now left.
  - intros H. simpl. apply in_or_app. right. apply in_or_app. right.
    now apply IH.
Qed.

Lemma allOfFree_no_allOf ms : allOfFree (JObj ms) = true -> lookup "allOf" ms = None.
Proof.
  induction ms as [| [k y] r IH]; [reflexivity |]. simpl.
  intros H. apply andb_prop in H. destruct H as [H Hr].
  apply andb_prop in H. destruct H as [Hk _].
  destruct (k =? "allOf"); [discriminate |]. now apply IH.
Qed.

Lemma allOfFree_field c :
  (forall v, c = Some v -> allOfFree v = true) -> field c "allOf" = None.
Proof.
  intros H. destruct c as [[| b | n | s | l | ms | h] |]; try reflexivity.
  simpl. apply allOfFree_no_allOf. now apply H.
Qed.

Lemma size_pos v : 0 < size v.
Proof. destruct v; simpl; lia. Qed.

Section Termination.
Context {rt : JsRuntime}.
Variable rootSchema : json.
Variable R : list string.
Hypothesis Hroot : allOfFree rootSchema = true.
Hypothesis HR : incl (refs rootSchema) R.

Lemma withinRefs_below x v : below x v -> withinRefs R (Some v) -> withinRefs R (Some x).
Proof.
  intros (_ & Hr & Ha) Hg y [= <-]. destruct (Hg v eq_refl) as [H1 H2].
  split; [auto |]. eapply incl_tran; eauto.
Qed.

Lemma withinRefs_root x : below x rootSchema -> withinRefs R (Some x).
Proof.
  intros (_ & Hr & Ha) y [= <-]. split; [auto |]. eapply incl_tran; eauto.
Qed.

(** The first entry of a composition keyword is smaller than the node. *)
Lemma first_entry_smaller c k o :
  (k =? "length") = false -> index_of_key k = None ->
  field c k = Some o ->
  withinRefs R c ->
  optsize (at_index o 0) < optsize c /\ withinRefs R (at_index o 0).
Proof.
  intros Hk1 Hk2 Hf Hg.
  destruct (field_Some_object c k o Hk1 Hk2 Hf) as [ms ->].
  simpl in Hf. destruct (lookup_below _ _ _ Hf) as [Hb Hlt].
  destruct (at_index o 0) as [x |] eqn:Hx.
  - pose proof (at_index_below _ _ _ Hx) as Hxb. split.
    + simpl. destruct Hxb as (Hs & _). simpl in *. lia.
    + eapply withinRefs_below; [| exact Hg]. eapply below_trans; eauto.
  - split; [simpl; lia | intros v; discriminate].
Qed.

Lemma resolve_terminates_bound (fuel : nat) :
  forall c seen,
    optsize c + unseen R seen * S (size rootSchema) < fuel ->
    withinRefs R c ->
    exists r, resolveSchemaNode fuel c rootSchema seen = Ok r.
Proof.
  induction fuel as [| fuel IH]; intros c seen Hfuel Hg; [lia |].
  rewrite resolveSchemaNode_eq.
  destruct (truthy c) eqn:Hc; simpl negb; cbv iota; [| eauto].
  destruct (hasRef c) eqn:Href.
  - destruct (field c "$ref") as [[| | | ref | | |] |] eqn:Hf; eauto.
    destruct (negb (startsWith ref "#")); [eauto |]. cbv zeta.
    destruct (negb (truthy (resolvePointer rootSchema ref)) ||
              Set_has seen (pointerParts ref)) eqn:Hstop; [eauto |].
    apply orb_false_elim in Hstop. destruct Hstop as [Htruthy Hnew].
    destruct (resolvePointer rootSchema ref) as [x |] eqn:Hx; [| discriminate].
    pose proof (resolvePointer_below _ _ _ Hx) as Hxb.
    apply IH; [| now apply withinRefs_root].
    destruct (field_Some_object c "$ref" _ eq_refl eq_refl Hf) as [ms ->].
    assert (Hin : In ref R).
    { destruct (Hg _ eq_refl) as [_ Hincl]. apply Hincl. now apply ref_in_refs. }
    pose proof (unseen_add R seen ref Hin Hnew) as Hlt.
    destruct Hxb as (Hs & _). simpl optsize in *.
    pose proof (size_pos (JObj ms)). nia.
  - rewrite (allOfFree_field c) by (intros v Hv; now apply Hg).
    change (nonEmpty None) with false. cbv iota.
    destruct (nonEmpty (field c "oneOf")).
    { destruct (field c "oneOf") as [o |] eqn:Hf; [| eauto].
      destruct (first_entry_smaller c "oneOf" o eq_refl eq_refl Hf Hg) as [Hlt Hg'].
      apply IH; [lia | assumption]. }
    destruct (nonEmpty (field c "anyOf")).
    { destruct (field c "anyOf") as [o |] eqn:Hf; [| eauto].
      destruct (first_entry_smaller c "anyOf" o eq_refl eq_refl Hf Hg) as [Hlt Hg'].
      apply IH; [lia | assumption]. }
    eauto.
Qed.

End Termination.

Lemma resolve_terminates {rt : JsRuntime} (rootSchema schema : json)
    (seen : list location) :
  allOfFree rootSchema = true -> allOfFree schema = true ->
  exists fuel r, resolveSchemaNode fuel (Some schema) rootSchema seen = Ok r.
Proof.
  intros Hroot Hschema.
  set (R := refs rootSchema ++ refs schema).
  exists (S (size schema + unseen R seen * S (size rootSchema))).
  apply (resolve_terminates_bound rootSchema R Hroot).
  - intros s Hs. apply in_or_app. now left.
  - simpl. lia.
  - intros v [= <-]. split; [assumption |]. intros s Hs. apply in_or_app. now right.
Qed.

(** *** Schemas in which no [allOf] leads back to itself *)

Lemma partsOf_self v : In v (partsOf v).
Proof. destruct v; now left. Qed.

Lemma partsOf_array l :
  partsOf (JArr l) = JArr l :: flat_map partsOf l.
Proof. reflexivity. Qed.

Lemma partsOf_object ms :
  partsOf (JObj ms) = JObj ms :: flat_map (fun kv => partsOf (snd kv)) ms.
Proof.
  cbn [partsOf]. f_equal. induction ms as [| [k x] r IH]; [reflexivity |].
  cbn [flat_map snd]. now rewrite IH.
Qed.

Lemma json_nested_ind (P : json -> Prop) :
  P JNull -> (forall b, P (JBool b)) -> (forall n, P (JNum n)) ->
  (forall s, P (JStr s)) ->
  (forall l, Forall P l -> P (JArr l)) ->
  (forall ms, Forall (fun kv => P (snd kv)) ms -> P (JObj ms)) ->
  (forall h, P (JHost h)) ->
  forall v, P v.
Proof.
  intros Hnull Hbool Hnum Hstr Harr Hobj Hhost.
  fix IH 1.
  intros [| b | n | s | l | ms | h];
    [exact Hnull | apply Hbool | apply Hnum | apply Hstr | | | apply Hhost].
  - apply Harr. induction l as [| x r IHl]; constructor; [apply IH | exact IHl].
  - apply Hobj. induction ms as [| [k x] r IHl]; constructor;
      [apply IH | exact IHl].
Qed.

Lemma partsOf_trans : forall v x y,
  In x (partsOf v) -> In y (partsOf x) -> In y (partsOf v).
Proof.
  induction v as [| b | n | s | l IH | ms IH | h] using json_nested_ind;
    intros x y Hx Hy;
    try (destruct Hx as [<- | []]; exact Hy).
  - rewrite partsOf_array in *. destruct Hx as [<- | Hx].
    + now rewrite partsOf_array in Hy.
    + right. apply in_flat_map in Hx. destruct Hx as (e & He & Hx).
      apply in_flat_map. exists e. split; [exact He |].
      rewrite Forall_forall in IH. now apply (IH e He x).
  - rewrite partsOf_object in *. destruct Hx as [<- | Hx].
    + now rewrite partsOf_object in Hy.
    + right. apply in_flat_map in Hx. destruct Hx as (e & He & Hx).
      apply in_flat_map. exists e. split; [exact He |].
      rewrite Forall_forall in IH. now apply (IH e He x).
Qed.

Lemma element_below l x : In x l -> below x (JArr l).
Proof.
  intros H. apply In_nth_error in H. destruct H as [i H].
  now apply nth_error_below in H.
Qed.

Lemma entry_below ms k x : In (k, x) ms -> below x (JObj ms).
Proof.
  induction ms as [| [k' y] r IH]; [intros [] |].
  intros [[= -> ->] | H].
  - repeat split; simpl; try lia.
    + intros s Hs. apply in_or_app. right. apply in_or_app. now left.
    + intros H. apply andb_prop in H. destruct H as [H _].
      apply andb_prop in H. tauto.
  - destruct (IH H) as (H1 & H2 & H3).
    repeat split; simpl in *; try lia.
    + intros s Hs. apply in_or_app. right. apply in_or_app. right. now apply H2.
    + intros H'. apply andb_prop in H'. destruct H' as [_ H']. auto.
Qed.

Lemma partsOf_below : forall v x, In x (partsOf v) -> below x v.
Proof.
  induction v as [| b | n | s | l IH | ms IH | h] using json_nested_ind;
    intros x Hx;
    try (destruct Hx as [<- | []]; apply below_refl).
  - rewrite partsOf_array in Hx. destruct Hx as [<- | Hx]; [apply below_refl |].
    apply in_flat_map in Hx. destruct Hx as (e & He & Hx).
    rewrite Forall_forall in IH.
    apply (below_trans _ e); [now apply IH | now apply element_below].
  - rewrite partsOf_object in Hx. destruct Hx as [<- | Hx]; [apply below_refl |].
    apply in_flat_map in Hx. destruct Hx as ([k e] & He & Hx).
    rewrite Forall_forall in IH.
    apply (below_trans _ e); [now apply (IH _ He) | now apply entry_below in He].
Qed.

Lemma lookup_In k ms x : lookup k ms = Some x -> exists k', In (k', x) ms.
Proof.
  induction ms as [| [k' y] r IH]; [discriminate |]. simpl lookup.
  destruct (k' =? k).
  - intros [= ->]. exists k'. now left.
  - intros H. destruct (IH H) as [k'' H']. exists k''. now right.
Qed.

Lemma lookup_part k ms x : lookup k ms = Some x -> In x (partsOf (JObj ms)).
Proof.
  intros H. apply lookup_In in H. destruct H as [k' H].
  rewrite partsOf_object. right. apply in_flat_map.
  exists (k', x). split; [exact H | apply partsOf_self].
Qed.

Lemma nth_error_part l i x : nth_error l i = Some x -> In x (partsOf (JArr l)).
Proof.
  intros H. apply nth_error_In in H.
  rewrite partsOf_array. right. apply in_flat_map.
  exists x. split; [exact H | apply partsOf_self].
Qed.

Lemma charAt_primitive i s x : charAt i s = Some x -> primitive x = true.
Proof.
  unfold charAt. destruct (String.get i s); [| discriminate]. now intros [= <-].
Qed.

Lemma member_part v k x :
  member v k = Some x -> In x (partsOf v) \/ primitive x = true.
Proof.
  destruct v as [| b | n | s | l | ms | h]; unfold member; try discriminate.
  - destruct (k =? "length"); [intros [= <-]; now right |].
    destruct (index_of_key k); [| discriminate].
    intros H. right. now apply charAt_primitive in H.
  - destruct (k =? "length"); [intros [= <-]; now right |].
    destruct (index_of_key k); [| discriminate].
    intros H. left. now apply nth_error_part in H.
  - intros H. left. now apply lookup_part in H.
Qed.

Lemma member_primitive v k x :
  primitive v = true -> member v k = Some x -> primitive x = true.
Proof.
  destruct v as [| b | n | s | l | ms | h]; try discriminate; intros _;
    unfold member; try discriminate.
  destruct (k =? "length"); [now intros [= <-] |].
  destruct (index_of_key k); [| discriminate]. apply charAt_primitive.
Qed.

Lemma at_index_part v i x :
  at_index v i = Some x -> In x (partsOf v) \/ primitive x = true.
Proof.
  destruct v as [| b | n | s | l | ms | h]; unfold at_index; try discriminate.
  - intros H. right. now apply charAt_primitive in H.
  - intros H. left. now apply nth_error_part in H.
  - intros H. left. now apply lookup_part in H.
Qed.

Lemma inheritedMember_primitive {rt : JsRuntime} k name x :
  inheritedMember k name = Some x -> primitive x = true.
Proof.
  unfold inheritedMember. destruct (name =? "__proto__"); [now intros [= <-] |].
  destruct (inherits k name); [now intros [= <-] | discriminate].
Qed.

Lemma prototypeMember_primitive {rt : JsRuntime} k name x :
  prototypeMember k name = Some x -> primitive x = true.
Proof.
  unfold prototypeMember. destruct (name =? "__proto__").
  - intros [= <-]. now destruct k.
  - destruct ((name =? "length") && _); [now intros [= <-] |].
    destruct (inherits k name); [now intros [= <-] | discriminate].
Qed.

Lemma get_part {rt : JsRuntime} v name x :
  get v name = Some x -> In x (partsOf v) \/ primitive x = true.
Proof.
  unfold get. destruct (member v name) as [y |] eqn:Hown.
  - intros [= <-]. now apply member_part in Hown.
  - intros H. right.
    destruct v as [| b | n | s | l | ms | [| k]]; cbn [kindOf] in H;
      try discriminate; try (now apply inheritedMember_primitive in H).
    now apply prototypeMember_primitive in H.
Qed.

Lemma get_primitive {rt : JsRuntime} v name x :
  primitive v = true -> get v name = Some x -> primitive x = true.
Proof.
  intros Hv. unfold get. destruct (member v name) as [y |] eqn:Hown.
  - intros [= <-]. now apply (member_primitive v name).
  - intros H.
    destruct v as [| b | n | s | l | ms | [| k]]; cbn [kindOf] in H;
      try discriminate; try (now apply inheritedMember_primitive in H).
    now apply prototypeMember_primitive in H.
Qed.

Lemma walk_part {rt : JsRuntime} parts : forall v x,
  walk (Some v) parts = Some x ->
  (In x (partsOf v) \/ primitive x = true) /\
  (primitive v = true -> primitive x = true).
Proof.
  induction parts as [| part rest IH]; intros v x; cbn [walk getOf].
  - intros [= ->]. split; [left; apply partsOf_self | auto].
  - destruct (negb (truthy (Some v)) || negb (typeofObject (Some v)));
      [discriminate |].
    destruct (get v part) as [next |] eqn:Hnext; [| discriminate].
    intros H. destruct (IH _ _ H) as [Hpart Hprim]. split.
    + destruct (get_part _ _ _ Hnext) as [Hin | Hp]; [| right; auto].
      destruct Hpart as [Hx | Hx]; [left | now right].
      now apply (partsOf_trans v next x).
    + intros Hv. apply Hprim. now apply (get_primitive v part).
Qed.

Lemma resolvePointer_part {rt : JsRuntime} root ref x :
  resolvePointer root ref = Some x -> In x (partsOf root) \/ primitive x = true.
Proof.
  unfold resolvePointer. destruct (negb (startsWith ref "#/")); [discriminate |].
  intros H. now apply walk_part in H.
Qed.

Lemma resolve_primitive {rt : JsRuntime} fuel v rootSchema seen :
  primitive v = true ->
  resolveSchemaNode (S fuel) (Some v) rootSchema seen =
  Ok (if truthy (Some v) then Some v else None).
Proof.
  intros Hv. rewrite resolveSchemaNode_eq.
  destruct (truthy (Some v)) eqn:Ht; [| reflexivity]. cbn [negb].
  destruct v as [| b | n | s | l | ms | h]; try discriminate; try reflexivity.
Qed.

Lemma mapM_no_overflow {A B : Type} (f : A -> result B) (l : list A) :
  (forall x, In x l -> f x <> OutOfFuel) -> mapM f l <> OutOfFuel.
Proof.
  induction l as [| x r IH]; intros H; [discriminate |]. cbn [mapM].
  destruct (f x) as [y | |] eqn:Hx; cbn [bind]; try discriminate.
  - destruct (mapM f r) as [ys | |] eqn:Hr; cbn [bind]; try discriminate.
    apply IH. intros z Hz. apply H. now right.
  - exfalso. apply (H x); [now left | exact Hx].
Qed.

Lemma mergeSchemas_no_overflow (schemas : list json) :
  mergeSchemas schemas <> OutOfFuel.
Proof.
  assert (Hstep : forall merged schema, mergeStep merged schema <> OutOfFuel).
  { intros merged schema. unfold mergeStep.
    destruct (negb (truthy (Some schema))); [discriminate |]. cbv zeta.
    unfold mergeRequired. destruct (truthy (member schema "required"));
      [| discriminate].
    cbv zeta. destruct (iterate _); [| discriminate].
    destruct (iterate _); discriminate. }
  assert (Hloop : forall l merged, mergeLoop merged l <> OutOfFuel).
  { induction l as [| x r IH]; intros merged; [discriminate |]. cbn [mergeLoop].
    destruct (mergeStep merged x) as [m | |] eqn:Hm; cbn [bind];
      [apply IH | discriminate | now apply Hstep in Hm]. }
  unfold mergeSchemas. destruct schemas as [| x r]; [discriminate |].
  destruct (mergeLoop [] (x :: r)) as [m | |] eqn:Hm; cbn [bind];
    [discriminate | discriminate | now apply Hloop in Hm].
Qed.

Lemma unseen_le R seen : unseen R seen <= List.length R.
Proof. unfold unseen. apply filter_length_le. Qed.

Section Acyclic.
Context {rt : JsRuntime}.
Variable rank : json -> nat.
Variables rootSchema start : json.
Hypothesis Hranked : allOfAcyclic rank rootSchema start.

Lemma scope_below v :
  In v (partsOf rootSchema ++ partsOf start) ->
  size v <= size rootSchema + size start /\
  incl (refs v) (refs rootSchema ++ refs start).
Proof.
  intros H. apply in_app_or in H. destruct H as [H | H];
    apply partsOf_below in H; destruct H as (Hs & Hr & _); split; try lia;
    intros s Hs'; apply in_or_app; [left | right]; auto.
Qed.

Lemma scope_part v x :
  In v (partsOf rootSchema ++ partsOf start) -> In x (partsOf v) ->
  In x (partsOf rootSchema ++ partsOf start).
Proof.
  intros H Hx. apply in_app_or in H. apply in_or_app.
  destruct H as [H | H]; [left | right]; now apply (partsOf_trans _ v).
Qed.

Lemma scope_root x :
  In x (partsOf rootSchema) -> In x (partsOf rootSchema ++ partsOf start).
Proof. intros H. apply in_or_app. now left. Qed.

Lemma resolve_acyclic_bound (fuel : nat) :
  forall v seen,
    In v (partsOf rootSchema ++ partsOf start) ->
    rank v * chainStep rootSchema start + size v +
      unseen (refs rootSchema ++ refs start) seen * S (size rootSchema) < fuel ->
    resolveSchemaNode fuel (Some v) rootSchema seen <> OutOfFuel.
Proof.
  induction fuel as [| fuel IH]; intros v seen Hv Hfuel; [lia |].
  assert (Hopt : forall c seen',
            (forall x, c = Some x ->
               primitive x = true \/
               In x (partsOf rootSchema ++ partsOf start) /\
               rank x * chainStep rootSchema start + size x +
                 unseen (refs rootSchema ++ refs start) seen' *
                   S (size rootSchema) < fuel) ->
            resolveSchemaNode fuel c rootSchema seen' <> OutOfFuel).
  { intros [x |] seen' Hx.
    - destruct (Hx x eq_refl) as [Hp | [Hin Hlt]]; [| now apply IH].
      destruct fuel as [| fuel']; [pose proof (size_pos v); lia |].
      now rewrite resolve_primitive.
    - destruct fuel as [| fuel']; [pose proof (size_pos v); lia |]. discriminate. }
  pose proof (Hranked v Hv) as (HallOf & Href & Hfirst).
  pose proof (scope_below v Hv) as [Hsize Hrefs].
  rewrite resolveSchemaNode_eq.
  destruct (truthy (Some v)) eqn:Hc; cbn [negb]; [| discriminate].
  destruct (hasRef (Some v)) eqn:Hhas.
  - destruct (field (Some v) "$ref") as [[| | | ref | | |] |] eqn:Hf;
      try discriminate.
    destruct (negb (startsWith ref "#")); [discriminate |]. cbv zeta.
    destruct (negb (truthy (resolvePointer rootSchema ref)) ||
              Set_has seen (pointerParts ref)) eqn:Hstop; [discriminate |].
    apply orb_false_elim in Hstop. destruct Hstop as [Htruthy Hnew].
    apply Hopt. intros x Hx.
    destruct (resolvePointer_part _ _ _ Hx) as [Hin | Hp]; [right | now left].
    split; [now apply scope_root |].
    pose proof (partsOf_below _ _ Hin) as (Hs & _).
    pose proof (Href ref x Hf Hx) as Hrank.
    destruct (field_Some_object (Some v) "$ref" _ eq_refl eq_refl Hf) as [ms Hms].
    injection Hms as ->.
    assert (HinR : In ref (refs rootSchema ++ refs start)) by (apply Hrefs; now apply ref_in_refs).
    pose proof (unseen_add (refs rootSchema ++ refs start) seen ref HinR Hnew) as Hlt.
    pose proof (size_pos (JObj ms)).
    pose proof (Nat.mul_le_mono_r _ _ (chainStep rootSchema start) Hrank).
    pose proof (Nat.mul_le_mono_r _ _ (S (size rootSchema)) Hlt).
    lia.
  - destruct (nonEmpty (field (Some v) "allOf")).
    { destruct (field (Some v) "allOf") as [[| | | | entries | |] |] eqn:Hf;
        try discriminate.
      destruct (mapM _ entries) as [bs | |] eqn:Hm; cbn [bind];
        [apply mergeSchemas_no_overflow | discriminate |].
      exfalso. revert Hm. apply mapM_no_overflow. intros e He.
      apply Hopt. intros x [= <-]. right.
      assert (Hin : In e (partsOf rootSchema ++ partsOf start)).
      { apply (scope_part v); [exact Hv |].
        destruct (member_part _ _ _ Hf) as [Hpart | Hp]; [| discriminate].
        apply (partsOf_trans v (JArr entries)); [exact Hpart |].
        rewrite partsOf_array. right. apply in_flat_map.
        exists e. split; [exact He | apply partsOf_self]. }
      split; [exact Hin |].
      pose proof (HallOf entries e Hf He) as Hrank.
      pose proof (scope_below e Hin) as [Hse _].
      pose proof (unseen_le (refs rootSchema ++ refs start) []) as Hu. pose proof (size_pos v).
      pose proof (Nat.mul_le_mono_r _ _ (chainStep rootSchema start) Hrank).
      pose proof (Nat.mul_le_mono_r _ _ (S (size rootSchema)) Hu).
      assert (chainStep rootSchema start =
              S (size rootSchema + size start +
                 List.length (refs rootSchema ++ refs start) * S (size rootSchema))) by reflexivity.
      lia. }
    assert (Hcomposition : forall k composition,
              (k = "oneOf" \/ k = "anyOf") ->
              field (Some v) k = Some composition ->
              resolveSchemaNode fuel (at_index composition 0) rootSchema seen <>
              OutOfFuel).
    { intros k composition Hk Hf. apply Hopt. intros x Hx.
      assert (Hkk : (k =? "length") = false /\ index_of_key k = None)
        by (destruct Hk as [-> | ->]; split; reflexivity).
      destruct Hkk as [Hk1 Hk2].
      destruct (field_Some_object (Some v) k _ Hk1 Hk2 Hf) as [ms Hms].
      injection Hms as ->. cbn [field member] in Hf.
      destruct (lookup_below _ _ _ Hf) as [_ Hlt].
      pose proof (at_index_below _ _ _ Hx) as (Hsx & _).
      destruct (at_index_part _ _ _ Hx) as [Hin | Hp]; [right | now left].
      split.
      - apply (scope_part (JObj ms)); [exact Hv |].
        apply (partsOf_trans _ composition); [| exact Hin].
        now apply lookup_part in Hf.
      - assert (Hrank : rank x <= rank (JObj ms)).
        { apply (Hfirst composition x); [| exact Hx].
          destruct Hk as [-> | ->]; [left | right]; exact Hf. }
        pose proof (Nat.mul_le_mono_r _ _ (chainStep rootSchema start) Hrank).
        lia. }
    destruct (nonEmpty (field (Some v) "oneOf")).
    { destruct (field (Some v) "oneOf") as [o |] eqn:Hf; [| discriminate].
      apply (Hcomposition "oneOf"); auto. }
    destruct (nonEmpty (field (Some v) "anyOf")).
    { destruct (field (Some v) "anyOf") as [o |] eqn:Hf; [| discriminate].
      apply (Hcomposition "anyOf"); auto. }
    discriminate.
Qed.

Lemma resolve_acyclic (seen : list location) (fuel : nat) :
  depthBound rank rootSchema start <= fuel ->
  resolveSchemaNode fuel (Some start) rootSchema seen <> OutOfFuel.
Proof.
  intros Hfuel. apply resolve_acyclic_bound.
  - apply in_or_app. right. apply partsOf_self.
  - pose proof (unseen_le (refs rootSchema ++ refs start) seen) as Hu.
    pose proof (Nat.mul_le_mono_r _ _ (S (size rootSchema)) Hu).
    assert (chainStep rootSchema start =
            S (size rootSchema + size start +
               List.length (refs rootSchema ++ refs start) * S (size rootSchema))) by reflexivity.
    unfold depthBound in Hfuel. lia.
Qed.

End Acyclic.

Lemma last_cons {A : Type} (l : list A) : forall a d,
  List.last (a :: l) d = List.last l a.
Proof.
  induction l as [| x r IH]; intros a d; [reflexivity |].
  change (List.last (a :: x :: r) d) with (List.last (x :: r) d).
  now rewrite !IH.
Qed.

Section Chains.
Context {rt : JsRuntime}.

Lemma chainKey_eqb (i j : nat) : (chainKey i =? chainKey j) = (i =? j)%nat.
Proof.
  revert j. induction i as [| i IH]; intros [| j]; try reflexivity.
  - simpl. now destruct j.
  - simpl. now destruct i.
  - simpl. apply IH.
Qed.

Lemma split_chainKey (i : nat) : split "/" (chainKey i) = [chainKey i].
Proof.
  induction i as [| i IH]; [reflexivity |].
  change (chainKey (S i)) with (String "x" (chainKey i)).
  cbn [split]. change (Ascii.eqb "x" "/") with false. cbv iota. now rewrite IH.
Qed.

Lemma replace2_chainKey (b c : ascii) (i : nat) :
  replace2 "~" b c (chainKey i) = chainKey i.
Proof.
  induction i as [| i IH]; [reflexivity |].
  change (chainKey (S i)) with (String "x" (chainKey i)).
  cbn [replace2]. change (Ascii.eqb "x" "~") with false. cbv iota. now rewrite IH.
Qed.

Lemma pointerParts_chainKey (i : nat) :
  pointerParts ("#/" ++ chainKey i) = [chainKey i].
Proof.
  unfold pointerParts. change (slice 2 ("#/" ++ chainKey i)) with (chainKey i).
  rewrite split_chainKey. unfold unescape. simpl map.
  now rewrite !replace2_chainKey.
Qed.

Lemma lookup_chainMembers (links : nat) : forall i d,
  d <= links ->
  lookup (chainKey (i + d)) (chainMembers links i) =
  Some (if (d <? links)%nat then chainLink (S (i + d)) else chainLeaf).
Proof.
  induction links as [| links IH]; intros i d Hd.
  - assert (d = 0) by lia. subst d. rewrite Nat.add_0_r. simpl.
    now rewrite String.eqb_refl.
  - simpl. rewrite chainKey_eqb. destruct d as [| d].
    + rewrite Nat.add_0_r, Nat.eqb_refl. reflexivity.
    + replace (i =? i + S d)%nat with false by (symmetry; apply Nat.eqb_neq; lia).
      replace (i + S d) with (S i + d) by lia.
      rewrite IH by lia. reflexivity.
Qed.

Lemma resolvePointer_chain (n j : nat) :
  j <= n ->
  resolvePointer (chainRoot n) ("#/" ++ chainKey j) =
  Some (if (j <? n)%nat then chainLink (S j) else chainLeaf).
Proof.
  intros Hj. unfold resolvePointer.
  change (startsWith ("#/" ++ chainKey j) "#/") with true.
  rewrite pointerParts_chainKey. unfold chainRoot.
  cbn [walk negb truthy typeofObject orb getOf]. unfold get. cbn [member].
  pose proof (lookup_chainMembers n 0 j Hj) as Hl. simpl Nat.add in Hl.
  rewrite Hl. reflexivity.
Qed.

Lemma chainSeen_fresh (j i : nat) : j <= i -> Set_has (chainSeen j) [chainKey i] = false.
Proof.
  induction j as [| j IH]; intros Hi; [reflexivity |].
  simpl. rewrite IH by lia. rewrite orb_false_r.
  unfold location_eqb.
  destruct (list_eq_dec string_dec [chainKey i] [chainKey j]) as [E | _];
    [| reflexivity].
  injection E as E. apply String.eqb_eq in E. rewrite chainKey_eqb in E.
  apply Nat.eqb_eq in E. lia.
Qed.

(** The room a chain needs: one call for each node on the way. *)
Lemma resolve_chain (n d : nat) : forall j fuel,
  j + d = n ->
  resolveSchemaNode fuel (Some (chainLink j)) (chainRoot n) (chainSeen j) =
  if (fuel <? d + 2)%nat then OutOfFuel else Ok (Some chainLeaf).
Proof.
  induction d as [| d IH]; intros j fuel Hj.
  - destruct fuel as [| fuel]; [reflexivity |].
    rewrite resolveSchemaNode_eq.
    change (hasRef (Some (chainLink j))) with true.
    change (truthy (Some (chainLink j))) with true.
    change (field (Some (chainLink j)) "$ref") with (Some (JStr ("#/" ++ chainKey j))).
    change (startsWith ("#/" ++ chainKey j) "#") with true.
    cbv zeta. simpl negb. cbv iota.
    rewrite resolvePointer_chain, pointerParts_chainKey, chainSeen_fresh by lia.
    replace (j <? n)%nat with false by (symmetry; apply Nat.ltb_ge; lia).
    change (negb (truthy (Some chainLeaf)) || false) with false. cbv iota.
    destruct fuel as [| fuel]; reflexivity.
  - destruct fuel as [| fuel]; [reflexivity |].
    rewrite resolveSchemaNode_eq.
    change (hasRef (Some (chainLink j))) with true.
    change (truthy (Some (chainLink j))) with true.
    change (field (Some (chainLink j)) "$ref") with (Some (JStr ("#/" ++ chainKey j))).
    change (startsWith ("#/" ++ chainKey j) "#") with true.
    cbv zeta. simpl negb. cbv iota.
    rewrite resolvePointer_chain, pointerParts_chainKey, chainSeen_fresh by lia.
    replace (j <? n)%nat with true by (symmetry; apply Nat.ltb_lt; lia).
    change (negb (truthy (Some (chainLink (S j)))) || false) with false. cbv iota.
    change ([chainKey j] :: chainSeen j) with (chainSeen (S j)).
    rewrite IH by lia. reflexivity.
Qed.

Lemma chain_resolves (n : nat) :
  resolveSchemaNode (n + 2) (Some (chainLink 0)) (chainRoot n) [] = Ok (Some chainLeaf).
Proof.
  pose proof (resolve_chain n n 0 (n + 2) eq_refl) as H.
  cbn [chainSeen] in H. rewrite H. now rewrite Nat.ltb_irrefl.
Qed.

Lemma chain_never_absent (n fuel : nat) :
  resolveSchemaNode fuel (Some (chainLink 0)) (chainRoot n) [] <> Ok None.
Proof.
  pose proof (resolve_chain n n 0 fuel eq_refl) as H.
  cbn [chainSeen] in H. rewrite H.
  destruct (fuel <? n + 2)%nat; discriminate.
Qed.

Lemma startsWith_hash (ref : string) :
  startsWith ref "#/" = true -> startsWith ref "#" = true.
Proof.
  destruct ref as [| a r]; [discriminate |].
  change (startsWith (String a r) "#/") with (Ascii.eqb a "#" && startsWith r "/").
  change (startsWith (String a r) "#") with (Ascii.eqb a "#" && true).
  destruct (Ascii.eqb a "#"); [reflexivity | discriminate].
Qed.

(** A node whose [$ref] leads to a node with the same [$ref]. *)
Lemma resolve_self_reference (fuel : nat) (schema : option json)
    (rootSchema target : json) (ref : string) (seen : list location) :
  field schema "$ref" = Some (JStr ref) ->
  resolvePointer rootSchema ref = Some target ->
  truthy (Some target) = true ->
  field (Some target) "$ref" = Some (JStr ref) ->
  resolveSchemaNode (S (S fuel)) schema rootSchema seen = Ok (Some target).
Proof.
  intros Href Hptr Htruthy Hself.
  assert (Hlocal : startsWith ref "#" = true).
  { unfold resolvePointer in Hptr.
    destruct (startsWith ref "#/") eqn:H; [| discriminate].
    now apply startsWith_hash. }
  assert (Hne : (ref =? "") = false) by (destruct ref; [discriminate | reflexivity]).
  assert (Hstep : forall seen', Set_has seen' (pointerParts ref) = true ->
            resolveSchemaNode (S fuel) (Some target) rootSchema seen' = Ok (Some target)).
  { intros seen' Hseen. rewrite resolveSchemaNode_eq. rewrite Htruthy.
    unfold hasRef. rewrite Hself. cbn [truthy isString]. rewrite Hne.
    cbn [negb andb]. rewrite Hlocal. cbn [negb]. cbv zeta.
    rewrite Hptr, Htruthy, Hseen. reflexivity. }
  rewrite resolveSchemaNode_eq.
  destruct (field_Some_object schema "$ref" _ eq_refl eq_refl Href) as [ms ->].
  unfold hasRef. rewrite Href. cbn [truthy isString]. rewrite Hne.
  cbn [negb andb]. rewrite Hlocal. cbn [negb]. cbv zeta.
  rewrite Hptr, Htruthy. cbn [negb orb].
  destruct (Set_has seen (pointerParts ref)) eqn:Hseen; [reflexivity |].
  apply Hstep. unfold Set_has. cbn [existsb]. now rewrite location_eqb_refl.
Qed.

(** *** Chains of references *)

Lemma resolve_concrete (fuel : nat) (v rootSchema : json) (seen : list location) :
  concrete v = true ->
  resolveSchemaNode (S fuel) (Some v) rootSchema seen = Ok (Some v).
Proof.
  unfold concrete. intros H.
  apply andb_prop in H. destruct H as [H H5].
  apply andb_prop in H. destruct H as [H H4].
  apply andb_prop in H. destruct H as [H H3].
  apply andb_prop in H. destruct H as [H1 H2].
  apply negb_true_iff in H2, H3, H4, H5.
  rewrite resolveSchemaNode_eq, H1, H2. cbn [negb field].
  now rewrite H3, H4, H5.
Qed.

Lemma resolve_any_chain (rootSchema : json) (links : list (string * json)) :
  forall schema seen fuel,
    isChain rootSchema schema links ->
    nonCyclic seen links ->
    concrete (chainEnd schema links) = true ->
    resolveSchemaNode fuel (Some schema) rootSchema seen =
    if (fuel <=? List.length links)%nat then OutOfFuel
    else Ok (Some (chainEnd schema links)).
Proof.
  induction links as [| [ref target] rest IH]; intros schema seen fuel Hchain Hnew Hend.
  - destruct fuel as [| fuel]; [reflexivity |]. cbn [List.length Nat.leb].
    now apply resolve_concrete.
  - destruct fuel as [| fuel]; [reflexivity |].
    destruct Hchain as (Href & Hptr & Htruthy & Hrest).
    destruct Hnew as [Hdup Hseen]. cbn [map fst] in Hdup.
    inversion Hdup as [| ? ? Hfresh Hdup']; subst.
    inversion Hseen as [| ? ? Hhere Hseen']; subst. cbn [fst] in Hhere.
    assert (Hlocal : startsWith ref "#" = true).
    { unfold resolvePointer in Hptr.
      destruct (startsWith ref "#/") eqn:H; [| discriminate].
      now apply startsWith_hash. }
    assert (Hne : (ref =? "") = false)
      by (destruct ref; [discriminate | reflexivity]).
    destruct (field_Some_object (Some schema) "$ref" _ eq_refl eq_refl Href)
      as [ms Hms].
    injection Hms as ->.
    rewrite resolveSchemaNode_eq. unfold hasRef. cbn [field]. rewrite Href.
    cbn [truthy isString]. rewrite Hne. cbn [negb andb]. rewrite Hlocal.
    cbn [negb]. cbv zeta. rewrite Hptr, Htruthy, Hhere. cbn [negb orb].
    rewrite (IH target (pointerParts ref :: seen) fuel Hrest).
    + cbn [List.length]. change (S fuel <=? S (List.length rest))%nat
        with (fuel <=? List.length rest)%nat.
      unfold chainEnd. cbn [map snd]. 
      now rewrite last_cons.
    + split; [exact Hdup' |]. rewrite Forall_forall in Hseen' |- *.
      intros link Hlink.
      change (Set_has (pointerParts ref :: seen) (pointerParts (fst link)))
        with (location_eqb (pointerParts (fst link)) (pointerParts ref) ||
              Set_has seen (pointerParts (fst link))).
      rewrite (Hseen' link Hlink). rewrite orb_false_r.
      unfold location_eqb.
      destruct (list_eq_dec string_dec (pointerParts (fst link)) (pointerParts ref))
        as [E | _]; [| reflexivity].
      exfalso. apply Hfresh. rewrite <- E.
      apply (in_map (fun link => pointerParts (fst link))). exact Hlink.
    + unfold chainEnd in *. cbn [map snd] in Hend.
      now rewrite last_cons in Hend.
Qed.

Lemma refInAllOf_acyclic :
  allOfAcyclic allOfRank refInAllOf refInAllOf.
Proof.
  intros v Hv. cbn in Hv.
  repeat (destruct Hv as [<- | Hv]); try contradiction;
    (split; [| split]);
    try (intros entries entry Hm Hin; cbn in Hm; try discriminate;
         injection Hm as <-; destruct Hin as [<- | []]; cbv; lia);
    try (intros ref target Hm Hp; cbn in Hm; try discriminate;
         injection Hm as <-; cbn in Hp; injection Hp as <-; cbv; lia);
    try (intros composition first [Hm | Hm] Hat; cbn in Hm; discriminate).
Qed.

End Chains.




(** ** The examples of the specification *)

(** * Further properties of the code *)

(** ** Paths and patterns *)

Lemma replaceChar_absent (a b : ascii) (s : string) :
  contains a s = false -> replaceChar a b s = s.
Proof.
  induction s as [| x r IH]; [reflexivity |]. simpl.
  intros H. apply orb_false_elim in H. destruct H as [Hx Hr].
  now rewrite Hx, IH.
Qed.

Lemma contains_replaceChar (a b : ascii) (s : string) :
  Ascii.eqb b a = false -> contains a (replaceChar a b s) = false.
Proof.
  intros Hba. induction s as [| x r IH]; [reflexivity |]. simpl.
  rewrite IH, orb_false_r. destruct (Ascii.eqb x a) eqn:Hx; assumption.
Qed.

Lemma length_replaceChar (a b : ascii) (s : string) :
  String.length (replaceChar a b s) = String.length s.
Proof. induction s as [| x r IH]; simpl; congruence. Qed.

(** X1. [toPosixPath] leaves no backslash in a path: the result has none, a
    path without backslashes is returned as it is, a second application
    changes nothing, and the length of the path is kept. *)
Theorem toPosixPath_replaces_every_backslash :
  (forall path, contains "\" (toPosixPath path) = false) /\
  (forall path, contains "\" path = false -> toPosixPath path = path) /\
  (forall path, toPosixPath (toPosixPath path) = toPosixPath path) /\
  (forall path, String.length (toPosixPath path) = String.length path).
Proof.
  unfold toPosixPath. split; [| split; [| split]].
  - intros path. now apply contains_replaceChar.
  - intros path. apply replaceChar_absent.
  - intros path. apply replaceChar_absent. now apply contains_replaceChar.
  - intros path. apply length_replaceChar.
Qed.

(** X2. [normalizePattern] returns a pattern that has a slash: a pattern
    with a slash is returned as it is, any other pattern is prefixed with
    [**/], and a second application changes nothing. *)
Theorem normalizePattern_has_slash :
  (forall pattern, contains "/" (normalizePattern pattern) = true) /\
  (forall pattern,
     normalizePattern (normalizePattern pattern) = normalizePattern pattern) /\
  (forall pattern,
     contains "/" pattern = true -> normalizePattern pattern = pattern) /\
  (forall pattern,
     contains "/" pattern = false ->
     normalizePattern pattern = ("**/" ++ pattern)%string).
Proof.
  assert (H1 : forall pattern, contains "/" (normalizePattern pattern) = true).
  { intros pattern. unfold normalizePattern.
    destruct (contains "/" pattern) eqn:H; [exact H | reflexivity]. }
  split; [exact H1 |]. split; [| split].
  - intros pattern. unfold normalizePattern at 1. now rewrite H1.
  - intros pattern H. unfold normalizePattern. now rewrite H.
  - intros pattern H. unfold normalizePattern. now rewrite H.
Qed.

(** ** The regular expression of a pattern *)

Lemma startsWith_cons (a b : ascii) (s p : string) :
  startsWith (String a s) (String b p) = Ascii.eqb a b && startsWith s p.
Proof. reflexivity. Qed.

Lemma replaceAllFrom_step (pat by_ : string) (x : ascii) (t : string) :
  startsWith (String x t) pat = false ->
  replaceAllFrom pat by_ 0 (String x t) =
  String x (replaceAllFrom pat by_ 0 t).
Proof. intros H. cbn [replaceAllFrom]. now rewrite H. Qed.

(** A literal that begins with a backslash and a character outside the
    class does not occur in an escaped pattern that had no backslash. *)
Lemma replaceAll_escapeRegex (w : ascii) (q by_ pattern : string) :
  isRegexSpecial w = false ->
  contains "\" pattern = false ->
  replaceAll (String "\" (String w q)) by_ (escapeRegex pattern) =
  escapeRegex pattern.
Proof.
  intros Hw. unfold replaceAll.
  induction pattern as [| c r IH]; [reflexivity |].
  intros Hc. cbn [contains] in Hc. apply orb_false_elim in Hc.
  destruct Hc as [Hc Hr]. specialize (IH Hr).
  assert (Hstep : forall t,
            replaceAllFrom (String "\" (String w q)) by_ 0 (String c t) =
            String c (replaceAllFrom (String "\" (String w q)) by_ 0 t)).
  { intros t. apply replaceAllFrom_step. now rewrite startsWith_cons, Hc. }
  cbn [escapeRegex]. destruct (isRegexSpecial c) eqn:Hs.
  - assert (Hcw : Ascii.eqb c w = false).
    { destruct (Ascii.eqb_spec c w) as [-> | _]; [congruence | reflexivity]. }
    rewrite replaceAllFrom_step.
    + now rewrite Hstep, IH.
    + rewrite !startsWith_cons, Hcw. now rewrite andb_false_r.
  - now rewrite Hstep, IH.
Qed.

Lemma escapeRegex_plain (pattern : string) :
  (forall c, isRegexSpecial c = true -> contains c pattern = false) ->
  escapeRegex pattern = pattern.
Proof.
  induction pattern as [| c r IH]; [reflexivity |]. intros H.
  cbn [escapeRegex]. destruct (isRegexSpecial c) eqn:Hs.
  - specialize (H c Hs). cbn [contains] in H. now rewrite Ascii.eqb_refl in H.
  - rewrite IH; [reflexivity |]. intros d Hd. specialize (H d Hd).
    cbn [contains] in H. now apply orb_false_elim in H.
Qed.

Lemma patternRegexSource_no_backslash (pattern : string) :
  contains "\" pattern = false ->
  patternRegexSource pattern = ("^" ++ escapeRegex pattern ++ "$")%string.
Proof.
  intros H. unfold patternRegexSource, wildcardsToRegex.
  rewrite (replaceAll_escapeRegex "*" "\*" ".*" pattern eq_refl H).
  rewrite (replaceAll_escapeRegex "*" "" "[^/]*" pattern eq_refl H).
  now rewrite (replaceAll_escapeRegex "?" "" "." pattern eq_refl H).
Qed.

(** X3. The wildcards of a mapping pattern are not translated.  For a
    pattern without a backslash the three replacements of [matchesPattern]
    find nothing: the source of the regular expression is the pattern with
    its special characters escaped, between [^] and [$]; [*] and [?] are
    left to the regular expression as they are.  A pattern of letters,
    wildcards and slashes is its own regular expression. *)
Theorem wildcards_are_not_translated :
  (forall pattern,
     contains "\" pattern = false ->
     patternRegexSource pattern = ("^" ++ escapeRegex pattern ++ "$")%string) /\
  (forall pattern,
     (forall c, isRegexSpecial c = true -> contains c pattern = false) ->
     patternRegexSource pattern = ("^" ++ pattern ++ "$")%string).
Proof.
  split; [apply patternRegexSource_no_backslash |].
  intros pattern H. rewrite patternRegexSource_no_backslash.
  - now rewrite escapeRegex_plain.
  - now apply H.
Qed.

(** The pattern [**/*.user.json] and the pattern [a?/**]. *)
Lemma wildcards_are_not_translated_witness :
  patternRegexSource "**/*.user.json" = "^**/*\.user\.json$" /\
  patternRegexSource "a?/**" = "^a?/**$".
Proof.
  split.
  - apply (proj1 wildcards_are_not_translated "**/*.user.json"). reflexivity.
  - apply (proj2 wildcards_are_not_translated "a?/**").
    intros c Hc. unfold isRegexSpecial in Hc. cbn [existsb] in Hc.
    repeat (apply orb_prop in Hc; destruct Hc as [Hc | Hc];
            [apply Ascii.eqb_eq in Hc; subst c; reflexivity |]).
    discriminate.
Defined.

(** ** The mappings *)

Section MappingFacts.
Variable RegExp_test : string -> string -> result bool.

Lemma findSchemaMapping_eq (path : string) (mappings : list SchemaMapping) :
  findSchemaMapping RegExp_test path mappings =
  findSchemaMappingIn RegExp_test (toPosixPath path) mappings.
Proof. destruct mappings; reflexivity. Qed.

Lemma findSchemaMappingIn_found (path : string) (mappings : list SchemaMapping)
    (found : string) :
  findSchemaMappingIn RegExp_test path mappings = Ok (Some found) ->
  exists before mapping after,
    mappings = before ++ mapping :: after /\
    schemaPath mapping = found /\ usable mapping = true /\
    matchesPattern RegExp_test path (normalizePattern (pattern mapping)) = Ok true /\
    Forall (fun m => usable m = false \/
                     matchesPattern RegExp_test path (normalizePattern (pattern m)) =
                     Ok false) before.
Proof.
  induction mappings as [| m rest IH]; [discriminate |].
  cbn [findSchemaMappingIn].
  destruct ((pattern m =? "") || (schemaPath m =? "")) eqn:Hskip.
  - intros H. destruct (IH H) as (before & mapping & after & -> & Hf & Hu & Hm & Hb).
    exists (m :: before), mapping, after. repeat split; auto.
    constructor; [| assumption]. left. unfold usable.
    apply orb_prop in Hskip. destruct Hskip as [-> | ->]; [reflexivity |].
    now rewrite andb_false_r.
  - destruct (matchesPattern RegExp_test path (normalizePattern (pattern m)))
      as [[|] | |] eqn:Hm; cbn [bind]; try discriminate.
    + intros [= <-]. exists [], m, rest. repeat split; auto.
      unfold usable. apply orb_false_elim in Hskip. destruct Hskip as [-> ->].
      reflexivity.
    + intros H. destruct (IH H) as (before & mapping & after & -> & Hf & Hu & Hm' & Hb).
      exists (m :: before), mapping, after. repeat split; auto.
Qed.

Lemma findSchemaMappingIn_first (path : string) (before after : list SchemaMapping)
    (mapping : SchemaMapping) :
  Forall (fun m => usable m = false \/
                   matchesPattern RegExp_test path (normalizePattern (pattern m)) =
                   Ok false) before ->
  usable mapping = true ->
  matchesPattern RegExp_test path (normalizePattern (pattern mapping)) = Ok true ->
  findSchemaMappingIn RegExp_test path (before ++ mapping :: after) =
  Ok (Some (schemaPath mapping)).
Proof.
  intros Hb Hu Hm. induction Hb as [| m before Hm0 Hb IH].
  - cbn [app findSchemaMappingIn]. unfold usable in Hu.
    apply andb_prop in Hu. destruct Hu as [Hp Hs].
    apply negb_true_iff in Hp, Hs. rewrite Hp, Hs, Hm. reflexivity.
  - cbn [app findSchemaMappingIn]. destruct Hm0 as [Hm0 | Hm0].
    + unfold usable in Hm0. 
      destruct (pattern m =? ""); [exact IH |].
      destruct (schemaPath m =? ""); [exact IH | discriminate].
    + destruct ((pattern m =? "") || (schemaPath m =? "")); [exact IH |].
      rewrite Hm0. exact IH.
Qed.

Lemma findSchemaMappingIn_nonempty (path : string) (mappings : list SchemaMapping)
    (found : string) :
  findSchemaMappingIn RegExp_test path mappings = Ok (Some found) ->
  (found =? "") = false.
Proof.
  induction mappings as [| m rest IH]; [discriminate |].
  cbn [findSchemaMappingIn].
  destruct ((pattern m =? "") || (schemaPath m =? "")) eqn:Hskip; [exact IH |].
  destruct (matchesPattern RegExp_test path (normalizePattern (pattern m)))
    as [[|] | |]; cbn [bind]; try discriminate; [| exact IH].
  intros [= <-]. now apply orb_false_elim in Hskip.
Qed.

Lemma findSchemaMapping_nonempty (path : string) (mappings : list SchemaMapping)
    (found : string) :
  findSchemaMapping RegExp_test path mappings = Ok (Some found) ->
  (found =? "") = false.
Proof.
  destruct mappings as [| m rest]; [discriminate |].
  apply findSchemaMappingIn_nonempty.
Qed.

(** X4. [findSchemaMapping] returns the schema path of the first mapping
    that has a pattern and a schema path and whose normalized pattern matches
    the path of the document, written with slashes; the mappings before it
    are skipped or do not match. *)
Theorem findSchemaMapping_first_usable_match (asRelativePath : string)
    (mappings : list SchemaMapping) (found : string) :
  findSchemaMapping RegExp_test asRelativePath mappings = Ok (Some found) <->
  exists before mapping after,
    mappings = before ++ mapping :: after /\
    schemaPath mapping = found /\ usable mapping = true /\
    matchesPattern RegExp_test (toPosixPath asRelativePath)
      (normalizePattern (pattern mapping)) = Ok true /\
    Forall (fun m => usable m = false \/
                     matchesPattern RegExp_test (toPosixPath asRelativePath)
                       (normalizePattern (pattern m)) = Ok false) before.
Proof.
  rewrite findSchemaMapping_eq. split.
  - apply findSchemaMappingIn_found.
  - intros (before & mapping & after & -> & <- & Hu & Hm & Hb).
    now apply findSchemaMappingIn_first.
Qed.

End MappingFacts.

Section LocatingFacts.
Variable RegExp_test : string -> string -> result bool.
Variable Uri : Type.
Variable Uri_parse : string -> Uri.
Variable Uri_file : string -> Uri.
Variable Uri_joinPath : Uri -> string -> Uri.
Variable path_isAbsolute : string -> bool.
Variable path_dirname : string -> string.
Variable path_join : string -> string -> string.

(** X5. A matching mapping comes before the [$schema] of the document: its
    schema path is resolved against the workspace folder and the document is
    not consulted.  Without a matching mapping, a [$schema] that is not the
    empty string is resolved against the directory of the document. *)
Theorem mapping_comes_before_schema_property (document : DocumentLocation Uri)
    (asRelativePath : string) (config : ExtensionConfig) (root : Node) :
  resolveSchemaUriForDocument RegExp_test Uri Uri_parse Uri_file Uri_joinPath
    path_isAbsolute path_dirname path_join document asRelativePath config root =
  (mappingPath <- findSchemaMapping RegExp_test asRelativePath
                    (schemaMappings config) ;;
   Ok match mappingPath with
      | Some schemaPath =>
          resolveSchemaUri Uri Uri_parse Uri_file Uri_joinPath
            path_isAbsolute path_dirname path_join
            document schemaPath BaseWorkspace
      | None =>
          match findTopLevelSchemaId root with
          | Some id =>
              if id =? "" then None
              else resolveSchemaUri Uri Uri_parse Uri_file Uri_joinPath
                     path_isAbsolute path_dirname path_join
                     document id BaseDocument
          | None => None
          end
      end).
Proof.
  unfold resolveSchemaUriForDocument.
  destruct (findSchemaMapping RegExp_test asRelativePath (schemaMappings config))
    as [[p |] | |] eqn:Hmap; cbn [bind]; try reflexivity.
  - rewrite (findSchemaMapping_nonempty _ _ _ _ Hmap). reflexivity.
  - destruct (findTopLevelSchemaId root) as [id |]; [| reflexivity].
    destruct (id =? ""); reflexivity.
Qed.

End LocatingFacts.

(** ** The [$schema] of the document *)

Lemma findSchemaIdIn_property (children : list Node) (id : string) :
  findSchemaIdIn children = Some id ->
  exists p, In p children /\ isSchemaProperty p = true.
Proof.
  induction children as [| p rest IH]; [discriminate |].
  cbn [findSchemaIdIn].
  assert (Hrest : findSchemaIdIn rest = Some id ->
                  exists q, In q (p :: rest) /\ isSchemaProperty q = true).
  { intros H. destruct (IH H) as (q & Hq & Hs). exists q. split; [now right | exact Hs]. }
  destruct p as [[] value offset length [[| keyNode [| valueNode tl]] |]];
    try exact Hrest.
  destruct (node_value keyNode) as [[| | | key | | |] |] eqn:Hk; try exact Hrest.
  destruct (node_type valueNode); try exact Hrest.
  destruct (node_value valueNode) as [[| | | v | | |] |]; try exact Hrest.
  destruct (key =? "$schema") eqn:Hkey; [| exact Hrest].
  intros _. eexists. split; [now left |]. cbn [isSchemaProperty].
  now rewrite Hk.
Qed.

Lemma findSchemaIdIn_without (children : list Node) :
  findSchemaIdIn (filter (fun p => negb (isSchemaProperty p)) children) = None.
Proof.
  induction children as [| p rest IH]; [reflexivity |].
  cbn [filter]. destruct (isSchemaProperty p) eqn:Hp; [exact IH |].
  cbn [negb findSchemaIdIn].
  destruct p as [[] value offset length [[| keyNode [| valueNode tl]] |]];
    try exact IH.
  cbn [isSchemaProperty] in Hp.
  destruct (node_value keyNode) as [[| | | key | | |] |]; try exact IH.
  rewrite Hp.
  destruct (node_type valueNode); try exact IH.
  destruct (node_value valueNode) as [[| | | v | | |] |]; exact IH.
Qed.

(** X6. The identifier [findTopLevelSchemaId] returns is read off a
    property of the root object whose key is [$schema], a property that the
    matcher skips; a root without such properties has no identifier. *)
Theorem schema_id_is_a_skipped_property :
  (forall root id,
     findTopLevelSchemaId root = Some id ->
     node_type root = TObject /\
     exists children p,
       node_children root = Some children /\ In p children /\
       isSchemaProperty p = true) /\
  (forall root, findTopLevelSchemaId (withoutSchemaProperty root) = None).
Proof.
  split.
  - intros root id. unfold findTopLevelSchemaId.
    destruct root as [[] value offset length [children |]]; try discriminate.
    cbn [node_type node_children]. intros H.
    destruct (findSchemaIdIn_property _ _ H) as (p & Hp & Hs).
    split; [reflexivity |]. now exists children, p.
  - intros root. destruct root as [[] value offset length [children |]];
      try reflexivity.
    apply findSchemaIdIn_without.
Qed.

(** ** The location of the schema *)

Lemma startsWith_append (s p : string) :
  startsWith s p = true <-> exists rest, s = (p ++ rest)%string.
Proof.
  revert s. induction p as [| b p IH]; intros s.
  - split; [intros _; now exists s | reflexivity].
  - destruct s as [| a s]; [split; [discriminate | intros [rest H]; discriminate] |].
    rewrite startsWith_cons. split.
    + intros H. apply andb_prop in H. destruct H as [Hab Hp].
      apply Ascii.eqb_eq in Hab. subst b. apply IH in Hp. destruct Hp as [rest ->].
      now exists rest.
    + intros [rest H]. injection H as -> ->. rewrite Ascii.eqb_refl.
      apply IH. now exists rest.
Qed.

Lemma restOfScheme_spec (s : string) :
  restOfScheme s = true <->
  exists r rest, allChars isSchemeChar r = true /\ s = (r ++ "://" ++ rest)%string.
Proof.
  induction s as [| c s IH].
  - split; [discriminate |]. intros (r & rest & _ & H). destruct r; discriminate.
  - cbn [restOfScheme]. destruct (isSchemeChar c) eqn:Hc.
    + rewrite IH. split.
      * intros (r & rest & Hr & ->). exists (String c r), rest.
        split; [cbn [allChars]; now rewrite Hc |]. reflexivity.
      * intros (r & rest & Hr & H). destruct r as [| x r].
        { injection H as -> _. discriminate. }
        injection H as -> ->. cbn [allChars] in Hr. apply andb_prop in Hr.
        exists r, rest. tauto.
    + rewrite startsWith_append. split.
      * intros [rest ->]. now exists "", rest.
      * intros (r & rest & Hr & H). destruct r as [| x r].
        { exists rest. exact H. }
        injection H as -> _. cbn [allChars] in Hr. now rewrite Hc in Hr.
Qed.

Lemma hasUrlScheme_spec (schemaId : string) :
  hasUrlScheme schemaId = true <->
  exists scheme rest,
    isScheme scheme = true /\ schemaId = (scheme ++ "://" ++ rest)%string.
Proof.
  destruct schemaId as [| c s].
  - split; [discriminate |]. intros (scheme & rest & Hs & H).
    destruct scheme; discriminate.
  - cbn [hasUrlScheme]. split.
    + intros H. apply andb_prop in H. destruct H as [Hc Hr].
      apply restOfScheme_spec in Hr. destruct Hr as (r & rest & Hr & ->).
      exists (String c r), rest. split; [| reflexivity].
      cbn [isScheme]. now rewrite Hc.
    + intros (scheme & rest & Hs & H). destruct scheme as [| x r]; [discriminate |].
      injection H as -> ->. cbn [isScheme] in Hs. apply andb_prop in Hs.
      destruct Hs as [Hx Hr]. rewrite Hx. apply restOfScheme_spec.
      now exists r, rest.
Qed.

Section LocationFacts.
Variable Uri : Type.
Variable Uri_parse : string -> Uri.
Variable Uri_file : string -> Uri.
Variable Uri_joinPath : Uri -> string -> Uri.
Variable path_isAbsolute : string -> bool.
Variable path_dirname : string -> string.
Variable path_join : string -> string -> string.

Lemma resolveSchemaUri_None (document : DocumentLocation Uri) (schemaId : string)
    (base : Base) :
  resolveSchemaUri Uri Uri_parse Uri_file Uri_joinPath
    path_isAbsolute path_dirname path_join document schemaId base = None <->
  startsWith schemaId "file://" = false /\
  (hasUrlScheme schemaId = true \/
   (path_isAbsolute schemaId = false /\ base = BaseWorkspace /\
    workspaceFolder Uri document = None)).
Proof.
  unfold resolveSchemaUri.
  destruct (startsWith schemaId "file://").
  { split; [discriminate | intros [H _]; discriminate]. }
  destruct (hasUrlScheme schemaId); [tauto |].
  destruct (path_isAbsolute schemaId).
  { split; [discriminate |]. intros [_ [H | [H _]]]; discriminate. }
  destruct base.
  - destruct (workspaceFolder Uri document).
    + split; [discriminate |]. intros [_ [H | (_ & _ & H)]]; discriminate.
    + tauto.
  - split; [discriminate |]. intros [_ [H | (_ & H & _)]]; discriminate.
Qed.

(** X7. [resolveSchemaUri] returns no location in two cases only: the
    identifier begins with a URL scheme other than [file] (a letter, then
    letters, digits, [+], [.] or [-], then [://]), so that a schema on the
    network is never loaded; or the identifier is a relative path to resolve
    against the workspace and the document is in no workspace folder. *)
Theorem schema_location_undefined (document : DocumentLocation Uri)
    (schemaId : string) (base : Base) :
  resolveSchemaUri Uri Uri_parse Uri_file Uri_joinPath
    path_isAbsolute path_dirname path_join document schemaId base = None <->
  startsWith schemaId "file://" = false /\
  ((exists scheme rest,
      isScheme scheme = true /\ schemaId = (scheme ++ "://" ++ rest)%string) \/
   (path_isAbsolute schemaId = false /\ base = BaseWorkspace /\
    workspaceFolder Uri document = None)).
Proof.
  pose proof (resolveSchemaUri_None document schemaId base) as H1.
  pose proof (hasUrlScheme_spec schemaId) as H2.
  tauto.
Qed.

End LocationFacts.

(** ** The schema cache *)

Lemma Map_get_set_same key value cache :
  Map_get key (Map_set key value cache) = Some value.
Proof.
  induction cache as [| [k v] r IH]; cbn [Map_set Map_get].
  - now rewrite String.eqb_refl.
  - destruct (k =? key) eqn:Hk; cbn [Map_get].
    + now rewrite String.eqb_refl.
    + now rewrite Hk.
Qed.

Lemma Map_get_set_other key key' value cache :
  key' <> key -> Map_get key' (Map_set key value cache) = Map_get key' cache.
Proof.
  intros Hne. induction cache as [| [k v] r IH]; cbn [Map_set Map_get].
  - destruct (String.eqb_spec key key'); [congruence | reflexivity].
  - destruct (String.eqb_spec k key) as [-> | Hk]; cbn [Map_get].
    + destruct (String.eqb_spec key key'); [congruence | reflexivity].
    + now rewrite IH.
Qed.

Lemma loadSchema_hit cache key m content cached :
  Map_get key cache = Some cached ->
  number_strict_eq (mtime cached) m = true ->
  loadSchema cache key (Some m) content = (Some (cached_schema cached), cache).
Proof. intros Hget Heq. unfold loadSchema. now rewrite Hget, Heq. Qed.

Lemma loadSchema_cached cache key m content schema :
  number_strict_eq m m = true ->
  fst (loadSchema cache key (Some m) content) = Some schema ->
  exists cached,
    Map_get key (snd (loadSchema cache key (Some m) content)) = Some cached /\
    number_strict_eq (mtime cached) m = true /\ cached_schema cached = schema.
Proof.
  intros Hm. unfold loadSchema.
  destruct (Map_get key cache) as [c |] eqn:Hget.
  - destruct (number_strict_eq (mtime c) m) eqn:Heq.
    + cbn [fst snd]. intros [= <-]. now exists c.
    + destruct content as [s |]; [| discriminate]. cbn [fst snd].
      intros [= <-]. eexists. rewrite Map_get_set_same. now split.
  - destruct content as [s |]; [| discriminate]. cbn [fst snd].
    intros [= <-]. eexists. rewrite Map_get_set_same. now split.
Qed.

(** X8. A schema that was loaded is served from the cache while the
    modification time of its file stays the same: the next call returns the
    same schema whatever the file holds by then, readable or not, and leaves
    the cache as it is. *)
Theorem second_load_is_served_from_the_cache (cache : SchemaCache)
    (key : string) (m : number) (content : option json) (schema : json) :
  number_strict_eq m m = true ->
  fst (loadSchema cache key (Some m) content) = Some schema ->
  forall content',
    loadSchema (snd (loadSchema cache key (Some m) content)) key (Some m) content' =
    (Some schema, snd (loadSchema cache key (Some m) content)).
Proof.
  intros Hm Hfirst content'.
  destruct (loadSchema_cached _ _ _ _ _ Hm Hfirst) as (c & Hget & Heq & <-).
  now apply loadSchema_hit.
Qed.

(** A first load into the empty cache, then a load when the file cannot be
    read any more. *)
Lemma second_load_is_served_from_the_cache_witness :
  loadSchema
    (snd (loadSchema [] "file:///s.json" (Some (S754_finite false 1 0))
            (Some (JObj [("type", JStr "object")]))))
    "file:///s.json" (Some (S754_finite false 1 0)) None =
  (Some (JObj [("type", JStr "object")]),
   snd (loadSchema [] "file:///s.json" (Some (S754_finite false 1 0))
          (Some (JObj [("type", JStr "object")])))).
Proof.
  apply (second_load_is_served_from_the_cache [] "file:///s.json"
           (S754_finite false 1 0) (Some (JObj [("type", JStr "object")]))
           (JObj [("type", JStr "object")]));
    reflexivity.
Defined.

(** X9. A call of [loadSchema] that returns no schema leaves the cache as it
    was, a stale entry of the file included; and no call changes the entry
    of another file. *)
Theorem failed_load_leaves_the_cache :
  (forall cache key stat content,
     fst (loadSchema cache key stat content) = None ->
     snd (loadSchema cache key stat content) = cache) /\
  (forall cache key stat content key',
     key' <> key ->
     Map_get key' (snd (loadSchema cache key stat content)) = Map_get key' cache).
Proof.
  split.
  - intros cache key stat content. unfold loadSchema.
    destruct stat as [m |]; [| reflexivity].
    destruct (Map_get key cache) as [c |].
    + destruct (number_strict_eq (mtime c) m); [discriminate |].
      destruct content; [discriminate | reflexivity].
    + destruct content; [discriminate | reflexivity].
  - intros cache key stat content key' Hne. unfold loadSchema.
    destruct stat as [m |]; [| reflexivity].
    destruct (Map_get key cache) as [c |].
    + destruct (number_strict_eq (mtime c) m); [reflexivity |].
      destruct content; [| reflexivity]. now apply Map_get_set_other.
    + destruct content; [| reflexivity]. now apply Map_get_set_other.
Qed.

(** ** Invariants of the matcher *)

Lemma node_size_children type value offset length children :
  node_size (mkNode type value offset length (Some children)) =
  S (nodes_size children).
Proof. reflexivity. Qed.

Lemma node_size_pos n : 0 < node_size n.
Proof. destruct n as [t v o l [cs |]]; simpl; lia. Qed.

Lemma Node_size_ind (P : Node -> Prop) :
  (forall n, (forall m, node_size m < node_size n -> P m) -> P n) ->
  forall n, P n.
Proof.
  intros H n. remember (node_size n) as k eqn:Hk.
  revert n Hk. induction k as [k IH] using lt_wf_ind.
  intros n ->. apply H. intros m Hm. now apply (IH (node_size m)).
Qed.

Section MatcherInvariants.
Context {rt : JsRuntime}.

(** *** The sink is only appended to *)

Section Appends.
Variable visit : Node -> option json -> list Diagnostic -> result (list Diagnostic).
Variable bound : nat.
Hypothesis Hvisit : forall n s d,
  node_size n < bound -> visit n s d = appended d (visit n s []).

Lemma visitProperty_appends rs document config p d keys :
  node_size p <= bound ->
  visitProperty visit rs document config p (d, keys) =
  appendedState d (visitProperty visit rs document config p ([], keys)).
Proof.
  intros Hp. unfold visitProperty, appendedState.
  destruct p as [[] value offset length [[| keyNode [| valueNode tl]] |]];
    cbn [bind fst snd]; try (now rewrite app_nil_r).
  destruct (node_value keyNode) as [[| | | key | | |] |];
    cbn [bind fst snd]; try (now rewrite app_nil_r).
  destruct (key =? ""); cbn [bind fst snd]; [now rewrite app_nil_r |].
  destruct (key =? "$schema"); cbn [bind fst snd]; [now rewrite app_nil_r |].
  destruct (truthy (info_schema (getPropertySchemaInfo rs key))).
  - rewrite Hvisit.
    + unfold appended.
      destruct (visit valueNode _ []) as [a | |]; reflexivity.
    + rewrite node_size_children in Hp. cbn [nodes_size] in Hp.
      pose proof (node_size_pos keyNode). lia.
  - destruct (showUnknownProperties config && _); cbn [bind fst snd];
      [reflexivity | now rewrite app_nil_r].
Qed.

Lemma visitProperties_appends rs document config children :
  forall d keys,
    nodes_size children <= bound ->
    visitProperties visit rs document config children (d, keys) =
    appendedState d (visitProperties visit rs document config children ([], keys)).
Proof.
  induction children as [| p rest IH]; intros d keys Hsize.
  - unfold appendedState. cbn [visitProperties bind fst snd]. now rewrite app_nil_r.
  - cbn [nodes_size] in Hsize. cbn [visitProperties].
    rewrite visitProperty_appends by lia. unfold appendedState at 1.
    destruct (visitProperty visit rs document config p ([], keys)) as [[a k] | |];
      cbn [bind fst snd]; try reflexivity.
    rewrite IH by lia. rewrite (IH a k) by lia. unfold appendedState.
    destruct (visitProperties visit rs document config rest ([], k)) as [[b k'] | |];
      cbn [bind fst snd]; try reflexivity.
    now rewrite app_assoc.
Qed.

Lemma visitElements_appends items children :
  forall index d,
    nodes_size children < bound ->
    visitElements visit items children index d =
    appended d (visitElements visit items children index []).
Proof.
  induction children as [| e rest IH]; intros index d Hsize.
  - unfold appended. cbn [visitElements bind]. now rewrite app_nil_r.
  - cbn [nodes_size] in Hsize. cbn [visitElements]. cbv zeta.
    pose proof (node_size_pos e).
    destruct (truthy (resolveArrayItemSchema items index)).
    + rewrite Hvisit by lia. unfold appended at 1.
      destruct (visit e (resolveArrayItemSchema items index) []) as [a | |];
        cbn [bind]; try reflexivity.
      rewrite IH by lia. rewrite (IH (S index) a) by lia. unfold appended.
      destruct (visitElements visit items rest (S index) []) as [b | |];
        cbn [bind]; try reflexivity.
      now rewrite app_assoc.
    + cbn [bind]. apply IH. lia.
Qed.

End Appends.

Lemma visit_appends (fuel : nat) (rootSchema : json) (document : TextDocument)
    (config : ExtensionConfig) (node : Node) :
  forall schema d,
    visitNodeForDiagnostics fuel node schema rootSchema document d config =
    appended d
      (visitNodeForDiagnostics fuel node schema rootSchema document [] config).
Proof.
  induction node as [node IH] using Node_size_ind. intros schema d.
  rewrite !visitNodeForDiagnostics_eq. unfold appended.
  destruct (negb (truthy schema)); cbn [bind]; [now rewrite app_nil_r |].
  destruct (resolveSchemaNode fuel schema rootSchema []) as [[rs |] | |];
    cbn [bind]; try reflexivity; try (now rewrite app_nil_r).
  destruct (negb (truthy (Some rs))); cbn [bind]; [now rewrite app_nil_r |].
  destruct (negb (isNodeTypeCompatible node rs)); cbn [bind]; [reflexivity |].
  cbv zeta.
  set (visit := fun n s d0 =>
         visitNodeForDiagnostics fuel n s rootSchema document d0 config).
  assert (Hvisit : forall n s d0, node_size n < node_size node ->
            visit n s d0 = appended d0 (visit n s [])).
  { intros n s d0 Hn. unfold visit. now apply IH. }
  destruct node as [[] value offset length children]; cbn [node_type node_children];
    cbn [bind]; try (now rewrite app_nil_r).
  - destruct (negb (isObjectSchema rs)); cbn [bind]; [now rewrite app_nil_r |].
    destruct (requiredSetOf rs) as [req | |]; cbn [bind]; try reflexivity.
    destruct children as [cs |]; cbn [bind fst snd].
    + rewrite (visitProperties_appends visit _ Hvisit rs document config cs d [])
        by (rewrite node_size_children; lia).
      unfold appendedState.
      destruct (visitProperties visit rs document config cs ([], [])) as [[a k] | |];
        cbn [bind fst snd]; try reflexivity.
      rewrite !reportMissing_spec. now rewrite app_assoc.
    + rewrite !reportMissing_spec. reflexivity.
  - destruct (negb (isArraySchema rs)); cbn [bind]; [now rewrite app_nil_r |].
    destruct children as [cs |]; cbn [bind]; [| now rewrite app_nil_r].
    rewrite (visitElements_appends visit _ Hvisit (member rs "items") cs 0 d)
      by (rewrite node_size_children; lia).
    reflexivity.
Qed.

(** X10. The matcher only appends to the sink: the diagnostics it was given
    stay at the front, in their order, and what it adds does not depend on
    them. *)
Theorem sink_is_only_appended_to (fuel : nat) (node : Node)
    (schema : option json) (rootSchema : json) (document : TextDocument)
    (diagnostics : list Diagnostic) (config : ExtensionConfig) :
  visitNodeForDiagnostics fuel node schema rootSchema document diagnostics config =
  (added <- visitNodeForDiagnostics fuel node schema rootSchema document [] config ;;
   Ok (diagnostics ++ added)).
Proof. apply visit_appends. Qed.

(** *** What every diagnostic satisfies *)

Section Preserves.
Variable okD : Diagnostic -> Prop.
Variable document : TextDocument.
Variable config : ExtensionConfig.
Hypothesis Hmismatch : forall node rs,
  okD (createTypeMismatchDiagnostic node rs document).
Hypothesis Hmissing : forall node k,
  okD (createMissingRequiredDiagnostic node k document).
Hypothesis Hunknown : showUnknownProperties config = true ->
  forall keyNode k, okD (createUnknownPropertyDiagnostic keyNode k document).

Section LoopsPreserve.
Variable visit : Node -> option json -> list Diagnostic -> result (list Diagnostic).
Variable bound : nat.
Hypothesis Hvisit : forall n s d d',
  node_size n < bound -> Forall okD d -> visit n s d = Ok d' -> Forall okD d'.

Lemma visitProperty_preserves rs p d keys d' keys' :
  node_size p <= bound -> Forall okD d ->
  visitProperty visit rs document config p (d, keys) = Ok (d', keys') ->
  Forall okD d'.
Proof.
  intros Hp Hd. unfold visitProperty.
  destruct p as [[] value offset length [[| keyNode [| valueNode tl]] |]];
    cbn [fst snd]; try (now intros [= <- _]).
  destruct (node_value keyNode) as [[| | | key | | |] |];
    try (now intros [= <- _]).
  destruct (key =? ""); [now intros [= <- _] |].
  destruct (key =? "$schema"); [now intros [= <- _] |]. cbv zeta.
  destruct (truthy (info_schema (getPropertySchemaInfo rs key))).
  - destruct (visit valueNode _ d) as [a | |] eqn:Hv; cbn [bind]; try discriminate.
    intros [= <- _]. eapply (Hvisit valueNode); [| exact Hd | exact Hv].
    rewrite node_size_children in Hp. cbn [nodes_size] in Hp.
    pose proof (node_size_pos keyNode). lia.
  - destruct (showUnknownProperties config) eqn:Hshow; cbn [andb].
    + destruct (negb _); intros [= <- _]; [| assumption].
      apply Forall_app. split; [assumption |]. constructor; [| constructor].
      now apply Hunknown.
    + now intros [= <- _].
Qed.

Lemma visitProperties_preserves rs children :
  forall d keys d' keys',
    nodes_size children <= bound -> Forall okD d ->
    visitProperties visit rs document config children (d, keys) = Ok (d', keys') ->
    Forall okD d'.
Proof.
  induction children as [| p rest IH]; intros d keys d' keys' Hsize Hd.
  - cbn [visitProperties]. now intros [= <- _].
  - cbn [nodes_size] in Hsize. cbn [visitProperties].
    destruct (visitProperty visit rs document config p (d, keys)) as [[a k] | |] eqn:Hp;
      cbn [bind]; try discriminate.
    intros Hrest. apply (IH a k d' keys'); [lia | | exact Hrest].
    apply (visitProperty_preserves rs p d keys a k); [lia | assumption | assumption].
Qed.

Lemma visitElements_preserves items children :
  forall index d d',
    nodes_size children < bound -> Forall okD d ->
    visitElements visit items children index d = Ok d' -> Forall okD d'.
Proof.
  induction children as [| e rest IH]; intros index d d' Hsize Hd.
  - cbn [visitElements]. now intros [= <-].
  - cbn [nodes_size] in Hsize. cbn [visitElements]. cbv zeta.
    pose proof (node_size_pos e).
    destruct (truthy (resolveArrayItemSchema items index)).
    + destruct (visit e _ d) as [a | |] eqn:Hv; cbn [bind]; try discriminate.
      apply IH; [lia |]. eapply (Hvisit e); [lia | exact Hd | exact Hv].
    + cbn [bind]. apply IH; [lia | assumption].
Qed.

End LoopsPreserve.

Lemma visit_preserves (fuel : nat) (rootSchema : json) (node : Node) :
  forall schema d d',
    Forall okD d ->
    visitNodeForDiagnostics fuel node schema rootSchema document d config = Ok d' ->
    Forall okD d'.
Proof.
  induction node as [node IH] using Node_size_ind. intros schema d d' Hd.
  rewrite visitNodeForDiagnostics_eq.
  destruct (negb (truthy schema)); [now intros [= <-] |].
  destruct (resolveSchemaNode fuel schema rootSchema []) as [[rs |] | |];
    cbn [bind]; try discriminate; try (now intros [= <-]).
  destruct (negb (truthy (Some rs))); [now intros [= <-] |].
  destruct (negb (isNodeTypeCompatible node rs)).
  { intros [= <-]. apply Forall_app. split; [assumption |].
    constructor; [apply Hmismatch | constructor]. }
  cbv zeta.
  set (visit := fun n s d0 =>
         visitNodeForDiagnostics fuel n s rootSchema document d0 config).
  assert (Hvisit : forall n s d0 d1, node_size n < node_size node ->
            Forall okD d0 -> visit n s d0 = Ok d1 -> Forall okD d1).
  { intros n s d0 d1 Hn. unfold visit. now apply IH. }
  destruct node as [[] value offset length children]; cbn [node_type node_children];
    try (now intros [= <-]).
  - destruct (negb (isObjectSchema rs)); [now intros [= <-] |].
    destruct (requiredSetOf rs) as [req | |]; cbn [bind]; try discriminate.
    assert (Hmiss : forall a k, Forall okD a ->
              Forall okD (reportMissing document
                            (mkNode TObject value offset length children) req k a)).
    { intros a k Ha. rewrite reportMissing_spec. apply Forall_app.
      split; [assumption |]. apply Forall_forall. intros x Hx.
      apply in_map_iff in Hx. destruct Hx as [key [<- _]]. apply Hmissing. }
    destruct children as [cs |]; cbn [bind fst snd].
    + destruct (visitProperties visit rs document config cs (d, [])) as [[a k] | |] eqn:Hp;
        cbn [bind fst snd]; try discriminate.
      intros [= <-]. apply Hmiss.
      apply (visitProperties_preserves visit _ Hvisit rs cs d [] a k);
        [rewrite node_size_children; lia | assumption | assumption].
    + intros [= <-]. now apply Hmiss.
  - destruct (negb (isArraySchema rs)); [now intros [= <-] |].
    destruct children as [cs |]; [| now intros [= <-]].
    apply (visitElements_preserves visit _ Hvisit);
      [rewrite node_size_children; lia | assumption].
Qed.

End Preserves.

Lemma collect_preserves (okD : Diagnostic -> Prop) document config :
  (forall node rs, okD (createTypeMismatchDiagnostic node rs document)) ->
  (forall node k, okD (createMissingRequiredDiagnostic node k document)) ->
  (showUnknownProperties config = true ->
   forall keyNode k, okD (createUnknownPropertyDiagnostic keyNode k document)) ->
  forall fuel root schema found,
    collectDiagnostics fuel root schema document config = Ok found ->
    Forall okD found.
Proof.
  intros H1 H2 H3 fuel root schema found. unfold collectDiagnostics. cbv zeta.
  destruct (resolveSchemaNode fuel (Some schema) schema []) as [r | |];
    cbn [bind]; try discriminate.
  destruct (negb (truthy r)); [now intros [= <-] |].
  apply (visit_preserves okD document config H1 H2 H3). constructor.
Qed.

(** X11. Every diagnostic that [collectDiagnostics] returns is a warning. *)
Theorem every_diagnostic_is_a_warning (fuel : nat) (root : Node) (schema : json)
    (document : TextDocument) (config : ExtensionConfig)
    (found : list Diagnostic) :
  collectDiagnostics fuel root schema document config = Ok found ->
  Forall (fun d => severity d = SeverityWarning) found.
Proof.
  apply (collect_preserves (fun d => severity d = SeverityWarning));
    reflexivity.
Qed.

(** *** Switching the unknown-property diagnostics off *)

Lemma mismatch_kept node rs document :
  notUnknownProperty (createTypeMismatchDiagnostic node rs document) = true.
Proof. reflexivity. Qed.

Lemma missing_kept node k document :
  notUnknownProperty (createMissingRequiredDiagnostic node k document) = true.
Proof. reflexivity. Qed.

Lemma unknown_dropped keyNode k document :
  notUnknownProperty (createUnknownPropertyDiagnostic keyNode k document) = false.
Proof. reflexivity. Qed.

Lemma filter_snoc {A} (f : A -> bool) (l : list A) (x : A) :
  filter f (l ++ [x]) = filter f l ++ (if f x then [x] else []).
Proof. rewrite filter_app. reflexivity. Qed.

Section Filtering.
Variable document : TextDocument.
Variable config : ExtensionConfig.
Variables visitOn visitOff :
  Node -> option json -> list Diagnostic -> result (list Diagnostic).
Variable bound : nat.
Hypothesis Hvisit : forall n s d,
  node_size n < bound ->
  visitOff n s (filter notUnknownProperty d) = kept (visitOn n s d).

Lemma visitProperty_kept rs p d keys :
  node_size p <= bound ->
  visitProperty visitOff rs document (hideUnknownProperties config) p
    (filter notUnknownProperty d, keys) =
  keptState (visitProperty visitOn rs document config p (d, keys)).
Proof.
  intros Hp. unfold visitProperty, keptState.
  destruct p as [[] value offset length [[| keyNode [| valueNode tl]] |]];
    cbn [bind fst snd]; try reflexivity.
  destruct (node_value keyNode) as [[| | | key | | |] |];
    cbn [bind fst snd]; try reflexivity.
  destruct (key =? ""); cbn [bind fst snd]; [reflexivity |].
  destruct (key =? "$schema"); cbn [bind fst snd]; [reflexivity |].
  destruct (truthy (info_schema (getPropertySchemaInfo rs key))).
  - rewrite Hvisit.
    + unfold kept. destruct (visitOn valueNode _ d) as [a | |]; reflexivity.
    + rewrite node_size_children in Hp. cbn [nodes_size] in Hp.
      pose proof (node_size_pos keyNode). lia.
  - cbn [hideUnknownProperties showUnknownProperties andb].
    destruct (showUnknownProperties config && _); cbn [bind fst snd];
      [| reflexivity].
    rewrite filter_snoc, unknown_dropped, app_nil_r. reflexivity.
Qed.

Lemma visitProperties_kept rs children :
  forall d keys,
    nodes_size children <= bound ->
    visitProperties visitOff rs document (hideUnknownProperties config) children
      (filter notUnknownProperty d, keys) =
    keptState (visitProperties visitOn rs document config children (d, keys)).
Proof.
  induction children as [| p rest IH]; intros d keys Hsize.
  - reflexivity.
  - cbn [nodes_size] in Hsize. cbn [visitProperties].
    rewrite visitProperty_kept by lia. unfold keptState at 1.
    destruct (visitProperty visitOn rs document config p (d, keys)) as [[a k] | |];
      cbn [bind fst snd]; try reflexivity.
    apply IH. lia.
Qed.

Lemma visitElements_kept items children :
  forall index d,
    nodes_size children < bound ->
    visitElements visitOff items children index (filter notUnknownProperty d) =
    kept (visitElements visitOn items children index d).
Proof.
  induction children as [| e rest IH]; intros index d Hsize.
  - reflexivity.
  - cbn [nodes_size] in Hsize. cbn [visitElements]. cbv zeta.
    pose proof (node_size_pos e).
    destruct (truthy (resolveArrayItemSchema items index)).
    + rewrite Hvisit by lia. unfold kept at 1.
      destruct (visitOn e (resolveArrayItemSchema items index) d) as [a | |];
        cbn [bind]; try reflexivity.
      apply IH. lia.
    + cbn [bind]. apply IH. lia.
Qed.

End Filtering.

Lemma visit_kept (fuel : nat) (rootSchema : json) (document : TextDocument)
    (config : ExtensionConfig) (node : Node) :
  forall schema d,
    visitNodeForDiagnostics fuel node schema rootSchema document
      (filter notUnknownProperty d) (hideUnknownProperties config) =
    kept (visitNodeForDiagnostics fuel node schema rootSchema document d config).
Proof.
  induction node as [node IH] using Node_size_ind. intros schema d.
  rewrite !visitNodeForDiagnostics_eq. unfold kept.
  destruct (negb (truthy schema)); cbn [bind]; [reflexivity |].
  destruct (resolveSchemaNode fuel schema rootSchema []) as [[rs |] | |];
    cbn [bind]; try reflexivity.
  destruct (negb (truthy (Some rs))); cbn [bind]; [reflexivity |].
  destruct (negb (isNodeTypeCompatible node rs)); cbn [bind].
  { rewrite filter_snoc, mismatch_kept. reflexivity. }
  cbv zeta.
  set (visitOn := fun n s d0 =>
         visitNodeForDiagnostics fuel n s rootSchema document d0 config).
  set (visitOff := fun n s d0 =>
         visitNodeForDiagnostics fuel n s rootSchema document d0
           (hideUnknownProperties config)).
  assert (Hvisit : forall n s d0, node_size n < node_size node ->
            visitOff n s (filter notUnknownProperty d0) = kept (visitOn n s d0)).
  { intros n s d0 Hn. unfold visitOn, visitOff. now apply IH. }
  assert (Hmiss : forall nd req keys a,
            reportMissing document nd req keys (filter notUnknownProperty a) =
            filter notUnknownProperty (reportMissing document nd req keys a)).
  { intros nd req keys a. rewrite !reportMissing_spec, filter_app. f_equal.
    symmetry. apply forallb_filter_id. apply forallb_forall. intros x Hx.
    apply in_map_iff in Hx. destruct Hx as [key [<- _]]. apply missing_kept. }
  destruct node as [[] value offset length children]; cbn [node_type node_children];
    cbn [bind]; try reflexivity.
  - destruct (negb (isObjectSchema rs)); cbn [bind]; [reflexivity |].
    destruct (requiredSetOf rs) as [req | |]; cbn [bind]; try reflexivity.
    destruct children as [cs |]; cbn [bind fst snd].
    + rewrite (visitProperties_kept document config visitOn visitOff _ Hvisit rs cs d [])
        by (rewrite node_size_children; lia).
      unfold keptState.
      destruct (visitProperties visitOn rs document config cs (d, [])) as [[a k] | |];
        cbn [bind fst snd]; try reflexivity.
      now rewrite Hmiss.
    + now rewrite Hmiss.
  - destruct (negb (isArraySchema rs)); cbn [bind]; [reflexivity |].
    destruct children as [cs |]; cbn [bind]; [| reflexivity].
    apply (visitElements_kept visitOn visitOff _ Hvisit (member rs "items") cs 0 d).
    rewrite node_size_children; lia.
Qed.

(** X12. Switching [showUnknownProperties] off removes the unknown-property
    diagnostics and changes nothing else: the run returns the diagnostics of
    the run with the given configuration, in their order, without those
    whose message begins with [Unknown property]; it fails when that run
    fails. *)
Theorem hiding_unknown_properties_filters (fuel : nat) (root : Node)
    (schema : json) (document : TextDocument) (config : ExtensionConfig) :
  collectDiagnostics fuel root schema document (hideUnknownProperties config) =
  (found <- collectDiagnostics fuel root schema document config ;;
   Ok (filter notUnknownProperty found)).
Proof.
  unfold collectDiagnostics. cbv zeta.
  destruct (resolveSchemaNode fuel (Some schema) schema []) as [r | |];
    cbn [bind]; try reflexivity.
  destruct (negb (truthy r)); [reflexivity |].
  exact (visit_kept fuel schema document config root r []).
Qed.

(** *** The required names *)

Lemma existsb_eqb_In (k : string) (l : list string) :
  existsb (String.eqb k) l = true <-> In k l.
Proof.
  rewrite existsb_exists. split.
  - intros [x [Hin Heq]]. apply String.eqb_eq in Heq. now subst.
  - intros Hin. exists k. split; [assumption | apply String.eqb_refl].
Qed.

Lemma Set_add_names_spec (names : list string) :
  forall acc,
    NoDup acc ->
    NoDup (Set_add_names names acc) /\
    forall k, In k (Set_add_names names acc) <-> In k acc \/ In k names.
Proof.
  induction names as [| x r IH]; intros acc Hacc; cbn [Set_add_names].
  - split; [assumption |]. intros k. cbn [In]. tauto.
  - destruct (existsb (String.eqb x) acc) eqn:Hx.
    + destruct (IH acc Hacc) as [Hnd Hin]. split; [assumption |].
      intros k. rewrite Hin. cbn [In]. apply existsb_eqb_In in Hx.
      split; [tauto |]. intros [H | [<- | H]]; auto.
    + assert (Hnew : ~ In x acc).
      { intros Hin. apply existsb_eqb_In in Hin. congruence. }
      assert (Hacc' : NoDup (acc ++ [x])).
      { apply NoDup_app; [assumption | repeat constructor; intros [] |].
        intros y Hy [<- | []]. contradiction. }
      destruct (IH _ Hacc') as [Hnd Hin]. split; [assumption |].
      intros k. rewrite Hin, in_app_iff. cbn [In]. tauto.
Qed.

Lemma requiredSetOf_spec (schema : json) (requiredSet : list string) :
  requiredSetOf schema = Ok requiredSet ->
  NoDup requiredSet /\
  forall k, In k requiredSet <-> In k (requiredNames schema).
Proof.
  unfold requiredSetOf, requiredNames.
  destruct (member schema "required") as [[| b | n | s | l | ms | [| []]] |];
    try discriminate; intros [= <-];
    try (split; [constructor | tauto]).
  destruct (Set_add_names_spec (map ToString l) [] (NoDup_nil _)) as [Hnd Hin].
  split; [assumption |]. intros k. rewrite Hin. cbn [In]. tauto.
Qed.

Lemma missingKeys_spec (requiredSet presentKeys : list string) :
  NoDup requiredSet ->
  NoDup (missingKeys requiredSet presentKeys) /\
  forall k, In k (missingKeys requiredSet presentKeys) <->
            In k requiredSet /\ k <> "$schema" /\ ~ In k presentKeys.
Proof.
  intros Hnd. unfold missingKeys. split; [now apply NoDup_filter |].
  intros k. rewrite filter_In, andb_true_iff, !negb_true_iff.
  unfold Set_has_key. rewrite String.eqb_neq.
  rewrite <- not_true_iff_false, existsb_eqb_In. tauto.
Qed.

Section PresentKeys.
Variable visit : Node -> option json -> list Diagnostic -> result (list Diagnostic).

Lemma visitProperty_keys rs document config p d keys d' keys' :
  visitProperty visit rs document config p (d, keys) = Ok (d', keys') ->
  keys' = match propertyKey p with Some k => k :: keys | None => keys end.
Proof.
  unfold visitProperty, propertyKey.
  destruct p as [[] value offset length [[| keyNode [| valueNode tl]] |]];
    cbn [fst snd]; try (now intros [= _ <-]).
  destruct (node_value keyNode) as [[| | | key | | |] |];
    try (now intros [= _ <-]).
  destruct (key =? ""); cbn [orb]; [now intros [= _ <-] |].
  destruct (key =? "$schema"); [now intros [= _ <-] |]. cbv zeta.
  destruct (truthy (info_schema (getPropertySchemaInfo rs key))).
  - destruct (visit valueNode _ d) as [a | |]; cbn [bind]; try discriminate.
    now intros [= _ <-].
  - destruct (showUnknownProperties config && _); now intros [= _ <-].
Qed.

Lemma visitProperties_keys rs document config children :
  forall d keys d' keys',
    visitProperties visit rs document config children (d, keys) = Ok (d', keys') ->
    keys' = rev (documentKeys (Some children)) ++ keys.
Proof.
  induction children as [| p rest IH]; intros d keys d' keys'; cbn [visitProperties].
  - now intros [= _ <-].
  - destruct (visitProperty visit rs document config p (d, keys)) as [[a k] | |] eqn:Hp;
      cbn [bind]; try discriminate.
    intros Hrest. apply IH in Hrest. apply visitProperty_keys in Hp. subst.
    unfold documentKeys. cbn [flat_map].
    destruct (propertyKey p); cbn [app rev]; [| reflexivity].
    now rewrite <- app_assoc.
Qed.

End PresentKeys.

Lemma isObjectSchema_truthy (schema : json) :
  isObjectSchema schema = true -> truthy (Some schema) = true.
Proof.
  destruct schema as [| [] | n | s | l | ms | h]; try reflexivity; discriminate.
Qed.

(** X13. The missing-required diagnostics of an object.  When an object node
    meets an object schema, the matcher returns what the loop over the
    members produced, followed by one missing-required diagnostic for each
    name of [required] that is not [$schema] and is not the key of a member
    of the node: no name is reported twice, whatever [required] repeats. *)
Theorem missing_required_exactly_once (fuel : nat) (value : option json)
    (offset length : Z) (children : option (list Node)) (schema : option json)
    (rootSchema : json) (document : TextDocument) (diagnostics : list Diagnostic)
    (config : ExtensionConfig) (resolvedSchema : json) (found : list Diagnostic) :
  let node := mkNode TObject value offset length children in
  resolveSchemaNode fuel schema rootSchema [] = Ok (Some resolvedSchema) ->
  isNodeTypeCompatible node resolvedSchema = true ->
  isObjectSchema resolvedSchema = true ->
  visitNodeForDiagnostics fuel node schema rootSchema document diagnostics config =
    Ok found ->
  exists fromMembers missing,
    visitProperties
      (fun n s d => visitNodeForDiagnostics fuel n s rootSchema document d config)
      resolvedSchema document config
      (match children with Some cs => cs | None => [] end) (diagnostics, []) =
      Ok (fromMembers, rev (documentKeys children)) /\
    found = fromMembers ++
            map (fun k => createMissingRequiredDiagnostic node k document) missing /\
    NoDup missing /\
    forall k, In k missing <->
              In k (requiredNames resolvedSchema) /\ k <> "$schema" /\
              ~ In k (documentKeys children).
Proof.
  intros node Hres Hcompat Hobject. rewrite visitNodeForDiagnostics_eq.
  rewrite (resolveSchemaNode_truthy _ _ _ _ _ Hres), Hres. cbn [negb bind].
  rewrite (isObjectSchema_truthy _ Hobject), Hcompat. cbn [negb]. cbv zeta.
  unfold node in *. cbn [node_type node_children]. rewrite Hobject. cbn [negb].
  destruct (requiredSetOf resolvedSchema) as [req | |] eqn:Hreq; cbn [bind];
    try discriminate.
  destruct (requiredSetOf_spec _ _ Hreq) as [Hnd Hin].
  set (visit := fun n s d =>
         visitNodeForDiagnostics fuel n s rootSchema document d config).
  assert (Hloop : forall st,
            match children with
            | Some cs => visitProperties visit resolvedSchema document config cs
                           (diagnostics, [])
            | None => Ok (diagnostics, [])
            end = Ok st ->
            visitProperties visit resolvedSchema document config
              (match children with Some cs => cs | None => [] end)
              (diagnostics, []) = Ok (fst st, rev (documentKeys children)) /\
            snd st = rev (documentKeys children)).
  { intros [a k] Hst. destruct children as [cs |].
    - pose proof (visitProperties_keys visit _ _ _ _ _ _ _ _ Hst) as Hk.
      rewrite app_nil_r in Hk. subst k. cbn [fst snd]. now split.
    - injection Hst as <- <-. now split. }
  destruct (match children with
            | Some cs => visitProperties visit resolvedSchema document config cs
                           (diagnostics, [])
            | None => Ok (diagnostics, [])
            end) as [st | |] eqn:Hst; cbn [bind]; try discriminate.
  destruct (Hloop st eq_refl) as [Hrun Hkeys].
  intros [= <-]. rewrite reportMissing_spec, Hkeys.
  destruct (missingKeys_spec req (rev (documentKeys children)) Hnd) as [Hnd' Hin'].
  exists (fst st), (missingKeys req (rev (documentKeys children))).
  split; [exact Hrun |]. split; [reflexivity |]. split; [exact Hnd' |].
  intros k. rewrite Hin', Hin, <- in_rev. tauto.
Qed.

(** X14. A schema that names no kind constrains nothing: when the resolved
    schema has no [type], [properties], [required] or [items], the matcher
    reports nothing for the node and does not visit its children, whatever
    else the schema holds. *)
Theorem schema_without_kind_constrains_nothing (fuel : nat) (node : Node)
    (schema : option json) (rootSchema : json) (document : TextDocument)
    (diagnostics : list Diagnostic) (config : ExtensionConfig)
    (resolvedSchema : json) :
  resolveSchemaNode fuel schema rootSchema [] = Ok (Some resolvedSchema) ->
  getSchemaTypeCandidates resolvedSchema = [] ->
  visitNodeForDiagnostics fuel node schema rootSchema document diagnostics config =
  Ok diagnostics.
Proof.
  intros Hres Hnone. rewrite visitNodeForDiagnostics_eq.
  rewrite (resolveSchemaNode_truthy _ _ _ _ _ Hres), Hres. cbn [negb bind].
  destruct (negb (truthy (Some resolvedSchema))); [reflexivity |].
  unfold isNodeTypeCompatible. rewrite Hnone. cbn [negb]. cbv zeta.
  assert (Hkinds : isObjectSchema resolvedSchema = false /\
                   isArraySchema resolvedSchema = false).
  { unfold getSchemaTypeCandidates in Hnone. unfold isObjectSchema, isArraySchema.
    destruct (toTypeArray (member resolvedSchema "type")); [| discriminate].
    destruct (truthy (member resolvedSchema "properties")); [discriminate |].
    destruct (truthy (member resolvedSchema "required")); [discriminate |].
    destruct (truthy (member resolvedSchema "items")); [discriminate |].
    now split. }
  destruct Hkinds as [Hobject Harray].
  destruct node as [[] value offset length children]; try reflexivity.
  - now rewrite Hobject.
  - now rewrite Harray.
Qed.

(** *** The order of the diagnostics *)

Lemma isArraySchema_truthy (schema : json) :
  isArraySchema schema = true -> truthy (Some schema) = true.
Proof.
  destruct schema as [| [] | n | s | l | ms | h]; try reflexivity; discriminate.
Qed.

Section LoopsOrder.
Variable visit : Node -> option json -> list Diagnostic -> result (list Diagnostic).
Hypothesis Hvisit : forall n s d, visit n s d = appended d (visit n s []).

Lemma visitProperty_member rs document config p d keys :
  visitProperty visit rs document config p (d, keys) =
  (added <- memberDiagnostics visit rs document config p ;;
   Ok (d ++ added,
       match propertyKey p with Some k => k :: keys | None => keys end)).
Proof.
  unfold memberDiagnostics, visitProperty, propertyKey.
  destruct p as [[] value offset length [[| keyNode [| valueNode tl]] |]];
    cbn [bind fst snd]; try (now rewrite app_nil_r).
  destruct (node_value keyNode) as [[| | | key | | |] |];
    cbn [bind fst snd]; try (now rewrite app_nil_r).
  destruct (key =? ""); cbn [bind fst snd orb]; [now rewrite app_nil_r |].
  destruct (key =? "$schema"); cbn [bind fst snd]; [now rewrite app_nil_r |].
  destruct (truthy (info_schema (getPropertySchemaInfo rs key))).
  - rewrite Hvisit. unfold appended.
    destruct (visit valueNode _ []) as [a | |]; reflexivity.
  - destruct (showUnknownProperties config && _); cbn [bind fst snd];
      [reflexivity | now rewrite app_nil_r].
Qed.

Lemma visitProperties_members rs document config children :
  forall d keys,
    visitProperties visit rs document config children (d, keys) =
    (added <- concatM (memberDiagnostics visit rs document config) children ;;
     Ok (d ++ added, rev (documentKeys (Some children)) ++ keys)).
Proof.
  induction children as [| p rest IH]; intros d keys.
  - cbn [visitProperties concatM bind]. now rewrite app_nil_r.
  - cbn [visitProperties concatM]. rewrite visitProperty_member.
    destruct (memberDiagnostics visit rs document config p) as [a | |];
      cbn [bind]; try reflexivity.
    rewrite IH.
    destruct (concatM (memberDiagnostics visit rs document config) rest) as [b | |];
      cbn [bind]; try reflexivity.
    f_equal. f_equal; [now rewrite app_assoc |].
    unfold documentKeys. cbn [flat_map].
    destruct (propertyKey p); cbn [app]; [| reflexivity].
    cbn [rev]. now rewrite <- app_assoc.
Qed.

Lemma visitElements_elements items children :
  forall index d,
    visitElements visit items children index d =
    (added <- concatM (elementDiagnostics visit items)
                (combine (seq index (List.length children)) children) ;;
     Ok (d ++ added)).
Proof.
  induction children as [| e rest IH]; intros index d.
  - cbn [visitElements List.length seq combine concatM bind]. now rewrite app_nil_r.
  - cbn [visitElements List.length seq combine concatM]. cbv zeta.
    unfold elementDiagnostics at 1. cbn [fst snd]. cbv zeta.
    destruct (truthy (resolveArrayItemSchema items index)).
    + rewrite Hvisit. unfold appended.
      destruct (visit e (resolveArrayItemSchema items index) []) as [a | |];
        cbn [bind]; try reflexivity.
      rewrite IH.
      destruct (concatM _ _) as [b | |]; cbn [bind]; try reflexivity.
      now rewrite app_assoc.
    + cbn [bind]. rewrite IH.
      destruct (concatM _ _) as [b | |]; reflexivity.
Qed.

End LoopsOrder.

(** X15. The diagnostics of an object come in the order of the document:
    when an object node meets an object schema, the matcher returns the
    diagnostics it was given, then the diagnostics of each member in turn
    (those of its value against the schema of the property, or the
    unknown-property diagnostic), then the missing-required diagnostics in
    the order of [required]. *)
Theorem object_diagnostics_in_document_order (fuel : nat) (value : option json)
    (offset length : Z) (children : option (list Node)) (schema : option json)
    (rootSchema : json) (document : TextDocument) (diagnostics : list Diagnostic)
    (config : ExtensionConfig) (resolvedSchema : json) :
  let node := mkNode TObject value offset length children in
  let visit := fun n s d =>
    visitNodeForDiagnostics fuel n s rootSchema document d config in
  resolveSchemaNode fuel schema rootSchema [] = Ok (Some resolvedSchema) ->
  isNodeTypeCompatible node resolvedSchema = true ->
  isObjectSchema resolvedSchema = true ->
  visitNodeForDiagnostics fuel node schema rootSchema document diagnostics config =
  (requiredSet <- requiredSetOf resolvedSchema ;;
   fromMembers <- concatM (memberDiagnostics visit resolvedSchema document config)
                    (match children with Some cs => cs | None => [] end) ;;
   Ok (diagnostics ++ fromMembers ++
       map (fun k => createMissingRequiredDiagnostic node k document)
           (missingKeys requiredSet (rev (documentKeys children))))).
Proof.
  intros node visit Hres Hcompat Hobject. rewrite visitNodeForDiagnostics_eq.
  rewrite (resolveSchemaNode_truthy _ _ _ _ _ Hres), Hres. cbn [negb bind].
  rewrite (isObjectSchema_truthy _ Hobject), Hcompat. cbn [negb]. cbv zeta.
  unfold node in *. cbn [node_type node_children]. rewrite Hobject. cbn [negb].
  destruct (requiredSetOf resolvedSchema) as [req | |]; cbn [bind]; try reflexivity.
  fold visit.
  assert (Hvisit : forall n s d, visit n s d = appended d (visit n s [])).
  { intros n s d. apply visit_appends. }
  destruct children as [cs |].
  - rewrite (visitProperties_members visit Hvisit).
    destruct (concatM _ cs) as [a | |]; cbn [bind fst snd]; try reflexivity.
    rewrite reportMissing_spec, app_nil_r, app_assoc. reflexivity.
  - cbn [concatM bind fst snd]. rewrite reportMissing_spec. reflexivity.
Qed.

(** X16. The diagnostics of an array come in the order of its elements: when
    an array node meets an array schema, the matcher returns the diagnostics
    it was given, then those of each element in turn against the schema of
    its position; an element whose position has no schema adds nothing. *)
Theorem array_diagnostics_in_element_order (fuel : nat) (value : option json)
    (offset length : Z) (children : list Node) (schema : option json)
    (rootSchema : json) (document : TextDocument) (diagnostics : list Diagnostic)
    (config : ExtensionConfig) (resolvedSchema : json) :
  let node := mkNode TArray value offset length (Some children) in
  let visit := fun n s d =>
    visitNodeForDiagnostics fuel n s rootSchema document d config in
  resolveSchemaNode fuel schema rootSchema [] = Ok (Some resolvedSchema) ->
  isNodeTypeCompatible node resolvedSchema = true ->
  isArraySchema resolvedSchema = true ->
  visitNodeForDiagnostics fuel node schema rootSchema document diagnostics config =
  (fromElements <- concatM (elementDiagnostics visit (member resolvedSchema "items"))
                     (combine (seq 0 (List.length children)) children) ;;
   Ok (diagnostics ++ fromElements)).
Proof.
  intros node visit Hres Hcompat Harray. rewrite visitNodeForDiagnostics_eq.
  rewrite (resolveSchemaNode_truthy _ _ _ _ _ Hres), Hres. cbn [negb bind].
  rewrite (isArraySchema_truthy _ Harray), Hcompat. cbn [negb]. cbv zeta.
  unfold node in *. cbn [node_type node_children]. rewrite Harray. cbn [negb].
  fold visit.
  assert (Hvisit : forall n s d, visit n s d = appended d (visit n s [])).
  { intros n s d. apply visit_appends. }
  apply (visitElements_elements visit Hvisit).
Qed.

(** *** Where the diagnostics lie *)

Lemma nodesOf_children type value offset length children :
  nodesOf (mkNode type value offset length (Some children)) =
  mkNode type value offset length (Some children) :: flat_map nodesOf children.
Proof. reflexivity. Qed.

Lemma nodesOf_self (n : Node) : In n (nodesOf n).
Proof. destruct n as [t v o l c]. now left. Qed.

Lemma nodesOf_child type value offset length children c :
  In c children ->
  incl (nodesOf c) (nodesOf (mkNode type value offset length (Some children))).
Proof.
  intros Hc x Hx. rewrite nodesOf_children. right.
  apply in_flat_map. now exists c.
Qed.

Lemma node_size_In (c : Node) (children : list Node) :
  In c children -> node_size c <= nodes_size children.
Proof.
  induction children as [| x r IH]; [contradiction |]. cbn [nodes_size].
  intros [-> | H]; [lia |]. specialize (IH H). lia.
Qed.

Lemma concatM_Forall {A : Type} (P : Diagnostic -> Prop)
    (f : A -> result (list Diagnostic)) (l : list A) :
  forall added,
    (forall x a, In x l -> f x = Ok a -> Forall P a) ->
    concatM f l = Ok added -> Forall P added.
Proof.
  induction l as [| x r IH]; intros added Hall; cbn [concatM].
  - intros [= <-]. constructor.
  - destruct (f x) as [a | |] eqn:Hx; cbn [bind]; try discriminate.
    destruct (concatM f r) as [b | |] eqn:Hr; cbn [bind]; try discriminate.
    intros [= <-]. apply Forall_app. split.
    + apply (Hall x a); [now left | exact Hx].
    + apply IH; [| reflexivity]. intros y c Hy. apply Hall. now right.
Qed.

Lemma reportedOn_below document config (m n : Node) (d : Diagnostic) :
  incl (nodesOf m) (nodesOf n) ->
  reportedOn document config m d -> reportedOn document config n d.
Proof.
  intros Hincl (x & Hx & H). exists x. split; [now apply Hincl | exact H].
Qed.

Lemma visit_reported (fuel : nat) (rootSchema : json) (document : TextDocument)
    (config : ExtensionConfig) (node : Node) :
  forall schema added,
    visitNodeForDiagnostics fuel node schema rootSchema document [] config =
      Ok added ->
    Forall (reportedOn document config node) added.
Proof.
  induction node as [node IH] using Node_size_ind. intros schema added.
  rewrite visitNodeForDiagnostics_eq.
  destruct (negb (truthy schema)); [intros [= <-]; constructor |].
  destruct (resolveSchemaNode fuel schema rootSchema []) as [[rs |] | |];
    cbn [bind]; try discriminate; try (intros [= <-]; constructor).
  destruct (negb (truthy (Some rs))); [intros [= <-]; constructor |].
  destruct (negb (isNodeTypeCompatible node rs)).
  { intros [= <-]. constructor; [| constructor].
    exists node. split; [apply nodesOf_self |]. left. now exists rs. }
  cbv zeta.
  set (visit := fun n s d0 =>
         visitNodeForDiagnostics fuel n s rootSchema document d0 config).
  assert (Hvisit : forall n s d, visit n s d = appended d (visit n s [])).
  { intros n s d. apply visit_appends. }
  destruct node as [[] value offset length children]; cbn [node_type node_children];
    try (intros [= <-]; constructor).
  - destruct (negb (isObjectSchema rs)); [intros [= <-]; constructor |].
    destruct (requiredSetOf rs) as [req | |]; cbn [bind]; try discriminate.
    set (node := mkNode TObject value offset length children) in *.
    assert (Hmiss : forall keys,
              Forall (reportedOn document config node)
                (map (fun k => createMissingRequiredDiagnostic node k document) keys)).
    { intros keys. apply Forall_forall. intros d Hd. apply in_map_iff in Hd.
      destruct Hd as [k [<- _]]. exists node. split; [apply nodesOf_self |].
      right. left. now exists k. }
    destruct children as [cs |]; cbn [bind fst snd].
    + rewrite (visitProperties_members visit Hvisit).
      destruct (concatM (memberDiagnostics visit rs document config) cs)
        as [a | |] eqn:Hmembers; cbn [bind fst snd]; try discriminate.
      intros [= <-]. rewrite reportMissing_spec. apply Forall_app.
      split; [| apply Hmiss]. cbn [app].
      eapply concatM_Forall; [| exact Hmembers]. intros p b Hp Hb.
      unfold memberDiagnostics, visitProperty in Hb.
      destruct p as [[] pvalue poffset plength [[| keyNode [| valueNode tl]] |]];
        cbn [bind fst snd] in Hb; try (injection Hb as <-; constructor).
      destruct (node_value keyNode) as [[| | | key | | |] |] eqn:Hkey;
        cbn [bind fst snd] in Hb; try (injection Hb as <-; constructor).
      destruct (key =? ""); cbn [bind fst snd] in Hb;
        [injection Hb as <-; constructor |].
      destruct (key =? "$schema"); cbn [bind fst snd] in Hb;
        [injection Hb as <-; constructor |].
      assert (Hin : forall c, In c [keyNode; valueNode] ->
                incl (nodesOf c) (nodesOf node)).
      { intros c Hc. eapply incl_tran; [| apply (nodesOf_child _ _ _ _ _ _ Hp)].
        apply nodesOf_child. cbn [In] in *. tauto. }
      destruct (truthy (info_schema (getPropertySchemaInfo rs key))).
      * destruct (visit valueNode _ []) as [a' | |] eqn:Hv; cbn [bind fst] in Hb;
          try discriminate.
        injection Hb as <-. cbn [app].
        assert (Hsize : node_size valueNode < node_size node).
        { unfold node. rewrite node_size_children.
          pose proof (node_size_In _ _ Hp) as Hle.
          rewrite node_size_children in Hle. cbn [nodes_size] in Hle.
          pose proof (node_size_pos keyNode). lia. }
        eapply Forall_impl; [| exact (IH valueNode Hsize _ _ Hv)].
        intros d. apply reportedOn_below. apply Hin. cbn [In]. tauto.
      * destruct (showUnknownProperties config) eqn:Hshow; cbn [andb] in Hb.
        -- destruct (negb _); cbn [bind fst snd] in Hb; injection Hb as <-;
             [| constructor].
           constructor; [| constructor]. exists keyNode.
           split; [apply (Hin keyNode); [now left | apply nodesOf_self] |].
           right. right. now exists key.
        -- cbn [bind fst snd] in Hb. injection Hb as <-. constructor.
    + intros [= <-]. rewrite reportMissing_spec. apply Hmiss.
  - destruct (negb (isArraySchema rs)); [intros [= <-]; constructor |].
    destruct children as [cs |]; [| intros [= <-]; constructor].
    rewrite (visitElements_elements visit Hvisit).
    destruct (concatM _ _) as [a | |] eqn:Helements; cbn [bind]; try discriminate.
    intros [= <-]. cbn [app].
    eapply concatM_Forall; [| exact Helements]. intros ie b Hie Hb.
    unfold elementDiagnostics in Hb. cbv zeta in Hb.
    destruct (truthy (resolveArrayItemSchema (member rs "items") (fst ie)));
      [| injection Hb as <-; constructor].
    assert (He : In (snd ie) cs).
    { destruct ie as [i e]. now apply in_combine_r in Hie. }
    assert (Hsize : node_size (snd ie) <
                    node_size (mkNode TArray value offset length (Some cs))).
    { rewrite node_size_children. pose proof (node_size_In _ _ He). lia. }
    eapply Forall_impl; [| exact (IH (snd ie) Hsize _ _ Hb)].
    intros d. apply reportedOn_below. now apply nodesOf_child.
Qed.

(** X17. Every diagnostic that [collectDiagnostics] returns is of one of
    three kinds and lies on a node of the document: a type mismatch on the
    range of a node, a missing required property on the first character of
    an object node, or, only when [showUnknownProperties] is set, an unknown
    property on the range of the node of a key. *)
Theorem diagnostics_are_on_nodes_of_the_document (fuel : nat) (root : Node)
    (schema : json) (document : TextDocument) (config : ExtensionConfig)
    (found : list Diagnostic) :
  collectDiagnostics fuel root schema document config = Ok found ->
  Forall (reportedOn document config root) found.
Proof.
  unfold collectDiagnostics. cbv zeta.
  destruct (resolveSchemaNode fuel (Some schema) schema []) as [r | |];
    cbn [bind]; try discriminate.
  destruct (negb (truthy r)); [intros [= <-]; constructor |].
  apply visit_reported.
Qed.

End MatcherInvariants.

(** The document [{"a": 1}] against a schema that requires [a] and [b]. *)
Lemma every_diagnostic_is_a_warning_witness :
  every_runtime (fun rt =>
    Forall (fun d => severity d = SeverityWarning)
      [createUnknownPropertyDiagnostic
         (mkNode TString (Some (JStr "a")) 1 3 None) "a" oneLineDocument;
       createMissingRequiredDiagnostic documentA "b" oneLineDocument]).
Proof.
  intros rt.
  apply (every_diagnostic_is_a_warning 1 documentA requiresAB oneLineDocument
           defaultConfig).
  reflexivity.
Defined.

(** The document [{"a": 1}] against a schema that requires [a] and [b]:
    [b] is reported, once. *)
Lemma missing_required_exactly_once_witness :
  every_runtime (fun rt =>
    exists fromMembers missing,
      visitProperties
        (fun n s d =>
           visitNodeForDiagnostics 1 n s requiresAB oneLineDocument d defaultConfig)
        requiresAB oneLineDocument defaultConfig
        (match node_children documentA with Some cs => cs | None => [] end)
        ([], []) =
        Ok (fromMembers, rev (documentKeys (node_children documentA))) /\
      [createUnknownPropertyDiagnostic
         (mkNode TString (Some (JStr "a")) 1 3 None) "a" oneLineDocument;
       createMissingRequiredDiagnostic documentA "b" oneLineDocument] =
      fromMembers ++
      map (fun k => createMissingRequiredDiagnostic documentA k oneLineDocument)
          missing /\
      NoDup missing /\
      forall k, In k missing <->
                In k (requiredNames requiresAB) /\ k <> "$schema" /\
                ~ In k (documentKeys (node_children documentA))).
Proof.
  intros rt.
  apply (missing_required_exactly_once 1 None 0%Z 8%Z (node_children documentA)
           (Some requiresAB) requiresAB oneLineDocument [] defaultConfig
           requiresAB);
    reflexivity.
Defined.

(** A string against a schema that holds [enum] only. *)
Lemma schema_without_kind_constrains_nothing_witness :
  every_runtime (fun rt =>
    visitNodeForDiagnostics 1 (mkNode TString (Some (JStr "b")) 0 3 None)
      (Some (JObj [("enum", JArr [JStr "a"])])) (JObj [("enum", JArr [JStr "a"])])
      oneLineDocument [] defaultConfig = Ok []).
Proof.
  intros rt.
  apply (schema_without_kind_constrains_nothing 1
           (mkNode TString (Some (JStr "b")) 0 3 None)
           (Some (JObj [("enum", JArr [JStr "a"])]))
           (JObj [("enum", JArr [JStr "a"])]) oneLineDocument [] defaultConfig
           (JObj [("enum", JArr [JStr "a"])]));
    reflexivity.
Defined.

(** The document [{"a": 1}] against a schema that requires [a] and [b]. *)
Lemma object_diagnostics_in_document_order_witness :
  every_runtime (fun rt =>
    visitNodeForDiagnostics 1 documentA (Some requiresAB) requiresAB
      oneLineDocument [] defaultConfig =
    (requiredSet <- requiredSetOf requiresAB ;;
     fromMembers <-
       concatM (memberDiagnostics
                  (fun n s d =>
                     visitNodeForDiagnostics 1 n s requiresAB oneLineDocument d
                       defaultConfig)
                  requiresAB oneLineDocument defaultConfig)
         (match node_children documentA with Some cs => cs | None => [] end) ;;
     Ok ([] ++ fromMembers ++
         map (fun k => createMissingRequiredDiagnostic documentA k oneLineDocument)
             (missingKeys requiredSet
                (rev (documentKeys (node_children documentA))))))).
Proof.
  intros rt.
  apply (object_diagnostics_in_document_order 1 None 0%Z 8%Z
           (node_children documentA) (Some requiresAB) requiresAB
           oneLineDocument [] defaultConfig requiresAB);
    reflexivity.
Defined.

(** The array [[1, 2, "x"]] against a schema of arrays of integers. *)
Lemma array_diagnostics_in_element_order_witness :
  every_runtime (fun rt =>
    visitNodeForDiagnostics 1 (mkNode TArray None 0 11 (Some elements12x))
      (Some integerItems) integerItems oneLineDocument [] defaultConfig =
    (fromElements <-
       concatM (elementDiagnostics
                  (fun n s d =>
                     visitNodeForDiagnostics 1 n s integerItems oneLineDocument d
                       defaultConfig)
                  (member integerItems "items"))
         (combine (seq 0 (List.length elements12x)) elements12x) ;;
     Ok ([] ++ fromElements))).
Proof.
  intros rt.
  apply (array_diagnostics_in_element_order 1 None 0%Z 11%Z elements12x
           (Some integerItems) integerItems oneLineDocument [] defaultConfig
           integerItems);
    reflexivity.
Defined.

(** The document [{"a": 1}] against a schema that requires [a] and [b]. *)
Lemma diagnostics_are_on_nodes_of_the_document_witness :
  every_runtime (fun rt =>
    Forall (reportedOn oneLineDocument defaultConfig documentA)
      [createUnknownPropertyDiagnostic
         (mkNode TString (Some (JStr "a")) 1 3 None) "a" oneLineDocument;
       createMissingRequiredDiagnostic documentA "b" oneLineDocument]).
Proof.
  intros rt.
  apply (diagnostics_are_on_nodes_of_the_document 1 documentA requiresAB
           oneLineDocument defaultConfig).
  reflexivity.
Defined.

(** ** The item schema of an array element, in the matcher *)

Lemma concatM_nth {A : Type} (f : A -> result (list Diagnostic)) (l : list A) :
  forall added i x,
    concatM f l = Ok added -> nth_error l i = Some x ->
    exists before a after, f x = Ok a /\ added = before ++ a ++ after.
Proof.
  induction l as [| y r IH]; intros added i x Hall Hi; [now destruct i |].
  cbn [concatM] in Hall.
  destruct (f y) as [a | |] eqn:Hy; cbn [bind] in Hall; try discriminate.
  destruct (concatM f r) as [b | |] eqn:Hr; cbn [bind] in Hall; try discriminate.
  injection Hall as <-. destruct i as [| i]; cbn [nth_error] in Hi.
  - injection Hi as <-. exists [], a, b. now split.
  - destruct (IH b i x eq_refl Hi) as (before & a' & after & Hx & ->).
    exists (a ++ before), a', after. split; [exact Hx |]. now rewrite app_assoc.
Qed.

Lemma nth_error_indexed {A : Type} (l : list A) : forall start i x,
  nth_error l i = Some x ->
  nth_error (combine (seq start (List.length l)) l) i = Some (start + i, x).
Proof.
  induction l as [| y r IH]; intros start i x Hi; [now destruct i |].
  cbn [List.length seq combine]. destruct i as [| i]; cbn [nth_error] in *.
  - injection Hi as <-. now rewrite Nat.add_0_r.
  - rewrite (IH (S start) i x Hi). f_equal. f_equal. lia.
Qed.

Lemma incompatible_truthy {rt : JsRuntime} (node : Node) (schema : json) :
  isNodeTypeCompatible node schema = false -> truthy (Some schema) = true.
Proof.
  destruct (truthy (Some schema)) eqn:Hfalsy; [reflexivity |].
  unfold isNodeTypeCompatible, getSchemaTypeCandidates.
  rewrite !(falsy_no_member schema) by (assumption || reflexivity).
  discriminate.
Qed.

(** An array node against an array schema: the sink, then what each element
    adds. *)
Section ItemSchema.
Context {rt : JsRuntime}.

Lemma visit_array_elements (fuel : nat) value offset length elements
    (schema : option json) (rootSchema : json) (document : TextDocument)
    (diagnostics : list Diagnostic) (config : ExtensionConfig)
    (resolvedSchema : json) :
  resolveSchemaNode fuel schema rootSchema [] = Ok (Some resolvedSchema) ->
  isNodeTypeCompatible (mkNode TArray value offset length (Some elements))
    resolvedSchema = true ->
  isArraySchema resolvedSchema = true ->
  visitNodeForDiagnostics fuel (mkNode TArray value offset length (Some elements))
    schema rootSchema document diagnostics config =
  (fromElements <-
     concatM
       (elementDiagnostics
          (fun n s d =>
             visitNodeForDiagnostics fuel n s rootSchema document d config)
          (member resolvedSchema "items"))
       (combine (seq 0 (List.length elements)) elements) ;;
   Ok (diagnostics ++ fromElements)).
Proof.
  intros Hres Hcompat Harray. rewrite visitNodeForDiagnostics_eq.
  rewrite (resolveSchemaNode_truthy _ _ _ _ _ Hres), Hres. cbn [negb bind].
  rewrite (isArraySchema_truthy _ Harray), Hcompat.
  cbn [negb node_type node_children]. cbv zeta. rewrite Harray. cbn [negb].
  apply (visitElements_elements _
           (fun n s d => visit_appends fuel rootSchema document config n s d)).
Qed.

Lemma element_diagnostics (fuel : nat) value offset length elements
    (schema : option json) (rootSchema : json) (document : TextDocument)
    (diagnostics : list Diagnostic) (config : ExtensionConfig)
    (resolvedSchema : json) (found : list Diagnostic) (index : nat)
    (element : Node) :
  resolveSchemaNode fuel schema rootSchema [] = Ok (Some resolvedSchema) ->
  isNodeTypeCompatible (mkNode TArray value offset length (Some elements))
    resolvedSchema = true ->
  isArraySchema resolvedSchema = true ->
  visitNodeForDiagnostics fuel (mkNode TArray value offset length (Some elements))
    schema rootSchema document diagnostics config = Ok found ->
  nth_error elements index = Some element ->
  exists before fromElement after,
    found = diagnostics ++ before ++ fromElement ++ after /\
    elementDiagnostics
      (fun n s d => visitNodeForDiagnostics fuel n s rootSchema document d config)
      (member resolvedSchema "items") (index, element) = Ok fromElement.
Proof.
  intros Hres Hcompat Harray Hfound Helement.
  rewrite (visit_array_elements fuel value offset length elements schema
             rootSchema document diagnostics config resolvedSchema
             Hres Hcompat Harray) in Hfound.
  destruct (concatM _ _) as [added | |] eqn:Hadded; cbn [bind] in Hfound;
    try discriminate.
  injection Hfound as <-.
  pose proof (nth_error_indexed elements 0 index element Helement) as Hi.
  destruct (concatM_nth _ _ _ _ _ Hadded Hi) as (before & a & after & Ha & ->).
  exists before, a, after. split; [reflexivity | exact Ha].
Qed.

End ItemSchema.

(** C7, as the code has it.  The schema applied to the element at position
    [index] of an array: [items] itself when it is a single schema; when
    [items] is a sequence, the entry at [index], or the last entry in place
    of an entry that is [null]; the last entry when [index] is beyond the
    sequence; nothing when the sequence is empty.  This schema constrains the
    element: what the matcher returns for the array is the sink followed by
    what it returns for each element in turn against the schema of its
    position, so an element of a kind that the schema of its position
    excludes has its type-mismatch diagnostic among the diagnostics of the
    array.  An empty sequence constrains no element. *)
Theorem array_item_schema_by_position {rt : JsRuntime} :
  (forall items index,
     truthy items = true -> isArray items = false ->
     resolveArrayItemSchema items index = items) /\
  (forall entries index entry,
     nth_error entries index = Some entry ->
     resolveArrayItemSchema (Some (JArr entries)) index =
     Some (match entry with JNull => List.last entries JNull | _ => entry end)) /\
  (forall entries index,
     entries <> [] -> List.length entries <= index ->
     resolveArrayItemSchema (Some (JArr entries)) index =
     Some (List.last entries JNull)) /\
  (forall index, resolveArrayItemSchema (Some (JArr [])) index = None) /\
  (forall fuel value offset length elements schema rootSchema document
          diagnostics config resolvedSchema,
     let visit := fun n s d =>
       visitNodeForDiagnostics fuel n s rootSchema document d config in
     resolveSchemaNode fuel schema rootSchema [] = Ok (Some resolvedSchema) ->
     isNodeTypeCompatible (mkNode TArray value offset length (Some elements))
       resolvedSchema = true ->
     isArraySchema resolvedSchema = true ->
     visitNodeForDiagnostics fuel
       (mkNode TArray value offset length (Some elements)) schema rootSchema
       document diagnostics config =
     (fromElements <-
        concatM
          (fun indexed =>
             let itemSchema :=
               resolveArrayItemSchema (member resolvedSchema "items")
                 (fst indexed) in
             if truthy itemSchema then visit (snd indexed) itemSchema []
             else Ok [])
          (combine (seq 0 (List.length elements)) elements) ;;
      Ok (diagnostics ++ fromElements))) /\
  (forall fuel value offset length elements schema rootSchema document
          diagnostics config resolvedSchema found index element,
     let visit := fun n s d =>
       visitNodeForDiagnostics fuel n s rootSchema document d config in
     let itemSchema :=
       resolveArrayItemSchema (member resolvedSchema "items") index in
     resolveSchemaNode fuel schema rootSchema [] = Ok (Some resolvedSchema) ->
     isNodeTypeCompatible (mkNode TArray value offset length (Some elements))
       resolvedSchema = true ->
     isArraySchema resolvedSchema = true ->
     visitNodeForDiagnostics fuel
       (mkNode TArray value offset length (Some elements)) schema rootSchema
       document diagnostics config = Ok found ->
     nth_error elements index = Some element ->
     (exists before fromElement after,
        found = diagnostics ++ before ++ fromElement ++ after /\
        (if truthy itemSchema then visit element itemSchema [] else Ok []) =
        Ok fromElement) /\
     (forall elementSchema,
        resolveSchemaNode fuel itemSchema rootSchema [] = Ok (Some elementSchema) ->
        isNodeTypeCompatible element elementSchema = false ->
        In (createTypeMismatchDiagnostic element elementSchema document) found)) /\
  (forall fuel value offset length elements schema rootSchema document
          diagnostics config resolvedSchema,
     resolveSchemaNode fuel schema rootSchema [] = Ok (Some resolvedSchema) ->
     isNodeTypeCompatible (mkNode TArray value offset length (Some elements))
       resolvedSchema = true ->
     member resolvedSchema "items" = Some (JArr []) ->
     visitNodeForDiagnostics fuel
       (mkNode TArray value offset length (Some elements)) schema rootSchema
       document diagnostics config = Ok diagnostics).
Proof.
  split; [| split; [| split; [| split; [| split; [| split]]]]].
  - intros items index Htruthy Harray. unfold resolveArrayItemSchema.
    rewrite Htruthy. simpl.
    destruct items as [[| b | n | s | l | ms | [| []]] |]; try reflexivity;
      discriminate.
  - intros entries index entry Hnth. unfold resolveArrayItemSchema.
    simpl. rewrite Hnth. destruct entry; try reflexivity.
    destruct (List.length entries) as [| last] eqn:Hl.
    + destruct entries; [now destruct index | discriminate].
    + now apply nth_error_last.
  - intros entries index Hne Hlen. unfold resolveArrayItemSchema. simpl.
    rewrite (proj2 (nth_error_None entries index) Hlen).
    destruct (List.length entries) as [| last] eqn:Hl.
    + destruct entries; [contradiction | discriminate].
    + now apply nth_error_last.
  - intros index. destruct index; reflexivity.
  - intros fuel value offset length elements schema rootSchema document
      diagnostics config resolvedSchema visit Hres Hcompat Harray.
    now apply visit_array_elements.
  - intros fuel value offset length elements schema rootSchema document
      diagnostics config resolvedSchema found index element visit itemSchema
      Hres Hcompat Harray Hfound Helement.
    destruct (element_diagnostics fuel value offset length elements schema
                rootSchema document diagnostics config resolvedSchema found
                index element Hres Hcompat Harray Hfound Helement)
      as (before & a & after & -> & Ha).
    unfold elementDiagnostics in Ha. cbn [fst snd] in Ha. cbv zeta in Ha.
    fold itemSchema in Ha. fold visit in Ha.
    split; [now exists before, a, after |].
    intros elementSchema Hschema Hbad.
    rewrite (resolveSchemaNode_truthy _ _ _ _ _ Hschema) in Ha.
    unfold visit in Ha.
    rewrite (visit_mismatch fuel element itemSchema rootSchema document []
               config elementSchema Hschema (incompatible_truthy _ _ Hbad) Hbad)
      in Ha.
    injection Ha as <-.
    apply in_or_app. right. apply in_or_app. right. now left.
  - intros fuel value offset length elements schema rootSchema document
      diagnostics config resolvedSchema Hres Hcompat Hitems.
    rewrite visitNodeForDiagnostics_eq.
    rewrite (resolveSchemaNode_truthy _ _ _ _ _ Hres), Hres. cbn [negb bind].
    assert (Harray : isArraySchema resolvedSchema = true).
    { unfold isArraySchema. rewrite Hitems. apply orb_true_r. }
    rewrite (isArraySchema_truthy _ Harray), Hcompat.
    cbn [negb node_type node_children]. cbv zeta. rewrite Harray, Hitems.
    cbn [negb]. generalize 0 as index.
    induction elements as [| e rest IH]; intros index; [reflexivity |].
    cbn [visitElements]. cbv zeta.
    replace (resolveArrayItemSchema (Some (JArr [])) index) with (@None json)
      by (now destruct index).
    cbn [truthy bind]. apply IH.
    unfold isNodeTypeCompatible in *. exact Hcompat.
Qed.

(** The tuple [[{type: string}, {type: number}]] at positions 1 and 7,
    a single schema at position 7, the array [["a", "b"]] against the
    tuple, and against an empty sequence. *)
Lemma array_item_schema_by_position_witness :
  every_runtime (fun rt =>
    resolveArrayItemSchema
      (Some (JArr [JObj [("type", JStr "string")]; JObj [("type", JStr "number")]]))
      1 = Some (JObj [("type", JStr "number")]) /\
    resolveArrayItemSchema
      (Some (JArr [JObj [("type", JStr "string")]; JObj [("type", JStr "number")]]))
      7 = Some (JObj [("type", JStr "number")]) /\
    resolveArrayItemSchema (Some (JObj [("type", JStr "string")])) 7 =
    Some (JObj [("type", JStr "string")]) /\
    In (createTypeMismatchDiagnostic (mkNode TString (Some (JStr "b")) 6 3 None)
          (JObj [("type", JStr "number")]) oneLineDocument)
       [createTypeMismatchDiagnostic (mkNode TString (Some (JStr "b")) 6 3 None)
          (JObj [("type", JStr "number")]) oneLineDocument] /\
    visitNodeForDiagnostics 1 (mkNode TArray None 0 10 (Some elementsAB))
      (Some (JObj [("items", JArr [])])) JNull oneLineDocument [] defaultConfig =
    Ok []).
Proof.
  intros rt.
  destruct (@array_item_schema_by_position rt)
    as (Hsingle & Hentry & Hlast & _ & _ & Helement & Hempty).
  split; [| split; [| split; [| split]]].
  - apply (Hentry _ 1 (JObj [("type", JStr "number")])). reflexivity.
  - apply (Hlast [JObj [("type", JStr "string")]; JObj [("type", JStr "number")]] 7);
      [discriminate | simpl; lia].
  - apply Hsingle; reflexivity.
  - refine (proj2 (Helement 1 None 0%Z 10%Z elementsAB (Some stringThenNumber)
                     stringThenNumber oneLineDocument [] defaultConfig
                     stringThenNumber _ 1
                     (mkNode TString (Some (JStr "b")) 6 3 None)
                     _ _ _ _ _) (JObj [("type", JStr "number")]) _ _);
      reflexivity.
  - apply (Hempty 1 None 0%Z 10%Z elementsAB (Some (JObj [("items", JArr [])]))
             JNull oneLineDocument [] defaultConfig (JObj [("items", JArr [])]));
      reflexivity.
Defined.

(** C7, as the specification words it, fails: the entry at a position
    within the sequence is not always the schema of that position.  In
    [[null, {type: string}]] the entry at 0 is [null], and the element at 0
    is matched against the last entry: a number there is reported. *)
Lemma array_item_null_entry_fails :
  every_runtime (fun rt =>
    let entries := [JNull; JObj [("type", JStr "string")]] in
    let element := mkNode TNumber (Some (JNum (S754_finite false 1 0))) 1 1 None in
    nth_error entries 0 = Some JNull /\
    resolveArrayItemSchema (Some (JArr entries)) 0 =
    Some (JObj [("type", JStr "string")]) /\
    visitNodeForDiagnostics 1 (mkNode TArray None 0 3 (Some [element]))
      (Some (JObj [("items", JArr entries)])) JNull oneLineDocument []
      defaultConfig =
    Ok [createTypeMismatchDiagnostic element (JObj [("type", JStr "string")])
          oneLineDocument] /\
    ~ (forall index entry,
         nth_error entries index = Some entry ->
         resolveArrayItemSchema (Some (JArr entries)) index = Some entry)).
Proof.
  intros rt. cbv zeta. split; [reflexivity |]. split; [reflexivity |].
  split; [reflexivity |].
  intros H. specialize (H 0 JNull eq_refl). discriminate H.
Qed.

(** ** Pointers *)

Lemma replace2_escapePart (part : string) :
  replace2 "~" "1" "/" (escapePart part) = tildes part.
Proof.
  induction part as [| c r IH]; [reflexivity |]. cbn [escapePart tildes].
  destruct (Ascii.eqb c "~") eqn:Htilde.
  - cbn [replace2]. change (Ascii.eqb "~" "~") with true.
    change (Ascii.eqb "0" "1") with false. change (Ascii.eqb "0" "~") with false.
    cbv iota. now rewrite IH.
  - destruct (Ascii.eqb c "/") eqn:Hslash.
    + cbn [replace2]. change (Ascii.eqb "~" "~") with true.
      change (Ascii.eqb "1" "1") with true. cbv iota.
      apply Ascii.eqb_eq in Hslash. subst c. now rewrite IH.
    + cbn [replace2]. rewrite Htilde. now rewrite IH.
Qed.

Lemma replace2_tildes (part : string) :
  replace2 "~" "0" "~" (tildes part) = part.
Proof.
  induction part as [| c r IH]; [reflexivity |]. cbn [tildes].
  destruct (Ascii.eqb c "~") eqn:Htilde.
  - cbn [replace2]. change (Ascii.eqb "~" "~") with true.
    change (Ascii.eqb "0" "0") with true. cbv iota.
    apply Ascii.eqb_eq in Htilde. subst c. now rewrite IH.
  - cbn [replace2]. rewrite Htilde. now rewrite IH.
Qed.

Lemma unescape_escapePart (part : string) : unescape (escapePart part) = part.
Proof. unfold unescape. now rewrite replace2_escapePart, replace2_tildes. Qed.

Lemma escapePart_no_slash (part : string) : contains "/" (escapePart part) = false.
Proof.
  induction part as [| c r IH]; [reflexivity |]. cbn [escapePart].
  destruct (Ascii.eqb c "~"); [exact IH |].
  destruct (Ascii.eqb c "/") eqn:Hslash; [exact IH |].
  cbn [contains]. now rewrite Hslash, IH.
Qed.

Lemma split_plain (s : string) :
  contains "/" s = false -> split "/" s = [s].
Proof.
  induction s as [| c r IH]; [reflexivity |]. cbn [contains split].
  intros H. apply orb_false_elim in H. destruct H as [Hc Hr].
  rewrite Hc, (IH Hr). reflexivity.
Qed.

Lemma split_segment (s t : string) :
  contains "/" s = false ->
  split "/" (s ++ String "/" t)%string = s :: split "/" t.
Proof.
  induction s as [| c r IH]; intros H.
  - reflexivity.
  - cbn [contains] in H. apply orb_false_elim in H. destruct H as [Hc Hr].
    cbn [String.append split]. rewrite Hc, (IH Hr). reflexivity.
Qed.

Lemma split_join (l : list string) :
  l <> [] -> Forall (fun s => contains "/" s = false) l ->
  split "/" (join "/" l) = l.
Proof.
  unfold join. induction l as [| x r IH]; [congruence |]. intros _ Hall.
  inversion Hall as [| ? ? Hx Hr]; subst. destruct r as [| y r'].
  - cbn [concat]. now apply split_plain.
  - change (concat "/" (x :: y :: r')) with (x ++ String "/" (concat "/" (y :: r')))%string.
    rewrite split_segment by assumption. f_equal. apply IH; [discriminate | assumption].
Qed.

Lemma pointerParts_pointerTo (parts : list string) :
  parts <> [] -> pointerParts (pointerTo parts) = parts.
Proof.
  intros Hne. unfold pointerParts, pointerTo.
  change (slice 2 ("#/" ++ join "/" (map escapePart parts)))
    with (join "/" (map escapePart parts)).
  rewrite split_join.
  - rewrite map_map. rewrite <- (map_id parts) at 2. apply map_ext.
    apply unescape_escapePart.
  - destruct parts; [congruence | discriminate].
  - apply Forall_forall. intros s Hs. apply in_map_iff in Hs.
    destruct Hs as [p [<- _]]. apply escapePart_no_slash.
Qed.

(** X18. A pointer reaches the keys it names, whatever their characters:
    the pointer made of the escaped keys ([~] as [~0], [/] as [~1]) decodes to
    these keys, and [resolvePointer] walks down them from the root.  A
    pointer of one key into an object returns the own member of that name
    and, when there is none, the member of that name that objects inherit
    ([constructor], [toString], ...). *)
Theorem pointer_reaches_escaped_keys {rt : JsRuntime} (rootSchema : json)
    (parts : list string) :
  parts <> [] ->
  pointerParts (pointerTo parts) = parts /\
  resolvePointer rootSchema (pointerTo parts) = walk (Some rootSchema) parts /\
  forall ms key,
    resolvePointer (JObj ms) (pointerTo [key]) =
    match lookup key ms with
    | Some v => Some v
    | None => inheritedMember KObject key
    end.
Proof.
  intros Hne.
  assert (Hresolve : forall root l, l <> [] ->
            resolvePointer root (pointerTo l) = walk (Some root) l).
  { intros root l Hl. unfold resolvePointer.
    change (startsWith (pointerTo l) "#/") with true. cbn [negb].
    now rewrite pointerParts_pointerTo. }
  split; [now apply pointerParts_pointerTo |]. split; [now apply Hresolve |].
  intros ms key. rewrite Hresolve by discriminate.
  cbn [walk truthy typeofObject negb orb getOf]. unfold get. cbn [member kindOf].
  destruct (lookup key ms); [reflexivity |].
  destruct (inheritedMember KObject key); reflexivity.
Qed.

(** The keys [a/b] and [c~d]; the keys [a/b] and [constructor] of the
    object that holds only the first. *)
Lemma pointer_reaches_escaped_keys_witness :
  every_runtime (fun rt =>
    (pointerParts (pointerTo ["a/b"; "c~d"]) = ["a/b"; "c~d"] /\
     resolvePointer (JObj [("a/b", JObj [("c~d", JBool true)])])
       (pointerTo ["a/b"; "c~d"]) = Some (JBool true)) /\
    resolvePointer (JObj [("a/b", JNull)]) (pointerTo ["a/b"]) = Some JNull /\
    resolvePointer (JObj [("a/b", JNull)]) (pointerTo ["constructor"]) =
    Some (JHost HostFunction)).
Proof.
  intros rt.
  destruct (pointer_reaches_escaped_keys
              (JObj [("a/b", JObj [("c~d", JBool true)])]) ["a/b"; "c~d"])
    as (Hparts & Hwalk & Hkey); [discriminate |].
  split; [split; [exact Hparts | rewrite Hwalk; reflexivity] |].
  split; [exact (Hkey [("a/b", JNull)] "a/b") |].
  exact (Hkey [("a/b", JNull)] "constructor").
Defined.

(** ** The merged schema *)

Section Merge.
Context {rt : JsRuntime}.

Lemma in_assign_keys (k : string) (v : json) (ms : list (string * json)) (x : string) :
  In x (map fst (assign k v ms)) -> x = k \/ In x (map fst ms).
Proof.
  induction ms as [| [k' v'] r IH]; cbn [assign map fst In].
  - intros [<- | []]. now left.
  - destruct (k' =? k); cbn [map fst In].
    + intros [<- | H]; auto.
    + intros [<- | H]; auto. destruct (IH H); auto.
Qed.

Lemma assign_distinct (k : string) (v : json) (ms : list (string * json)) :
  NoDup (map fst ms) -> NoDup (map fst (assign k v ms)).
Proof.
  induction ms as [| [k' v'] r IH]; cbn [assign map fst]; intros Hnd.
  - repeat constructor. intros [].
  - inversion Hnd as [| ? ? Hnotin Hr]; subst.
    destruct (String.eqb_spec k' k) as [-> | Hne]; cbn [map fst].
    + now constructor.
    + constructor; [| now apply IH].
      intros Hin. apply in_assign_keys in Hin. destruct Hin; [congruence | contradiction].
Qed.

Lemma lookup_absent (k : string) (ms : list (string * json)) :
  ~ In k (map fst ms) -> lookup k ms = None.
Proof.
  induction ms as [| [k' v'] r IH]; [reflexivity |]. cbn [map fst In lookup].
  intros Hnotin. destruct (String.eqb_spec k' k) as [-> | Hne]; [tauto |].
  apply IH. tauto.
Qed.

Lemma assignAll_spec (entries : list (string * json)) :
  forall acc,
    NoDup (map fst entries) -> NoDup (map fst acc) ->
    NoDup (map fst (fold_left (fun acc kv => assign (fst kv) (snd kv) acc)
                              entries acc)) /\
    forall k, lookup k (fold_left (fun acc kv => assign (fst kv) (snd kv) acc)
                                  entries acc) =
              match lookup k entries with
              | Some v => Some v
              | None => lookup k acc
              end.
Proof.
  induction entries as [| [k' v'] r IH]; intros acc Hes Hacc; cbn [fold_left fst snd].
  - split; [assumption | reflexivity].
  - cbn [map fst] in Hes. inversion Hes as [| ? ? Hnotin Hr]; subst.
    destruct (IH (assign k' v' acc) Hr (assign_distinct _ _ _ Hacc)) as [Hnd Hlook].
    split; [exact Hnd |]. intros k. rewrite Hlook. cbn [lookup].
    destruct (String.eqb_spec k' k) as [-> | Hne].
    + rewrite (lookup_absent _ _ Hnotin). apply lookup_assign_same.
    + destruct (lookup k r); [reflexivity |].
      apply lookup_assign_other. now apply String.eqb_neq.
Qed.

Lemma spread_spec (a b : option json) :
  NoDup (map fst (ownEntries a)) -> NoDup (map fst (ownEntries b)) ->
  NoDup (map fst (spread a b)) /\
  forall k, lookup k (spread a b) =
            match lookup k (ownEntries b) with
            | Some v => Some v
            | None => lookup k (ownEntries a)
            end.
Proof.
  intros Ha Hb. unfold spread. rewrite fold_left_app.
  destruct (assignAll_spec (ownEntries a) [] Ha (NoDup_nil _)) as [Hnd1 Hl1].
  destruct (assignAll_spec (ownEntries b) _ Hb Hnd1) as [Hnd2 Hl2].
  split; [exact Hnd2 |]. intros k. rewrite Hl2, Hl1.
  destruct (lookup k (ownEntries b)); [reflexivity |].
  destruct (lookup k (ownEntries a)); reflexivity.
Qed.

Lemma falsy_no_properties (schema : json) :
  truthy (Some schema) = false -> member schema "properties" = None.
Proof.
  destruct schema as [| [] | n | s | l | ms | h]; try discriminate; reflexivity.
Qed.

Lemma mergeStep_properties merged merged' schema found :
  mergeStep merged schema = Ok merged' ->
  distinctProperties schema ->
  propertiesAre merged found ->
  propertiesAre merged'
    (fun k => match propertyIn k schema with Some v => Some v | None => found k end).
Proof.
  unfold mergeStep, propertiesAre, propertyIn, distinctProperties.
  intros Hstep Hdistinct (Hshape & Hnd & Hfound).
  destruct (truthy (Some schema)) eqn:Htruthy; cbn [negb] in Hstep.
  - cbv zeta in Hstep.
    destruct (mergeRequired (mergeProperties (mergeType merged schema) schema) schema)
      as [m | |] eqn:Hreq; cbn [bind] in Hstep; try discriminate.
    injection Hstep as <-.
    assert (Hlook : lookup "properties"
                      (mergeAdditionalProperties (mergeItems m schema) schema) =
                    lookup "properties" (mergeProperties (mergeType merged schema) schema)).
    { rewrite mergeAdditionalProperties_lookup, mergeItems_lookup. cbn [String.eqb andb].
      change ("properties" =? "additionalProperties") with false.
      change ("properties" =? "items") with false. cbn [andb].
      now apply (mergeRequired_lookup _ _ schema). }
    rewrite Hlook. unfold mergeProperties.
    assert (Hbefore : lookup "properties" (mergeType merged schema) =
                      lookup "properties" merged).
    { rewrite mergeType_lookup. change ("properties" =? "type") with false.
      reflexivity. }
    destruct (truthy (member schema "properties")).
    + rewrite lookup_assign_same, Hbefore. cbn [ownEntries].
      destruct (spread_spec (lookup "properties" merged) (member schema "properties")
                  Hnd Hdistinct) as [Hnd' Hl'].
      split; [right; eauto |]. split; [exact Hnd' |].
      intros k. rewrite Hl', Hfound. reflexivity.
    + rewrite Hbefore. split; [exact Hshape |]. split; [exact Hnd |].
      intros k. apply Hfound.
  - injection Hstep as <-. rewrite (falsy_no_properties _ Htruthy). cbn [truthy].
    split; [exact Hshape |]. now split.
Qed.

Lemma mergeLoop_properties (schemas : list json) :
  forall merged merged' found,
    mergeLoop merged schemas = Ok merged' ->
    Forall distinctProperties schemas ->
    propertiesAre merged found ->
    propertiesAre merged' (fun k => lastPropertyIn k schemas (found k)).
Proof.
  induction schemas as [| b rest IH]; intros merged merged' found; cbn [mergeLoop].
  - intros [= <-] _ H. exact H.
  - destruct (mergeStep merged b) as [m | |] eqn:Hstep; cbn [bind]; try discriminate.
    intros Hloop Hall Hinv. inversion Hall as [| ? ? Hb Hrest]; subst.
    pose proof (mergeStep_properties _ _ _ _ Hstep Hb Hinv) as Hinv'.
    exact (IH _ _ _ Hloop Hrest Hinv').
Qed.

(** X19. [properties] is merged one level deep: in the merged schema the
    schema of a property is the one of the last branch that declares the
    property; the schemas that earlier branches give for it are dropped, not
    combined. *)
Theorem merged_properties_last_branch_wins (schemas : list json) (merged : json) :
  mergeSchemas schemas = Ok (Some merged) ->
  Forall distinctProperties schemas ->
  forall k, field (member merged "properties") k = lastPropertyIn k schemas None.
Proof.
  unfold mergeSchemas. destruct schemas as [| b rest]; [discriminate |].
  destruct (mergeLoop [] (b :: rest)) as [m | |] eqn:Hloop; try discriminate.
  cbn [bind]. intros [= <-] Hall k.
  assert (Hstart : propertiesAre [] (fun _ => None)).
  { split; [now left |]. split; [constructor | reflexivity]. }
  destruct (mergeLoop_properties _ _ _ _ Hloop Hall Hstart) as (Hshape & _ & Hfound).
  rewrite <- Hfound. cbn [member].
  destruct Hshape as [-> | [ms ->]]; reflexivity.
Qed.

Lemma mergeStep_other_keys merged merged' schema k :
  mergeStep merged schema = Ok merged' ->
  ~ In k mergedKeys -> lookup k merged' = lookup k merged.
Proof.
  unfold mergeStep, mergedKeys. intros Hstep Hk. cbn [In] in Hk.
  assert (Hne : (k =? "type") = false /\ (k =? "properties") = false /\
                (k =? "required") = false /\ (k =? "items") = false /\
                (k =? "additionalProperties") = false).
  { repeat split; apply String.eqb_neq; intros ->; tauto. }
  destruct Hne as (H1 & H2 & H3 & H4 & H5).
  destruct (negb (truthy (Some schema))); [now injection Hstep as <- |].
  cbv zeta in Hstep.
  destruct (mergeRequired (mergeProperties (mergeType merged schema) schema) schema)
    as [m | |] eqn:Hreq; cbn [bind] in Hstep; try discriminate.
  injection Hstep as <-.
  rewrite mergeAdditionalProperties_lookup, H5. cbn [andb].
  rewrite mergeItems_lookup, H4. cbn [andb].
  rewrite (mergeRequired_lookup _ _ schema k H3 Hreq).
  rewrite (mergeProperties_lookup _ _ _ H2).
  rewrite mergeType_lookup, H1. reflexivity.
Qed.

Lemma mergeLoop_other_keys (schemas : list json) k :
  forall merged merged',
    mergeLoop merged schemas = Ok merged' ->
    ~ In k mergedKeys -> lookup k merged' = lookup k merged.
Proof.
  induction schemas as [| b rest IH]; intros merged merged'; cbn [mergeLoop].
  - now intros [= <-].
  - destruct (mergeStep merged b) as [m | |] eqn:Hstep; cbn [bind]; try discriminate.
    intros Hloop Hk. rewrite (IH _ _ Hloop Hk).
    exact (mergeStep_other_keys _ _ _ _ Hstep Hk).
Qed.

Lemma mergeSchemas_keys (schemas : list json) (merged : json) :
  mergeSchemas schemas = Ok (Some merged) ->
  (exists ms, merged = JObj ms) /\
  forall k, ~ In k mergedKeys -> member merged k = None.
Proof.
  unfold mergeSchemas. destruct schemas as [| b rest]; [discriminate |].
  destruct (mergeLoop [] (b :: rest)) as [m | |] eqn:Hloop; try discriminate.
  cbn [bind]. intros [= <-]. split; [eauto |]. intros k Hk. cbn [member].
  now rewrite (mergeLoop_other_keys _ _ _ _ Hloop Hk).
Qed.

(** The merge returns when [required] can be spread. *)
Lemma mergeStep_returns merged branch :
  (forall r, lookup "required" merged = Some r -> exists l, r = JArr l) ->
  requiredIterable branch = true ->
  exists merged',
    mergeStep merged branch = Ok merged' /\
    forall r, lookup "required" merged' = Some r -> exists l, r = JArr l.
Proof.
  intros Hmerged Hbranch. unfold mergeStep.
  destruct (negb (truthy (Some branch))); [eauto |]. cbv zeta.
  unfold mergeRequired, requiredIterable in *.
  assert (Hsame : lookup "required" (mergeProperties (mergeType merged branch) branch) =
                  lookup "required" merged).
  { rewrite mergeProperties_lookup by reflexivity. now rewrite mergeType_lookup. }
  destruct (truthy (member branch "required")); cbn [negb orb] in Hbranch.
  - cbv zeta. rewrite Hsame.
    destruct (iterate (member branch "required")) as [new |]; [| discriminate].
    assert (Hold : exists old,
              iterate match lookup "required" merged with
                      | Some r => Some r
                      | None => Some (JArr [])
                      end = Some old).
    { destruct (lookup "required" merged) as [r |] eqn:Hr; [| now exists []].
      destruct (Hmerged r eq_refl) as [l ->]. now exists l. }
    destruct Hold as [old ->]. cbn [bind]. eexists. split; [reflexivity |].
    intros r. rewrite mergeAdditionalProperties_lookup, mergeItems_lookup.
    cbn [String.eqb Ascii.eqb Bool.eqb andb]. rewrite lookup_assign_same.
    intros [= <-]. eauto.
  - cbn [bind]. eexists. split; [reflexivity |].
    intros r. rewrite mergeAdditionalProperties_lookup, mergeItems_lookup.
    cbn [String.eqb Ascii.eqb Bool.eqb andb]. rewrite Hsame. apply Hmerged.
Qed.

Lemma mergeLoop_returns (branches : list json) :
  forall merged,
    (forall r, lookup "required" merged = Some r -> exists l, r = JArr l) ->
    forallb requiredIterable branches = true ->
    exists merged', mergeLoop merged branches = Ok merged'.
Proof.
  induction branches as [| b rest IH]; intros merged Hmerged Hall; [now exists merged |].
  cbn [forallb] in Hall. apply andb_prop in Hall. destruct Hall as [Hb Hrest].
  destruct (mergeStep_returns merged b Hmerged Hb) as (m & Hm & Hinv).
  cbn [mergeLoop]. rewrite Hm. cbn [bind]. now apply IH.
Qed.

Lemma mapM_concrete (fuel : nat) (rootSchema : json) (entries : list json) :
  forallb concrete entries = true ->
  mapM (fun entry => resolveSchemaNode (S fuel) (Some entry) rootSchema []) entries =
  Ok (map Some entries) /\
  filterBoolean (map Some entries) = entries.
Proof.
  induction entries as [| e rest IH]; intros Hall; [now split |].
  cbn [forallb] in Hall. apply andb_prop in Hall. destruct Hall as [He Hrest].
  destruct (IH Hrest) as [Hm Hf]. cbn [mapM map filterBoolean].
  rewrite (resolve_concrete fuel e rootSchema [] He), Hm, Hf. cbn [bind].
  split; [reflexivity |].
  unfold concrete in He. destruct (truthy (Some e)); [reflexivity | discriminate].
Qed.

(** X20. What an [allOf] resolves to is an object with no members other
    than [type], [properties], [required], [items] and
    [additionalProperties]: the keywords beside [allOf] and every other
    keyword of the branches are dropped, and resolving the result again
    returns it.  The node does resolve to such an object when its entries
    resolve, one of them at least to a schema, and the [required] of each
    result can be spread; so when its entries are schemas without [$ref] and
    composition keywords whose [required] can be spread. *)
Theorem allOf_keeps_five_keywords (fuel : nat) (schema : option json)
    (rootSchema : json) (seen : list location) :
  hasRef schema = false ->
  nonEmpty (field schema "allOf") = true ->
  (forall merged,
     resolveSchemaNode fuel schema rootSchema seen = Ok (Some merged) ->
     (exists ms, merged = JObj ms) /\
     (forall k, ~ In k mergedKeys -> member merged k = None) /\
     forall fuel', resolveSchemaNode fuel' (Some merged) rootSchema seen =
                   match fuel' with O => OutOfFuel | S _ => Ok (Some merged) end) /\
  (forall entries branches,
     field schema "allOf" = Some (JArr entries) ->
     mapM (fun entry => resolveSchemaNode fuel (Some entry) rootSchema []) entries =
     Ok branches ->
     filterBoolean branches <> [] ->
     forallb requiredIterable (filterBoolean branches) = true ->
     exists ms,
       resolveSchemaNode (S fuel) schema rootSchema seen = Ok (Some (JObj ms)) /\
       forall k, ~ In k mergedKeys -> lookup k ms = None) /\
  (forall entries fuel',
     field schema "allOf" = Some (JArr entries) ->
     forallb concrete entries = true ->
     forallb requiredIterable entries = true ->
     exists ms,
       resolveSchemaNode (S (S fuel')) schema rootSchema seen =
       Ok (Some (JObj ms)) /\
       forall k, ~ In k mergedKeys -> lookup k ms = None).
Proof.
  intros Href HallOf.
  assert (Hmerged : forall f entries branches,
            field schema "allOf" = Some (JArr entries) ->
            mapM (fun entry => resolveSchemaNode f (Some entry) rootSchema [])
                 entries = Ok branches ->
            filterBoolean branches <> [] ->
            forallb requiredIterable (filterBoolean branches) = true ->
            exists ms,
              resolveSchemaNode (S f) schema rootSchema seen = Ok (Some (JObj ms)) /\
              forall k, ~ In k mergedKeys -> lookup k ms = None).
  { intros f entries branches Hentries Hbranches Hsome Hreq.
    rewrite resolveSchemaNode_eq, Href, HallOf, Hentries, Hbranches.
    assert (Htruthy : truthy schema = true).
    { destruct (field_Some_object schema "allOf" _ eq_refl eq_refl Hentries)
        as [ms ->]. reflexivity. }
    rewrite Htruthy. cbn [negb bind].
    destruct (mergeLoop_returns (filterBoolean branches) []) as [m Hm];
      [discriminate | exact Hreq |].
    assert (Hmerge : mergeSchemas (filterBoolean branches) = Ok (Some (JObj m))).
    { unfold mergeSchemas. rewrite Hm.
      destruct (filterBoolean branches); [contradiction | reflexivity]. }
    rewrite Hmerge. exists m. split; [reflexivity |].
    exact (proj2 (mergeSchemas_keys _ _ Hmerge)). }
  split; [| split].
  - intros merged. destruct fuel as [| fuel]; [discriminate |].
    rewrite resolveSchemaNode_eq, Href, HallOf.
    destruct (negb (truthy schema)); [discriminate |].
    destruct (field schema "allOf") as [[| | | | entries | |] |]; try discriminate.
    destruct (mapM _ entries) as [branches | |]; cbn [bind]; try discriminate.
    intros Hmerge. destruct (mergeSchemas_keys _ _ Hmerge) as [[ms ->] Hkeys].
    split; [eauto |]. split; [exact Hkeys |].
    intros [| fuel']; [reflexivity |]. rewrite resolveSchemaNode_eq.
    cbn [truthy negb]. unfold hasRef, nonEmpty. cbn [field].
    rewrite (Hkeys "$ref"), (Hkeys "allOf"), (Hkeys "oneOf"), (Hkeys "anyOf");
      try reflexivity;
      unfold mergedKeys; cbn [In]; intros H; repeat destruct H as [H | H];
      try discriminate H; exact H.
  - intros entries branches. apply Hmerged.
  - intros entries fuel' Hentries Hconcrete Hreq.
    destruct (mapM_concrete fuel' rootSchema entries Hconcrete) as [Hm Hf].
    apply (Hmerged (S fuel') entries (map Some entries) Hentries Hm).
    + rewrite Hf. intros ->. unfold nonEmpty in HallOf. rewrite Hentries in HallOf.
      discriminate.
    + now rewrite Hf.
Qed.

End Merge.

(** Two branches that declare [a]: the second one decides. *)
Lemma merged_properties_last_branch_wins_witness :
  field (member (JObj [("properties",
                        JObj [("a", JObj [("type", JStr "number")]);
                              ("b", JObj [])])]) "properties") "a" =
  lastPropertyIn "a" branchesA None.
Proof.
  apply (merged_properties_last_branch_wins branchesA
           (JObj [("properties",
                   JObj [("a", JObj [("type", JStr "number")]); ("b", JObj [])])])).
  - reflexivity.
  - unfold branchesA, distinctProperties.
    repeat (constructor; cbn [member lookup String.eqb Ascii.eqb Bool.eqb
                              ownEntries map fst]);
      cbn [In]; intuition discriminate.
Defined.

(** An [allOf] of one branch, beside [properties]. *)
Lemma allOf_keeps_five_keywords_witness :
  every_runtime (fun rt =>
    (forall fuel',
       resolveSchemaNode fuel' (Some (JObj [("type", JStr "object")])) JNull [] =
       match fuel' with
       | O => OutOfFuel
       | S _ => Ok (Some (JObj [("type", JStr "object")]))
       end) /\
    (exists ms,
       resolveSchemaNode 2 (Some allOfBesideProperties) JNull [] = Ok (Some (JObj ms)) /\
       forall k, ~ In k mergedKeys -> lookup k ms = None) /\
    (exists ms,
       resolveSchemaNode 2 (Some allOfBesideProperties) JNull [] = Ok (Some (JObj ms)) /\
       forall k, ~ In k mergedKeys -> lookup k ms = None)).
Proof.
  intros rt. cbv zeta.
  split; [| split].
  - refine (proj2 (proj2 (proj1 (allOf_keeps_five_keywords 2 (Some allOfBesideProperties) JNull []
                                   eq_refl eq_refl)
                            (JObj [("type", JStr "object")]) eq_refl))).
  - refine (proj1 (proj2 (allOf_keeps_five_keywords 1 (Some allOfBesideProperties) JNull []
                            eq_refl eq_refl))
              [JObj [("type", JStr "object"); ("enum", JArr [JNull])]]
              [Some (JObj [("type", JStr "object"); ("enum", JArr [JNull])])]
              eq_refl eq_refl _ eq_refl).
    discriminate.
  - refine (proj2 (proj2 (allOf_keeps_five_keywords 0 (Some allOfBesideProperties) JNull []
                            eq_refl eq_refl))
              [JObj [("type", JStr "object"); ("enum", JArr [JNull])]] 0
              eq_refl eq_refl eq_refl).
Defined.

(** ** Malformed schemas *)

Section Malformed.
Context {rt : JsRuntime}.

Lemma mergeStep_throws merged branch :
  truthy (member branch "required") = true ->
  iterate (member branch "required") = None ->
  mergeStep merged branch = Throw.
Proof.
  intros Htruthy Hiter. unfold mergeStep.
  destruct (truthy (Some branch)) eqn:Hb.
  - cbn [negb]. cbv zeta. unfold mergeRequired. rewrite Htruthy, Hiter. cbv zeta.
    match goal with |- context [iterate ?x] => destruct (iterate x) end;
      reflexivity.
  - rewrite (falsy_no_member branch "required" Hb eq_refl) in Htruthy.
    discriminate.
Qed.

Lemma mergeStep_ends merged branch : mergeStep merged branch <> OutOfFuel.
Proof.
  unfold mergeStep. destruct (negb (truthy (Some branch))); [discriminate |].
  cbv zeta. unfold mergeRequired.
  destruct (truthy (member branch "required")); cbn [bind]; [| discriminate].
  cbv zeta. destruct (iterate _); [| discriminate].
  destruct (iterate _); discriminate.
Qed.

Lemma mergeLoop_throws branch (schemas : list json) :
  forall merged,
    In branch schemas ->
    truthy (member branch "required") = true ->
    iterate (member branch "required") = None ->
    mergeLoop merged schemas = Throw.
Proof.
  induction schemas as [| x rest IH]; intros merged Hin Htruthy Hiter;
    [contradiction |].
  cbn [mergeLoop]. destruct Hin as [-> | Hin].
  - now rewrite mergeStep_throws.
  - pose proof (mergeStep_ends merged x) as Hends.
    destruct (mergeStep merged x) as [m | |]; cbn [bind];
      [now apply IH | reflexivity | congruence].
Qed.

(** X21. A [required] that is not a list makes the engine throw.  Matching
    an object node against an object schema whose [required] is neither
    absent, [null] nor an array ends with a [TypeError]; so does the merge of
    an [allOf] with a branch whose [required] is truthy and not iterable
    ([true], a number, an object). *)
Theorem malformed_required_throws :
  (forall fuel value offset length children schema rootSchema document
          diagnostics config resolvedSchema required,
     resolveSchemaNode fuel schema rootSchema [] = Ok (Some resolvedSchema) ->
     isNodeTypeCompatible (mkNode TObject value offset length children)
       resolvedSchema = true ->
     isObjectSchema resolvedSchema = true ->
     member resolvedSchema "required" = Some required ->
     required <> JNull -> isArray (Some required) = false ->
     visitNodeForDiagnostics fuel (mkNode TObject value offset length children)
       schema rootSchema document diagnostics config = Throw) /\
  (forall schemas branch,
     In branch schemas ->
     truthy (member branch "required") = true ->
     iterate (member branch "required") = None ->
     mergeSchemas schemas = Throw).
Proof.
  split.
  - intros fuel value offset length children schema rootSchema document
      diagnostics config resolvedSchema required Hres Hcompat Hobject Hreq Hnull Harr.
    rewrite visitNodeForDiagnostics_eq.
    rewrite (resolveSchemaNode_truthy _ _ _ _ _ Hres), Hres. cbn [negb bind].
    rewrite (isObjectSchema_truthy _ Hobject), Hcompat. cbn [negb]. cbv zeta.
    cbn [node_type node_children]. rewrite Hobject. cbn [negb].
    unfold requiredSetOf. rewrite Hreq.
    destruct required as [| b | n | s | l | ms | [| []]]; try reflexivity;
      try congruence; discriminate.
  - intros schemas branch Hin Htruthy Hiter. unfold mergeSchemas.
    destruct schemas as [| x rest]; [contradiction |].
    now rewrite (mergeLoop_throws branch (x :: rest) [] Hin Htruthy Hiter).
Qed.

End Malformed.

(** [required] given as the string [a], and as [true] in a branch. *)
Lemma malformed_required_throws_witness :
  every_runtime (fun rt =>
    visitNodeForDiagnostics 1 documentA
      (Some (JObj [("type", JStr "object"); ("required", JStr "a")]))
      (JObj [("type", JStr "object"); ("required", JStr "a")])
      oneLineDocument [] defaultConfig = Throw /\
    mergeSchemas [JObj [("required", JBool true)]] = Throw).
Proof.
  intros rt. split.
  - apply (proj1 malformed_required_throws 1 None 0%Z 8%Z (node_children documentA)
             (Some (JObj [("type", JStr "object"); ("required", JStr "a")]))
             (JObj [("type", JStr "object"); ("required", JStr "a")])
             oneLineDocument [] defaultConfig
             (JObj [("type", JStr "object"); ("required", JStr "a")]) (JStr "a"));
      try reflexivity.
    discriminate.
  - apply (proj2 malformed_required_throws [JObj [("required", JBool true)]]
             (JObj [("required", JBool true)]));
      [now left | reflexivity | reflexivity].
Defined.

(** ** The matcher ends *)

Section Runs.
Context {rt : JsRuntime}.
Variable rootSchema : json.
Hypothesis Hroot : allOfFree rootSchema = true.

Lemma resolve_stays_below (fuel : nat) :
  forall c seen r,
    inRoot rootSchema c ->
    resolveSchemaNode fuel c rootSchema seen = Ok (Some r) ->
    below r rootSchema.
Proof.
  induction fuel as [| fuel IH]; intros c seen r Hc; [discriminate |].
  rewrite resolveSchemaNode_eq.
  destruct (negb (truthy c)); [discriminate |].
  destruct (hasRef c).
  { destruct (field c "$ref") as [[| | | ref | | |] |]; try discriminate.
    destruct (negb (startsWith ref "#")); [discriminate |]. cbv zeta.
    destruct (resolvePointer rootSchema ref) as [x |] eqn:Hx.
    - pose proof (resolvePointer_below _ _ _ Hx) as Hxb.
      destruct (negb (truthy (Some x)) || Set_has seen (pointerParts ref)).
      + now intros [= <-].
      + apply IH. now intros v [= <-].
    - destruct (negb (truthy None) || Set_has seen (pointerParts ref));
        [discriminate |].
      apply IH. intros v; discriminate. }
  rewrite (allOfFree_field c).
  2:{ intros v Hv. destruct (Hc v Hv) as (_ & _ & Ha). now apply Ha. }
  change (nonEmpty None) with false. cbv iota.
  assert (Hentry : forall k o, field c k = Some o -> inRoot rootSchema (at_index o 0)).
  { intros k o Hf x Hx. destruct c as [v |]; [| discriminate].
    cbn [field] in Hf. apply member_below in Hf. apply at_index_below in Hx.
    eapply below_trans; [exact Hx |]. eapply below_trans; [exact Hf |].
    now apply Hc. }
  destruct (nonEmpty (field c "oneOf")).
  { destruct (field c "oneOf") as [o |] eqn:Hf; [| discriminate].
    apply IH. now apply (Hentry "oneOf"). }
  destruct (nonEmpty (field c "anyOf")).
  { destruct (field c "anyOf") as [o |] eqn:Hf; [| discriminate].
    apply IH. now apply (Hentry "anyOf"). }
  intros [= ->]. now apply Hc.
Qed.

Lemma resolve_within_budget (fuel : nat) (c : option json) :
  budget rootSchema <= fuel -> inRoot rootSchema c ->
  exists r, resolveSchemaNode fuel c rootSchema [] = Ok r.
Proof.
  intros Hfuel Hc.
  apply (resolve_terminates_bound rootSchema (refs rootSchema) Hroot
           (incl_refl _)).
  - assert (Hsize : optsize c <= size rootSchema).
    { destruct c as [v |]; [| cbn; lia]. now destruct (Hc v eq_refl). }
    assert (Hunseen : unseen (refs rootSchema) [] <= List.length (refs rootSchema)).
    { unfold unseen. apply filter_length_le. }
    unfold budget in Hfuel. nia.
  - intros v ->. destruct (Hc v eq_refl) as (_ & Hr & Ha). auto.
Qed.

Lemma info_schema_below (schema : json) (key : string) (x : json) :
  info_schema (getPropertySchemaInfo schema key) = Some x -> below x schema.
Proof.
  unfold getPropertySchemaInfo. cbv zeta.
  destruct (truthy (member schema "properties") &&
            truthy (getOf (member schema "properties") key)).
  - cbn [info_schema]. destruct (member schema "properties") as [p |] eqn:Hp;
      [| discriminate].
    cbn [getOf]. intros Hx. apply get_below in Hx. apply member_below in Hp.
    eapply below_trans; eauto.
  - destruct (member schema "additionalProperties") as [a |] eqn:Ha;
      [| discriminate].
    apply member_below in Ha.
    destruct a as [| [] | n | s | l | ms | [| k]];
      cbn [truthy typeofObject andb info_schema];
      try discriminate;
      try (destruct (number_truthy n); discriminate);
      try (destruct (negb (s =? "")); discriminate);
      now intros [= <-].
Qed.

Lemma resolveArrayItemSchema_below (schema : json) (index : nat) (x : json) :
  resolveArrayItemSchema (member schema "items") index = Some x ->
  below x schema.
Proof.
  unfold resolveArrayItemSchema.
  destruct (negb (truthy (member schema "items"))); [discriminate |].
  destruct (member schema "items") as [items |] eqn:Hitems; [| discriminate].
  apply member_below in Hitems.
  assert (Hentry : forall l i, items = JArr l -> nth_error l i = Some x ->
                               below x schema).
  { intros l i -> Hi. apply nth_error_below in Hi. destruct Hi as [Hi _].
    eapply below_trans; eauto. }
  destruct items as [| b | n | s | l | ms | [| []]]; try discriminate;
    try (now intros [= <-]).
  destruct (nth_error l index) as [[| b | n | s | l' | ms | h] |] eqn:Hi;
    try (intros [= <-]; now apply (Hentry l index)).
  - destruct (List.length l); [discriminate |]. intros Hlast.
    now apply (Hentry l n).
  - destruct (List.length l); [discriminate |]. intros Hlast.
    now apply (Hentry l n).
Qed.

Lemma requiredSetOf_runs (schema : json) : requiredSetOf schema <> OutOfFuel.
Proof.
  unfold requiredSetOf.
  destruct (member schema "required") as [[| b | n | s | l | ms | [| []]] |];
    discriminate.
Qed.

Section LoopsRun.
Variable visit : Node -> option json -> list Diagnostic -> result (list Diagnostic).
Variable bound : nat.
Hypothesis Hvisit : forall n s d,
  node_size n < bound -> inRoot rootSchema s -> visit n s d <> OutOfFuel.

Lemma visitProperty_runs rs document config p st :
  below rs rootSchema -> node_size p <= bound ->
  visitProperty visit rs document config p st <> OutOfFuel.
Proof.
  intros Hrs Hp. unfold visitProperty.
  destruct p as [[] value offset length [[| keyNode [| valueNode tl]] |]];
    try discriminate.
  destruct (node_value keyNode) as [[| | | key | | |] |]; try discriminate.
  destruct (key =? ""); [discriminate |].
  destruct (key =? "$schema"); [discriminate |]. cbv zeta.
  destruct (truthy (info_schema (getPropertySchemaInfo rs key))).
  - assert (Hv : visit valueNode (info_schema (getPropertySchemaInfo rs key)) (fst st)
                 <> OutOfFuel).
    { apply Hvisit.
      - rewrite node_size_children in Hp. cbn [nodes_size] in Hp.
        pose proof (node_size_pos keyNode). lia.
      - intros x Hx. apply info_schema_below in Hx. eapply below_trans; eauto. }
    destruct (visit valueNode _ (fst st)); cbn [bind]; congruence.
  - destruct (showUnknownProperties config && _); discriminate.
Qed.

Lemma visitProperties_runs rs document config children :
  forall st,
    below rs rootSchema -> nodes_size children <= bound ->
    visitProperties visit rs document config children st <> OutOfFuel.
Proof.
  induction children as [| p rest IH]; intros st Hrs Hsize; cbn [visitProperties].
  - discriminate.
  - cbn [nodes_size] in Hsize.
    pose proof (visitProperty_runs rs document config p st Hrs ltac:(lia)) as Hp.
    destruct (visitProperty visit rs document config p st) as [st' | |];
      cbn [bind]; try congruence.
    apply IH; [assumption | lia].
Qed.

Lemma visitElements_runs rs children :
  forall index d,
    below rs rootSchema -> nodes_size children < bound ->
    visitElements visit (member rs "items") children index d <> OutOfFuel.
Proof.
  induction children as [| e rest IH]; intros index d Hrs Hsize; cbn [visitElements].
  - discriminate.
  - cbn [nodes_size] in Hsize. cbv zeta. pose proof (node_size_pos e).
    destruct (truthy (resolveArrayItemSchema (member rs "items") index)).
    + assert (Hv : visit e (resolveArrayItemSchema (member rs "items") index) d
                   <> OutOfFuel).
      { apply Hvisit; [lia |]. intros x Hx.
        apply resolveArrayItemSchema_below in Hx. eapply below_trans; eauto. }
      destruct (visit e _ d); cbn [bind]; try congruence.
      apply IH; [assumption | lia].
    + cbn [bind]. apply IH; [assumption | lia].
Qed.

End LoopsRun.

Lemma visit_runs (fuel : nat) (document : TextDocument) (config : ExtensionConfig)
    (node : Node) :
  budget rootSchema <= fuel ->
  forall schema d,
    inRoot rootSchema schema ->
    visitNodeForDiagnostics fuel node schema rootSchema document d config <>
    OutOfFuel.
Proof.
  intros Hfuel. induction node as [node IH] using Node_size_ind.
  intros schema d Hschema. rewrite visitNodeForDiagnostics_eq.
  destruct (negb (truthy schema)); [discriminate |].
  destruct (resolve_within_budget fuel schema Hfuel Hschema) as [r Hr].
  rewrite Hr. cbn [bind]. destruct r as [rs |]; [| discriminate].
  pose proof (resolve_stays_below _ _ _ _ Hschema Hr) as Hrs.
  destruct (negb (truthy (Some rs))); [discriminate |].
  destruct (negb (isNodeTypeCompatible node rs)); [discriminate |]. cbv zeta.
  set (visit := fun n s d0 =>
         visitNodeForDiagnostics fuel n s rootSchema document d0 config).
  assert (Hvisit : forall n s d0, node_size n < node_size node -> inRoot rootSchema s ->
            visit n s d0 <> OutOfFuel).
  { intros n s d0 Hn Hs. unfold visit. now apply IH. }
  destruct node as [[] value offset length children]; cbn [node_type node_children];
    try discriminate.
  - destruct (negb (isObjectSchema rs)); [discriminate |].
    pose proof (requiredSetOf_runs rs) as Hreq.
    destruct (requiredSetOf rs) as [req | |]; cbn [bind]; try congruence.
    destruct children as [cs |]; cbn [bind]; [| discriminate].
    pose proof (visitProperties_runs visit _ Hvisit rs document config cs (d, []) Hrs
                  ltac:(rewrite node_size_children; lia)) as Hp.
    destruct (visitProperties visit rs document config cs (d, [])); cbn [bind];
      congruence.
  - destruct (negb (isArraySchema rs)); [discriminate |].
    destruct children as [cs |]; [| discriminate].
    apply (visitElements_runs visit _ Hvisit); [assumption |].
    rewrite node_size_children. lia.
Qed.

(** With room for [budget] calls the result does not depend on the room. *)
Lemma resolve_same_within_budget (fuel fuel' : nat) (c : option json) :
  budget rootSchema <= fuel -> budget rootSchema <= fuel' ->
  inRoot rootSchema c ->
  resolveSchemaNode fuel c rootSchema [] = resolveSchemaNode fuel' c rootSchema [].
Proof.
  intros Hfuel Hfuel' Hc.
  destruct (resolve_within_budget (budget rootSchema) c
              (Nat.le_refl _) Hc) as [r Hr].
  rewrite (resolveSchemaNode_fuel_mono _ fuel _ _ _ _ Hfuel Hr).
  now rewrite (resolveSchemaNode_fuel_mono _ fuel' _ _ _ _ Hfuel' Hr).
Qed.

Section LoopsSame.
Variables visit1 visit2 :
  Node -> option json -> list Diagnostic -> result (list Diagnostic).
Variable bound : nat.
Hypothesis Hvisit : forall n s d,
  node_size n < bound -> inRoot rootSchema s -> visit1 n s d = visit2 n s d.

Lemma visitProperty_same rs document config p st :
  below rs rootSchema -> node_size p <= bound ->
  visitProperty visit1 rs document config p st =
  visitProperty visit2 rs document config p st.
Proof.
  intros Hrs Hp. unfold visitProperty.
  destruct p as [[] value offset length [[| keyNode [| valueNode tl]] |]];
    try reflexivity.
  destruct (node_value keyNode) as [[| | | key | | |] |]; try reflexivity.
  destruct (key =? ""); [reflexivity |].
  destruct (key =? "$schema"); [reflexivity |]. cbv zeta.
  destruct (truthy (info_schema (getPropertySchemaInfo rs key))); [| reflexivity].
  rewrite Hvisit; [reflexivity | |].
  - rewrite node_size_children in Hp. cbn [nodes_size] in Hp.
    pose proof (node_size_pos keyNode). lia.
  - intros x Hx. apply info_schema_below in Hx. eapply below_trans; eauto.
Qed.

Lemma visitProperties_same rs document config children :
  forall st,
    below rs rootSchema -> nodes_size children <= bound ->
    visitProperties visit1 rs document config children st =
    visitProperties visit2 rs document config children st.
Proof.
  induction children as [| p rest IH]; intros st Hrs Hsize; cbn [visitProperties];
    [reflexivity |].
  cbn [nodes_size] in Hsize.
  rewrite (visitProperty_same rs document config p st Hrs) by lia.
  destruct (visitProperty visit2 rs document config p st) as [st' | |];
    cbn [bind]; try reflexivity.
  apply IH; [assumption | lia].
Qed.

Lemma visitElements_same rs children :
  forall index d,
    below rs rootSchema -> nodes_size children < bound ->
    visitElements visit1 (member rs "items") children index d =
    visitElements visit2 (member rs "items") children index d.
Proof.
  induction children as [| e rest IH]; intros index d Hrs Hsize; cbn [visitElements];
    [reflexivity |].
  cbn [nodes_size] in Hsize. cbv zeta. pose proof (node_size_pos e).
  destruct (truthy (resolveArrayItemSchema (member rs "items") index)).
  - rewrite Hvisit; [| lia |].
    + destruct (visit2 e _ d); cbn [bind]; try reflexivity.
      apply IH; [assumption | lia].
    + intros x Hx. apply resolveArrayItemSchema_below in Hx.
      eapply below_trans; eauto.
  - cbn [bind]. apply IH; [assumption | lia].
Qed.

End LoopsSame.

Lemma visit_same (fuel fuel' : nat) (document : TextDocument)
    (config : ExtensionConfig) (node : Node) :
  budget rootSchema <= fuel -> budget rootSchema <= fuel' ->
  forall schema d,
    inRoot rootSchema schema ->
    visitNodeForDiagnostics fuel node schema rootSchema document d config =
    visitNodeForDiagnostics fuel' node schema rootSchema document d config.
Proof.
  intros Hfuel Hfuel'. induction node as [node IH] using Node_size_ind.
  intros schema d Hschema. rewrite !visitNodeForDiagnostics_eq.
  destruct (negb (truthy schema)); [reflexivity |].
  rewrite (resolve_same_within_budget fuel fuel' schema Hfuel Hfuel' Hschema).
  destruct (resolveSchemaNode fuel' schema rootSchema []) as [[rs |] | |] eqn:Hr;
    cbn [bind]; try reflexivity.
  pose proof (resolve_stays_below _ _ _ _ Hschema Hr) as Hrs.
  destruct (negb (truthy (Some rs))); [reflexivity |].
  destruct (negb (isNodeTypeCompatible node rs)); [reflexivity |]. cbv zeta.
  set (visit1 := fun n s d0 =>
         visitNodeForDiagnostics fuel n s rootSchema document d0 config).
  set (visit2 := fun n s d0 =>
         visitNodeForDiagnostics fuel' n s rootSchema document d0 config).
  assert (Hvisit : forall n s d0, node_size n < node_size node ->
            inRoot rootSchema s -> visit1 n s d0 = visit2 n s d0).
  { intros n s d0 Hn Hs. unfold visit1, visit2. now apply IH. }
  destruct node as [[] value offset length children]; cbn [node_type node_children];
    try reflexivity.
  - destruct (negb (isObjectSchema rs)); [reflexivity |].
    destruct (requiredSetOf rs) as [req | |]; cbn [bind]; try reflexivity.
    destruct children as [cs |]; cbn [bind]; [| reflexivity].
    rewrite (visitProperties_same visit1 visit2 _ Hvisit rs document config cs
               (d, []) Hrs); [reflexivity |].
    rewrite node_size_children. lia.
  - destruct (negb (isArraySchema rs)); [reflexivity |].
    destruct children as [cs |]; [| reflexivity].
    apply (visitElements_same visit1 visit2 _ Hvisit); [assumption |].
    rewrite node_size_children. lia.
Qed.

End Runs.

Section RunsTheorem.
Context {rt : JsRuntime}.

Lemma collect_runs (schema : json) :
  allOfFree schema = true ->
  forall fuel root document config,
    budget schema <= fuel ->
    collectDiagnostics fuel root schema document config <> OutOfFuel.
Proof.
  intros Hfree fuel root document config Hfuel. unfold collectDiagnostics. cbv zeta.
  assert (Hstart : inRoot schema (Some schema)).
  { intros v [= <-]. apply below_refl. }
  destruct (resolve_within_budget schema Hfree fuel (Some schema) Hfuel Hstart)
    as [r Hr].
  rewrite Hr. cbn [bind]. destruct (negb (truthy r)); [discriminate |].
  apply (visit_runs schema Hfree); [assumption |].
  intros v ->. exact (resolve_stays_below schema Hfree _ _ _ _ Hstart Hr).
Qed.

Lemma collect_same (schema : json) :
  allOfFree schema = true ->
  forall fuel fuel' root document config,
    budget schema <= fuel -> budget schema <= fuel' ->
    collectDiagnostics fuel root schema document config =
    collectDiagnostics fuel' root schema document config.
Proof.
  intros Hfree fuel fuel' root document config Hfuel Hfuel'.
  unfold collectDiagnostics. cbv zeta.
  assert (Hstart : inRoot schema (Some schema)).
  { intros v [= <-]. apply below_refl. }
  rewrite (resolve_same_within_budget schema Hfree fuel fuel' (Some schema)
             Hfuel Hfuel' Hstart).
  destruct (resolveSchemaNode fuel' (Some schema) schema []) as [r | |] eqn:Hr;
    cbn [bind]; try reflexivity.
  destruct (negb (truthy r)); [reflexivity |].
  apply (visit_same schema Hfree); [assumption | assumption |].
  intros v ->. exact (resolve_stays_below schema Hfree _ _ _ _ Hstart Hr).
Qed.

(** X22. On a schema without [allOf] the matcher does not exhaust the call
    stack: when no object of the root schema has a member [allOf] and the
    stack has room for one call for each level of the document and for
    [budget] nested calls of [resolveSchemaNode], a number that depends on
    the schema only, [collectDiagnostics] ends with its diagnostics or with
    a [TypeError], and the result is the same for every larger stack. *)
Theorem matcher_ends_without_allOf (schema : json) :
  allOfFree schema = true ->
  forall root document config,
    exists outcome,
      outcome <> OutOfFuel /\
      forall fuel,
        budget schema + node_depth root <= fuel ->
        collectDiagnostics fuel root schema document config = outcome.
Proof.
  intros Hfree root document config.
  exists (collectDiagnostics (budget schema) root schema document config).
  split.
  - now apply collect_runs.
  - intros fuel Hfuel. apply collect_same; [assumption | lia | apply Nat.le_refl].
Qed.

End RunsTheorem.

(** The schema that requires [a] and [b], on the document [{"a": 1}]. *)
Lemma matcher_ends_without_allOf_witness :
  every_runtime (fun rt =>
    exists outcome,
      outcome <> OutOfFuel /\
      forall fuel,
        budget requiresAB + node_depth documentA <= fuel ->
        collectDiagnostics fuel documentA requiresAB oneLineDocument
          defaultConfig = outcome).
Proof.
  intros rt. apply (matcher_ends_without_allOf requiresAB). reflexivity.
Defined.

(** ** Examples *)

Section Examples.
Context {rt : JsRuntime}.

(** An object schema that requires [a] and [b], matched against
    [{"a": 1}]: one diagnostic, for [b], on the opening brace. *)
Example missing_b :
  collectDiagnostics 1
    (mkNode TObject None 0 8
       (Some [mkNode TProperty None 1 6
                (Some [mkNode TString (Some (JStr "a")) 1 3 None;
                       mkNode TNumber (Some (JNum (S754_finite false 1 0))) 6 1 None])]))
    (JObj [("type", JStr "object"); ("required", JArr [JStr "a"; JStr "b"])])
    oneLineDocument
    {| schemaMappings := []; showUnknownProperties := false;
       enableDiagnostics := true |} =
  Ok [{| range := {| range_start := {| line := 0; character := 0 |};
                     range_end := {| line := 0; character := 1 |} |};
         message := "Missing required property " ++ dquote ++ "b" ++ dquote ++ ".";
         severity := SeverityWarning |}].
Proof. reflexivity. Qed.

(** [{"type": "array", "items": {"type": "integer"}}] against [[1, 2, "x"]]:
    one diagnostic, on the third element. *)
Example integer_items :
  collectDiagnostics 1
    (mkNode TArray None 0 11
       (Some [mkNode TNumber (Some (JNum (S754_finite false 1 0))) 1 1 None;
              mkNode TNumber (Some (JNum (S754_finite false 1 1))) 4 1 None;
              mkNode TString (Some (JStr "x")) 7 3 None]))
    (JObj [("type", JStr "array"); ("items", JObj [("type", JStr "integer")])])
    oneLineDocument defaultConfig =
  Ok [{| range := {| range_start := {| line := 0; character := 7 |};
                     range_end := {| line := 0; character := 10 |} |};
         message := "Type mismatch: expected integer.";
         severity := SeverityWarning |}].
Proof. reflexivity. Qed.

(** A document that holds [$schema] only, against a closed schema that
    requires [$schema]: no diagnostic. *)
Example schema_property_alone :
  collectDiagnostics 1
    (mkNode TObject None 0 19
       (Some [mkNode TProperty None 1 17
                (Some [mkNode TString (Some (JStr "$schema")) 1 9 None;
                       mkNode TString (Some (JStr "s.json")) 12 8 None])]))
    (JObj [("type", JStr "object"); ("properties", JObj []);
           ("required", JArr [JStr "$schema"]);
           ("additionalProperties", JBool false)])
    oneLineDocument defaultConfig = Ok [].
Proof. reflexivity. Qed.

(** A pointer with escaped segments. *)
Example pointer_segments :
  pointerParts "#/a~1b/c~01/~0" = ["a/b"; "c~1"; "~"].
Proof. reflexivity. Qed.

(** A key that [properties] inherits is a declared one for the matcher:
    no diagnostic for [toString], one for [size]. *)
Example inherited_name_is_declared :
  collectDiagnostics 1
    (mkNode TObject None 0 27
       (Some [mkNode TProperty None 1 13
                (Some [mkNode TString (Some (JStr "toString")) 1 10 None;
                       mkNode TNumber (Some (JNum (S754_finite false 1 0))) 13 1 None]);
              mkNode TProperty None 16 9
                (Some [mkNode TString (Some (JStr "size")) 16 6 None;
                       mkNode TNumber (Some (JNum (S754_finite false 1 0))) 24 1 None])]))
    (JObj [("type", JStr "object"); ("properties", JObj [])])
    oneLineDocument defaultConfig =
  Ok [createUnknownPropertyDiagnostic
        (mkNode TString (Some (JStr "size")) 16 6 None) "size" oneLineDocument].
Proof. reflexivity. Qed.

(** A pointer finds the members that objects inherit: [#/constructor]
    resolves to a built-in function, which constrains nothing. *)
Example inherited_name_is_resolved :
  resolveSchemaNode 2 (Some (JObj [("$ref", JStr "#/constructor")])) (JObj []) [] =
  Ok (Some (JHost HostFunction)) /\
  collectDiagnostics 2
    (mkNode TNumber (Some (JNum (S754_finite false 1 0))) 0 1 None)
    (JObj [("$ref", JStr "#/constructor")]) oneLineDocument defaultConfig =
  Ok [].
Proof. split; reflexivity. Qed.

(** The [allOf] that refers to itself exhausts the call stack, whatever its
    size. *)
Example allOf_cycle :
  forall fuel,
    resolveSchemaNode fuel (Some (JObj [("$ref", JStr "#/definitions/x")]))
      loopRoot [] = OutOfFuel.
Proof. intros fuel. apply allOf_cycle_runs_out. Qed.

End Examples.
